(** * milltech-visual-monitor: the capture / diff / baseline pipeline

    A shallow embedding of [scripts/monitor.js] and of the properties
    its design document states about it.

    - [JsNumber]: JavaScript numbers as IEEE 754 binary64 values.
    - [Png]: the raster images of pngjs and the padding done in
      [diffPngs].
    - [Platform]: the library and runtime functions the script calls
      (URL, sha1, the PNG codec, pixelmatch, readdir, zip, toFixed), as
      a class, with the contracts the proofs rely on.
    - The run: [main] and the functions it calls, as computations over
      a state made of the working directories, the report, the seed
      counter and the log of the calls that leave the process; a
      throwing call ends the computation with its error and the state
      reached.
    - The capture of a page: [captureFullPage] and
      [acceptCookieYesIfPresent] as the calls they make on a page that
      answers each of them.
    - The properties, component by component, then their instances on
      concrete runs.

    What the outside world answers is an input of the model: for each
    target the result of [captureFullPage] and the readings of
    [Date.now()]; after the loop [process.env], the outcome of the git
    commands and of zip, and the status of the answer of Mailgun.  The
    file system itself does not fail: writing a file, and renaming or
    reading one that exists, succeed. *)

From Stdlib Require Import ZArith Lia List String.
From Stdlib Require Import Floats.SpecFloat.
From stdpp Require Import gmap strings list pretty.

Local Open Scope Z_scope.

(** * JavaScript numbers *)

(** A JavaScript number is a binary64 float.  [spec_float] is the
    executable IEEE 754 model of the standard library, instantiated at
    53 bits of precision and a maximal exponent of 1024. *)
Module JsNumber.

Definition prec : Z := 53.
Definition emax : Z := 1024.

Abbreviation number := spec_float.

(** The value of an integer literal or of an integer-valued property
    ([img.width], a pixel count): the nearest binary64. *)
Definition of_Z (z : Z) : number := binary_normalize prec emax z 0 false.

(** [x / y] *)
Definition div (x y : number) : number := SFdiv prec emax x y.

(** [x * y] *)
Definition mul (x y : number) : number := SFmul prec emax x y.

(** [x >= y] *)
Definition ge (x y : number) : bool := SFleb y x.

(** [x < y] *)
Definition lt (x y : number) : bool := SFltb x y.

(** [x === y] on numbers *)
Definition eqb (x y : number) : bool := SFeqb x y.

Definition is_nan (x : number) : bool :=
  match x with S754_nan => true | _ => false end.

Definition zero : number := S754_zero false.

(** A number that is neither NaN, nor negative, nor infinite. *)
Definition nonneg_finite (x : number) : Prop :=
  match x with
  | S754_zero false | S754_finite false _ _ => True
  | _ => False
  end.

Definition pos_finite (x : number) : Prop :=
  match x with
  | S754_finite false _ _ => True
  | _ => False
  end.

(** The mantissa of the binary64 value of a positive integer of at most
    53 bits: the integer shifted left to 53 bits, nothing rounded away. *)
Definition exact_mantissa (p : positive) : positive :=
  match (Zpos (digits2_pos p) - 53)%Z with
  | Zneg k => Pos.iter xO p k
  | _ => p
  end.

End JsNumber.

(** * Raster images *)

(** File contents and Node [Buffer]s are byte sequences. *)
Abbreviation buffer := (list Byte.byte).

#[global] Instance byte_eq_dec : EqDecision Byte.byte := Byte.byte_eq_dec.

(** What a throwing call of the script raises. *)
Inductive error : Type :=
  | InvalidUrl                  (* [new URL(url)] *)
  | InvalidPng                  (* [PNG.sync.read] *)
  | BitbltOutsideImage          (* [PNG.bitblt] range check *)
  | BufferTooLarge              (* [Buffer.alloc] beyond [MAX_LENGTH] *)
  | OutOfRange                  (* [Buffer.copy] given an offset out of range *)
  | NoSuchFile                  (* ENOENT from [fs/promises] *)
  | MissingEnvVar (name : string)
  | GitFailed                   (* [execSync] of a git command *)
  | ZipFailed                   (* [execFile] of zip, in [createZip] *)
  | MailgunSendFailed.

Inductive result (A : Type) : Type :=
  | Ok (a : A)
  | Threw (e : error).
Arguments Ok {A} a.
Arguments Threw {A} e.

Module Png.

(** The [PNG] object of pngjs: dimensions and an RGBA buffer of
    [4 * width * height] bytes, rows first. *)
Record PNG : Type := mkPNG { width : nat; height : nat; data : buffer }.

(** [buffer.constants.MAX_LENGTH], the largest size of a [Buffer]
    (its value on 64-bit platforms). *)
Definition MAX_LENGTH : Z := 2 ^ 53 - 1.

(** What a decoded image satisfies: positive dimensions and a buffer
    of the matching size, which as a [Buffer] is within [MAX_LENGTH]. *)
Record well_formed (img : PNG) : Prop := {
  wf_width : (0 < width img)%nat;
  wf_height : (0 < height img)%nat;
  wf_data : length (data img) = (4 * (width img * height img))%nat;
  wf_size : Z.of_nat (4 * (width img * height img)) <= MAX_LENGTH
}.

(** [new PNG({ width, height })]: a zero-filled buffer from
    [Buffer.alloc(4 * width * height)], which throws beyond
    [MAX_LENGTH]. *)
Definition new_PNG (w h : nat) : result PNG :=
  if Z.of_nat (4 * (w * h)) <=? MAX_LENGTH
  then Ok {| width := w; height := h; data := replicate (4 * (w * h)) Byte.x00 |}
  else Threw BufferTooLarge.

(** [x | 0]: the 32-bit signed integer that [x] is modulo [2^32]. *)
Definition to_int32 (z : Z) : Z := (z + 2 ^ 31) mod 2 ^ 32 - 2 ^ 31.

(** [x << 2], computed on 32-bit signed integers. *)
Definition shl2 (z : Z) : Z := to_int32 (z * 4).

(** The bytes [sourceStart, sourceEnd) of [source] overwrite [target]
    from [targetStart], as many as fit and as there are; the result
    is the new content of [target]. *)
Definition copy_bytes (source target : buffer)
    (targetStart sourceStart sourceEnd : nat) : buffer :=
  let chunk := take (length target - targetStart)
                 (take (sourceEnd - sourceStart) (drop sourceStart source)) in
  take targetStart target ++ chunk ++ drop (targetStart + length chunk) target.

(** [source.copy(target, targetStart, sourceStart, sourceEnd)] of Node
    on integer offsets: a negative offset, or a [sourceStart] beyond
    the source, is a range error; a [targetStart] at or beyond the end
    of the target, or an empty range, copies nothing. *)
Definition buffer_copy (source target : buffer)
    (targetStart sourceStart sourceEnd : Z) : result buffer :=
  if (targetStart <? 0) || (sourceStart <? 0)
     || (Z.of_nat (length source) <? sourceStart) || (sourceEnd <? 0)
  then Threw OutOfRange
  else if (Z.of_nat (length target) <=? targetStart) || (sourceEnd <=? sourceStart)
       then Ok target
       else Ok (copy_bytes source target (Z.to_nat targetStart)
                  (Z.to_nat sourceStart) (Z.to_nat sourceEnd)).

(** The body of the row loop of [PNG.bitblt]: row [y] of the source
    rectangle is copied to row [deltaY + y] of the destination.  The
    byte offsets are pixel offsets shifted left by two bits. *)
Definition bitblt_row (src : PNG) (dstWidth : nat)
    (srcX srcY w deltaX deltaY : Z) (dstData : buffer) (y : nat) : result buffer :=
  buffer_copy (data src) dstData
    (shl2 ((deltaY + Z.of_nat y) * Z.of_nat dstWidth + deltaX))
    (shl2 ((srcY + Z.of_nat y) * Z.of_nat (width src) + srcX))
    (shl2 ((srcY + Z.of_nat y) * Z.of_nat (width src) + srcX + w)).

(** The row loop over the rows [ys]; a row that throws ends it. *)
Fixpoint bitblt_rows_from (src : PNG) (dstWidth : nat)
    (srcX srcY w deltaX deltaY : Z) (ys : list nat) (dstData : buffer)
    : result buffer :=
  match ys with
  | [] => Ok dstData
  | y :: rest =>
      match bitblt_row src dstWidth srcX srcY w deltaX deltaY dstData y with
      | Ok copied => bitblt_rows_from src dstWidth srcX srcY w deltaX deltaY rest copied
      | Threw e => Threw e
      end
  end.

Definition bitblt_rows (src : PNG) (dstWidth : nat)
    (srcX srcY w deltaX deltaY : Z) (rows : nat) (dstData : buffer) : result buffer :=
  bitblt_rows_from src dstWidth srcX srcY w deltaX deltaY (seq 0 rows) dstData.

(** [PNG.bitblt(src, dst, srcX, srcY, width, height, deltaX, deltaY)]:
    the six numbers are first made 32-bit integers; it throws when
    the rectangle leaves either image, and the row loop throws when
    [Buffer.copy] does. *)
Definition bitblt (src dst : PNG) (srcX0 srcY0 w0 h0 deltaX0 deltaY0 : Z) : result PNG :=
  let srcX := to_int32 srcX0 in
  let srcY := to_int32 srcY0 in
  let w := to_int32 w0 in
  let h := to_int32 h0 in
  let deltaX := to_int32 deltaX0 in
  let deltaY := to_int32 deltaY0 in
  if (Z.of_nat (width src) <? srcX) || (Z.of_nat (height src) <? srcY)
     || (Z.of_nat (width src) <? srcX + w) || (Z.of_nat (height src) <? srcY + h)
     || (Z.of_nat (width dst) <? deltaX) || (Z.of_nat (height dst) <? deltaY)
     || (Z.of_nat (width dst) <? deltaX + w) || (Z.of_nat (height dst) <? deltaY + h)
  then Threw BitbltOutsideImage
  else
    match bitblt_rows src (width dst) srcX srcY w deltaX deltaY (Z.to_nat h) (data dst) with
    | Ok copied => Ok {| width := width dst; height := height dst; data := copied |}
    | Threw e => Threw e
    end.

(** [padTo] of [diffPngs], for the canvas [width] x [height]. *)
Definition padTo (width0 height0 : nat) (img : PNG) : result PNG :=
  if ((width img =? width0) && (height img =? height0))%nat then Ok img
  else
    match new_PNG width0 height0 with
    | Threw e => Threw e
    | Ok out =>
        bitblt img out 0 0 (Z.of_nat (width img)) (Z.of_nat (height img)) 0 0
    end.

(** The rows of [src] laid on [dstData], [dstWidth] pixels wide, from
    its top-left corner: what the row loop of [PNG.bitblt] computes
    when no offset leaves the 32-bit range. *)
Definition laid_row (src : PNG) (dstWidth : nat) (dstData : buffer) (y : nat) : buffer :=
  copy_bytes (data src) dstData
    ((y * dstWidth) * 4) ((y * width src) * 4) ((y * width src + width src) * 4).

Definition laid_rows (src : PNG) (dstWidth : nat) (rows : nat) (dstData : buffer) : buffer :=
  fold_left (laid_row src dstWidth) (seq 0 rows) dstData.

(** The RGBA bytes of pixel number [i] of a buffer. *)
Definition pixel_at (d : buffer) (i : nat) : buffer := take 4 (drop (4 * i) d).

(** How many of the first [n] pixels of two buffers are not equal. *)
Definition differing_pixels (a b : buffer) (n : nat) : nat :=
  length (filter (fun i => pixel_at a i <> pixel_at b i) (seq 0 n)).

(** [canvas] is [img] laid on the top-left corner of a blank
    [w] x [h] image: byte [c] of the pixel in column [x] and row [y]
    is that of [img] inside [img], and zero outside. *)
Definition top_left_on_blank (img canvas : PNG) (w h : nat) : Prop :=
  width canvas = w /\ height canvas = h /\
  length (data canvas) = (4 * (w * h))%nat /\
  forall x y c : nat,
    (x < w)%nat -> (y < h)%nat -> (c < 4)%nat ->
    data canvas !! (4 * (y * w + x) + c)%nat
    = if decide (x < width img /\ y < height img)%nat
      then data img !! (4 * (y * width img + x) + c)%nat
      else Some Byte.x00.

End Png.

(** * The platform the script runs on *)

Import JsNumber Png.

(** The library and runtime functions that [monitor.js] calls and whose
    code is not part of the repository.  Each is taken as a function of
    its inputs; what the proofs need from them is stated separately
    below, as contracts. *)
Class Platform : Type := {
  (** [new URL(url)]: host name and path, or a [TypeError] *)
  URL_parse : string -> option (string * string);
  (** [crypto.createHash("sha1").update(s).digest("hex")] *)
  sha1_hex : string -> string;
  (** [PNG.sync.read], which throws on anything that is not a PNG *)
  PNG_sync_read : buffer -> option PNG;
  (** [PNG.sync.write(png, { colorType: 6 })] *)
  PNG_sync_write : PNG -> buffer;
  (** [pixelmatch(img1, img2, output, width, height, { threshold,
      includeAA: false })]: the output buffer after the call and the
      number of pixels counted as different *)
  pixelmatch : buffer -> buffer -> buffer -> nat -> nat -> number -> buffer * nat;
  (** [fsp.readdir]: the names in a directory, in the file system's order *)
  readdir : gmap string buffer -> list string;
  (** [zip -r out.zip .] run in a directory: the archive written, given
      the archive already at that path, if any *)
  zip_r : option buffer -> gmap string buffer -> buffer;
  (** [x.toFixed(digits)] *)
  toFixed : number -> nat -> string
}.

(** ** Contracts *)

(** A decoded PNG has positive dimensions and a buffer of matching size. *)
Definition decodes_well_formed `{Platform} : Prop :=
  forall buf img, PNG_sync_read buf = Some img -> well_formed img.

(** pixelmatch only counts a pixel whose RGBA bytes differ between the
    two images: its colour delta is zero on equal pixels, and pixels it
    classifies as anti-aliasing are left out of the count. *)
Definition pixelmatch_counts_differing `{Platform} : Prop :=
  forall a b out w h thr,
    length a = (4 * (w * h))%nat -> length b = (4 * (w * h))%nat ->
    (snd (pixelmatch a b out w h thr) <= differing_pixels a b (w * h))%nat.

(** A directory listing names exactly the files of the directory. *)
Definition readdir_lists_files `{Platform} : Prop :=
  forall (d : gmap string buffer) (f : string), f ∈ readdir d <-> is_Some (d !! f).

(** * Strings *)

Definition newline : string := String (Ascii.ascii_of_nat 10) EmptyString.

(** [s.endsWith(suffix)] *)
Definition endsWith (s suffix : string) : bool :=
  let n := String.length s in
  let k := String.length suffix in
  (k <=? n)%nat && String.eqb (String.substring (n - k) k s) suffix.

(** [l.slice(0, k)] for an integer [k]: a negative [k] counts from the end. *)
Definition slice0 {A : Type} (l : list A) (k : Z) : list A :=
  if k <? 0 then take (Z.to_nat (Z.of_nat (length l) + k)) l
  else take (Z.to_nat k) l.

Definition is_alnum (c : Ascii.ascii) : bool :=
  let n := Ascii.nat_of_ascii c in
  ((48 <=? n) && (n <=? 57) || (65 <=? n) && (n <=? 90) || (97 <=? n) && (n <=? 122))%nat.

Definition to_lower (c : Ascii.ascii) : Ascii.ascii :=
  let n := Ascii.nat_of_ascii c in
  if ((65 <=? n) && (n <=? 90))%nat then Ascii.ascii_of_nat (n + 32) else c.

Definition slash : Ascii.ascii := Ascii.ascii_of_nat 47.
Definition dash : Ascii.ascii := Ascii.ascii_of_nat 45.
Definition dquote : Ascii.ascii := Ascii.ascii_of_nat 34.
Definition backslash : Ascii.ascii := Ascii.ascii_of_nat 92.

(** Strings hold the bytes of their UTF-8 encoding.  The white space
    and line terminators that [trim] removes are the one-byte
    characters U+0009 to U+000D and U+0020, *)
Definition is_space (c : Ascii.ascii) : bool :=
  let n := Ascii.nat_of_ascii c in
  ((9 <=? n) && (n <=? 13) || (n =? 32))%nat.

Definition byte_is (c : Ascii.ascii) (n : nat) : bool := (Ascii.nat_of_ascii c =? n)%nat.

(** the two-byte character U+00A0, *)
Definition is_space2 (c1 c2 : Ascii.ascii) : bool := byte_is c1 194 && byte_is c2 160.

(** and the three-byte characters U+1680, U+2000 to U+200A, U+2028,
    U+2029, U+202F, U+205F, U+3000 and U+FEFF. *)
Definition is_space3 (c1 c2 c3 : Ascii.ascii) : bool :=
  let n3 := Ascii.nat_of_ascii c3 in
  byte_is c1 225 && byte_is c2 154 && byte_is c3 128
  || byte_is c1 226 && byte_is c2 128
     && ((128 <=? n3) && (n3 <=? 138) || (n3 =? 168) || (n3 =? 169) || (n3 =? 175))%nat
  || byte_is c1 226 && byte_is c2 129 && byte_is c3 159
  || byte_is c1 227 && byte_is c2 128 && byte_is c3 128
  || byte_is c1 239 && byte_is c2 187 && byte_is c3 191.

(** Nothing but characters that [trim] removes. *)
Fixpoint white_space (s : list Ascii.ascii) : bool :=
  match s with
  | [] => true
  | c1 :: rest =>
      if is_space c1 then white_space rest
      else
        match rest with
        | c2 :: rest2 =>
            if is_space2 c1 c2 then white_space rest2
            else
              match rest2 with
              | c3 :: rest3 => is_space3 c1 c2 c3 && white_space rest3
              | [] => false
              end
        | [] => false
        end
  end.

(** [!s.trim()]: the string is empty once trimmed. *)
Definition blank (s : string) : bool := white_space (list_ascii_of_string s).

(** The escaping of the commit message in [gitCommitIfNeeded]: a
    backslash goes before every double quote. *)
Definition escape_quotes (s : string) : string :=
  string_of_list_ascii
    (concat (map (fun c => if Ascii.eqb c dquote then [backslash; dquote] else [c])
                 (list_ascii_of_string s))).

Fixpoint drop_leading (c : Ascii.ascii) (s : list Ascii.ascii) : list Ascii.ascii :=
  match s with
  | x :: rest => if Ascii.eqb x c then drop_leading c rest else s
  | [] => []
  end.

(** [s.replace(/\/+$/, r)]: a trailing run of slashes becomes [r]. *)
Definition replace_trailing_slashes (r : list Ascii.ascii) (s : list Ascii.ascii)
    : list Ascii.ascii :=
  match rev s with
  | x :: _ => if Ascii.eqb x slash then rev (drop_leading slash (rev s)) ++ r else s
  | [] => s
  end.

(** [s.replace(/[^a-z0-9]+/gi, "-")]: every maximal run of characters
    that are not letters or digits becomes one dash. *)
Fixpoint dash_runs (in_run : bool) (s : list Ascii.ascii) : list Ascii.ascii :=
  match s with
  | [] => []
  | x :: rest =>
      if is_alnum x then x :: dash_runs false rest
      else if in_run then dash_runs true rest
      else dash :: dash_runs true rest
  end.

(** [s.replace(/-+/g, "-")] *)
Fixpoint squeeze_dashes (in_run : bool) (s : list Ascii.ascii) : list Ascii.ascii :=
  match s with
  | [] => []
  | x :: rest =>
      if Ascii.eqb x dash
      then (if in_run then squeeze_dashes true rest else dash :: squeeze_dashes true rest)
      else x :: squeeze_dashes false rest
  end.

(** [s.replace(/^-|-$/g, "")]: one dash off each end. *)
Definition trim_dash (s : list Ascii.ascii) : list Ascii.ascii :=
  let s1 := match s with x :: rest => if Ascii.eqb x dash then rest else s | [] => [] end in
  match rev s1 with
  | x :: rest => if Ascii.eqb x dash then rev rest else s1
  | [] => []
  end.

(** What [diffPngs] returns. *)
Record DiffResult : Type := mkDiff {
  diffBuf : buffer;
  diffPixels : nat;
  totalPixels : nat;
  ratio : number
}.

Section Differ.
Context `{Platform}.

Definition safeSlug (url : string) : result string :=
  match URL_parse url with
  | None => Threw InvalidUrl
  | Some (hostname, pathname) =>
      let raw := replace_trailing_slashes [slash]
                   (list_ascii_of_string (hostname +:+ pathname)) in
      let hash := String.substring 0 10 (sha1_hex url) in
      let normalised :=
        map to_lower (trim_dash (squeeze_dashes false (dash_runs false raw))) in
      Ok (string_of_list_ascii normalised +:+ "__" +:+ hash)
  end.

Definition pngFromBuffer (buf : buffer) : result PNG :=
  match PNG_sync_read buf with
  | Some img => Ok img
  | None => Threw InvalidPng
  end.

Definition pngToBuffer (png : PNG) : buffer := PNG_sync_write png.

(** The body of [diffPngs] once both buffers are decoded. *)
Definition diffImages (img1 img2 : PNG) (pixelmatchThreshold : number)
    : result DiffResult :=
  let width := Nat.max (Png.width img1) (Png.width img2) in
  let height := Nat.max (Png.height img1) (Png.height img2) in
  match padTo width height img1 with
  | Threw e => Threw e
  | Ok a =>
      match padTo width height img2 with
      | Threw e => Threw e
      | Ok b =>
          match new_PNG width height with
          | Threw e => Threw e
          | Ok diff =>
              let '(out, diffPixels) :=
                pixelmatch (data a) (data b) (data diff) width height
                  pixelmatchThreshold in
              let totalPixels := (width * height)%nat in
              let ratio :=
                div (of_Z (Z.of_nat diffPixels)) (of_Z (Z.of_nat totalPixels)) in
              Ok {| diffBuf := pngToBuffer {| Png.width := width; Png.height := height;
                                             data := out |};
                    diffPixels := diffPixels;
                    totalPixels := totalPixels;
                    ratio := ratio |}
          end
      end
  end.

Definition diffPngs (baselineBuf currentBuf : buffer) (pixelmatchThreshold : number)
    : result DiffResult :=
  match pngFromBuffer baselineBuf with
  | Threw e => Threw e
  | Ok img1 =>
      match pngFromBuffer currentBuf with
      | Threw e => Threw e
      | Ok img2 => diffImages img1 img2 pixelmatchThreshold
      end
  end.

End Differ.

(** * The state of a run *)

(** One entry of the report ([changes] in [main]): either
    [{ url, note }] or [{ url, ratio, diffPixels, totalPixels }]. *)
Inductive change : Type :=
  | CaptureFailure (url note : string)
  | VisualChange (url : string) (ratio : number) (diffPixels totalPixels : nat).

Definition change_url (c : change) : string :=
  match c with CaptureFailure u _ | VisualChange u _ _ _ => u end.

Definition is_capture_failure (c : change) : bool :=
  match c with CaptureFailure _ _ => true | VisualChange _ _ _ _ => false end.

(** The working directories of the script, all below [ROOT]. *)
Inductive directory : Type := BASELINES_DIR | RUN_DIR | DIFF_DIR | TMP_DIR.

(** [path.join(dir, name)] *)
Definition path : Type := directory * string.

Record attachment : Type := mkAttachment { att_name : string; att_path : path }.

(** The multipart form posted to Mailgun; the key goes into the
    [Authorization] header. *)
Record mailgun_form : Type := mkForm {
  form_endpoint : string;
  form_api_key : string;
  form_from : string;
  form_to : string;
  form_subject : string;
  form_text : string;
  form_attachments : list (string * buffer)
}.

(** The git commands of [gitCommitIfNeeded]. *)
Inductive git_command : Type :=
  | GitStatus                    (* [git status --porcelain] *)
  | GitAdd                       (* [git add -A] *)
  | GitCommit (message : string) (* [git commit -m "message"] *)
  | GitPush.                     (* [git push] *)

(** Calls that leave the process, in the order they are made. *)
Inductive event : Type :=
  | BrowserLaunch
  | NewContext
  | NewPage
  | PageClose
  | ContextClose
  | BrowserClose
  | Git (c : git_command)
  | MailgunPost (form : mailgun_form).

Record state : Type := mkState {
  baselines : gmap string buffer;   (* files of [BASELINES_DIR] *)
  run_files : gmap string buffer;   (* files of [RUN_DIR] *)
  diff_files : gmap string buffer;  (* files of [DIFF_DIR] *)
  tmp_files : gmap string buffer;   (* files directly in [TMP_DIR] *)
  changes : list change;
  seededBaselines : nat;
  log : list event
}.

Definition files (d : directory) (s : state) : gmap string buffer :=
  match d with
  | BASELINES_DIR => baselines s
  | RUN_DIR => run_files s
  | DIFF_DIR => diff_files s
  | TMP_DIR => tmp_files s
  end.

Definition set_files (d : directory) (m : gmap string buffer) (s : state) : state :=
  match d with
  | BASELINES_DIR => mkState m (run_files s) (diff_files s) (tmp_files s)
                       (changes s) (seededBaselines s) (log s)
  | RUN_DIR => mkState (baselines s) m (diff_files s) (tmp_files s)
                 (changes s) (seededBaselines s) (log s)
  | DIFF_DIR => mkState (baselines s) (run_files s) m (tmp_files s)
                  (changes s) (seededBaselines s) (log s)
  | TMP_DIR => mkState (baselines s) (run_files s) (diff_files s) m
                 (changes s) (seededBaselines s) (log s)
  end.

(** ** Computations that read and change the state, and may throw *)

Definition M (A : Type) : Type := state -> result A * state.

Definition ret {A : Type} (a : A) : M A := fun s => (Ok a, s).

Definition throw {A : Type} (e : error) : M A := fun s => (Threw e, s).

Definition bind {A B : Type} (m : M A) (k : A -> M B) : M B :=
  fun s =>
    match m s with
    | (Ok a, s') => k a s'
    | (Threw e, s') => (Threw e, s')
    end.

Notation "'let*' x ':=' m 'in' k" := (bind m (fun x => k))
  (at level 10, x pattern, m at level 100, k at level 200).
Notation "m '>>' k" := (bind m (fun _ => k))
  (at level 100, k at level 200, right associativity).

Definition get : M state := fun s => (Ok s, s).

Definition modify (f : state -> state) : M unit := fun s => (Ok tt, f s).

Definition lift {A : Type} (r : result A) : M A :=
  match r with Ok a => ret a | Threw e => throw e end.

Fixpoint mapM {A B : Type} (f : A -> M B) (l : list A) : M (list B) :=
  match l with
  | [] => ret []
  | x :: rest => let* y := f x in let* ys := mapM f rest in ret (y :: ys)
  end.

Definition add_event (e : event) (s : state) : state :=
  mkState (baselines s) (run_files s) (diff_files s) (tmp_files s)
    (changes s) (seededBaselines s) (log s ++ [e]).

Definition add_change (c : change) (s : state) : state :=
  mkState (baselines s) (run_files s) (diff_files s) (tmp_files s)
    (changes s ++ [c]) (seededBaselines s) (log s).

Definition add_seed (s : state) : state :=
  mkState (baselines s) (run_files s) (diff_files s) (tmp_files s)
    (changes s) (seededBaselines s + 1) (log s).

Definition emit (e : event) : M unit := modify (add_event e).

(** [changes.push(c)] *)
Definition push_change (c : change) : M unit := modify (add_change c).

(** [seededBaselines += 1] *)
Definition count_seed : M unit := modify add_seed.

(** ** The file system *)

Definition writeFile (p : path) (buf : buffer) : M unit :=
  modify (fun s => set_files p.1 (<[p.2 := buf]> (files p.1 s)) s).

Definition readFile (p : path) : M buffer :=
  fun s =>
    match files p.1 s !! p.2 with
    | Some buf => (Ok buf, s)
    | None => (Threw NoSuchFile, s)
    end.

(** [fsp.rename]: the file leaves its old path and replaces whatever is
    at the new one. *)
Definition rename (old new : path) : M unit :=
  let* buf := readFile old in
  modify (fun s => set_files old.1 (delete old.2 (files old.1 s)) s) >>
  writeFile new buf.

(** [fsp.stat(p).size] *)
Definition stat_size (p : path) : M Z :=
  let* buf := readFile p in ret (Z.of_nat (length buf)).

Definition fileExists (p : path) : M bool :=
  fun s =>
    match files p.1 s !! p.2 with
    | Some _ => (Ok true, s)
    | None => (Ok false, s)
    end.

(** [now] is the value of [Date.now()] at the call. *)
Definition writeFileAtomic (filePath : path) (buf : buffer) (now : N) : M unit :=
  let tmp : path := (filePath.1, filePath.2 +:+ ".tmp-" +:+ pretty now) in
  writeFile tmp buf >>
  rename tmp filePath.

(** The state after a successful [writeFileAtomic]: the temporary file
    has been written and renamed onto [filePath]. *)
Definition written (filePath : path) (buf : buffer) (now : N) (s : state) : state :=
  let tmp := filePath.2 +:+ ".tmp-" +:+ pretty now in
  set_files filePath.1
    (<[filePath.2 := buf]> (delete tmp (<[tmp := buf]> (files filePath.1 s)))) s.

(** A computation preserves a component [f] of the state when it ends,
    returning or throwing, with the [f] it started with. *)
Definition preserves {A X : Type} (f : state -> X) (m : M A) : Prop :=
  forall s, f (m s).2 = f s.

(** A computation is quiet when it makes no call that leaves the
    process: it preserves the log. *)
Definition quiet {A : Type} (m : M A) : Prop := preserves log m.

(** * The run *)

(** [monitor.config.json].  [urls] and [viewport] go to the browser;
    here every URL comes with what the browser returned for it (see
    [target]).  The two limits are integers. *)
Record email_config : Type := mkEmailConfig {
  attachMaxPngs : option Z;
  maxAttachmentBytes : option Z
}.

Record config : Type := mkConfig {
  pixelmatchThreshold : number;
  changeThresholdRatio : number;
  email : option email_config
}.

(** A value thrown by a call of the script, as the loop looks at it:
    [error_message] is [String(e.message)] when [e?.message] is
    truthy, and nothing when it is absent, empty or otherwise falsy;
    [error_string] is [String(e)]. *)
Record thrown : Type := mkThrown {
  error_message : option string;
  error_string : string
}.

(** [String(e?.message || e)] *)
Definition describe (e : thrown) : string :=
  match error_message e with
  | Some message => message
  | None => error_string e
  end.

(** One element of [cfg.urls] with what the outside world answers while
    it is processed: the result of [captureFullPage] (the error it
    threw, or the screenshot) and the readings of [Date.now()] in the
    three calls of [writeFileAtomic]. *)
Record target : Type := mkTarget {
  url : string;
  captured : thrown + buffer;
  now_current : N;
  now_baseline : N;
  now_diff : N
}.

(** The command line [execSync] is given for a git command. *)
Definition command_line (c : git_command) : string :=
  match c with
  | GitStatus => "git status --porcelain"
  | GitAdd => "git add -A"
  | GitCommit message =>
      "git commit -m " +:+ String dquote (escape_quotes message +:+ String dquote "")
  | GitPush => "git push"
  end.

(** What surrounds the process after the loop: [process.env]; what
    [execSync] returns for a git command (its output, or nothing when
    the command fails and [execSync] throws); whether zip succeeds;
    whether Mailgun answers with a success status. *)
Record environment : Type := mkEnv {
  env : gmap string string;
  git : git_command -> option string;
  zip_ok : bool;
  res_ok : bool
}.

(** The four ways the body of the loop over [urls] ends. *)
Inductive outcome : Type := Failed | Seeded | Unchanged | Changed.

Definition zipPath : path := (TMP_DIR, "diffs.zip"%string).

(** The three files of a target, named after its slug. *)
Definition baseline_path (slug : string) : path := (BASELINES_DIR, slug +:+ ".png").
Definition current_path (slug : string) : path := (RUN_DIR, slug +:+ ".png").
Definition diff_path (slug : string) : path := (DIFF_DIR, slug +:+ ".diff.png").

(** The state once the capture of a target is stored in the run
    directory. *)
Definition captured_state (slug : string) (t : target) (currentBuf : buffer)
    (s : state) : state :=
  written (current_path slug) currentBuf (now_current t) s.

Section Run.
Context `{Platform}.
Variable cfg : config.
Variable E : environment.

Definition env_or (name default : string) : string :=
  match env E !! name with
  | Some v => if String.eqb v "" then default else v
  | None => default
  end.

Definition mustEnv (name : string) : M string :=
  match env E !! name with
  | Some v => if String.eqb v "" then throw (MissingEnvVar name) else ret v
  | None => throw (MissingEnvVar name)
  end.

(** [execSync] of a git command. *)
Definition exec_git (c : git_command) : M string :=
  emit (Git c) >>
  match git E c with
  | Some out => ret out
  | None => throw GitFailed
  end.

Definition gitCommitIfNeeded (message : string) : M bool :=
  let* status := exec_git GitStatus in
  if blank status then ret false
  else
    exec_git GitAdd >>
    exec_git (GitCommit message) >>
    exec_git GitPush >>
    ret true.

(** [bytes(n)] *)
Definition bytes (n : Z) : string :=
  if n <? 1024 then pretty n +:+ " B"
  else if n <? 1024 * 1024
       then toFixed (div (of_Z n) (of_Z 1024)) 1 +:+ " KB"
       else toFixed (div (of_Z n) (of_Z (1024 * 1024))) 1 +:+ " MB".

Definition sendMailgunEmail (subject text : string) (attachments : list attachment)
    : M unit :=
  let* apiKey := mustEnv "MAILGUN_API_KEY" in
  let* domain := mustEnv "MAILGUN_DOMAIN" in
  let baseUrl :=
    string_of_list_ascii
      (replace_trailing_slashes []
         (list_ascii_of_string (env_or "MAILGUN_BASE_URL" "https://api.mailgun.net"))) in
  let* to := mustEnv "ALERT_EMAIL_TO" in
  let from := env_or "MAIL_FROM" ("Milltech Monitor <postmaster@" +:+ domain +:+ ">") in
  let* parts :=
    mapM (fun a => let* buf := readFile (att_path a) in ret (att_name a, buf))
         attachments in
  emit (MailgunPost
          {| form_endpoint := baseUrl +:+ "/v3/" +:+ domain +:+ "/messages";
             form_api_key := apiKey;
             form_from := from;
             form_to := to;
             form_subject := subject;
             form_text := text;
             form_attachments := parts |}) >>
  if res_ok E then ret tt else throw MailgunSendFailed.

Definition createZip (inputDir : directory) (outZipPath : path) : M unit :=
  let* s := get in
  if zip_ok E then
    writeFile outZipPath
      (zip_r (files outZipPath.1 s !! outZipPath.2) (files inputDir s))
  else throw ZipFailed.

(** The body of [for (const url of urls)]. *)
Definition process_target (t : target) : M outcome :=
  let* slug := lift (safeSlug (url t)) in
  let baselinePath := baseline_path slug in
  let currentPath := current_path slug in
  let diffPath := diff_path slug in
  match captured t with
  | inl e =>
      push_change (CaptureFailure (url t) ("CAPTURE FAILED: " +:+ describe e)) >>
      ret Failed
  | inr currentBuf =>
      writeFileAtomic currentPath currentBuf (now_current t) >>
      let* hasBaseline := fileExists baselinePath in
      if negb hasBaseline then
        writeFileAtomic baselinePath currentBuf (now_baseline t) >>
        count_seed >>
        ret Seeded
      else
        let* baselineBuf := readFile baselinePath in
        let* d := lift (diffPngs baselineBuf currentBuf (pixelmatchThreshold cfg)) in
        let changed := ge (ratio d) (changeThresholdRatio cfg) in
        if changed then
          writeFileAtomic diffPath (diffBuf d) (now_diff t) >>
          push_change (VisualChange (url t) (ratio d) (diffPixels d) (totalPixels d)) >>
          writeFileAtomic baselinePath currentBuf (now_baseline t) >>
          ret Changed
        else ret Unchanged
  end.

(** The loop over [urls]. *)
Definition process_targets (targets : list target) : M (list outcome) :=
  mapM process_target targets.

(** [await page.close(); await context.close(); await browser.close();] *)
Definition close_session : M unit :=
  emit PageClose >> emit ContextClose >> emit BrowserClose.

(** "Commit baselines if we seeded any, or if we updated baselines due
    to changes." *)
Definition commit_step : M unit :=
  let* s := get in
  if (0 <? seededBaselines s)%nat || (0 <? length (changes s))%nat then
    let msg :=
      if (0 <? seededBaselines s)%nat && (length (changes s) =? 0)%nat
      then "Seed baselines (" +:+ pretty (seededBaselines s) +:+ ")"
      else "Update baselines (" +:+ pretty (length (changes s)) +:+ " change(s))" in
    gitCommitIfNeeded msg >> ret tt
  else ret tt.

(** "Attach a few PNGs for quick preview (within size limit)": the
    loop over [diffFilesAll.slice(0, maxPngs)], with its [break]. *)
Fixpoint attach_pngs (fs : list string) (maxBytes : Z)
    (attachments : list attachment) (attachmentBytes : Z)
    : M (list attachment * Z) :=
  match fs with
  | [] => ret (attachments, attachmentBytes)
  | f :: rest =>
      let p : path := (DIFF_DIR, f) in
      let* size := stat_size p in
      if attachmentBytes + size >? maxBytes then ret (attachments, attachmentBytes)
      else attach_pngs rest maxBytes
             (attachments ++ [mkAttachment f p]) (attachmentBytes + size)
  end.

Definition maxPngs : Z :=
  default 6 (attachMaxPngs (default (mkEmailConfig None None) (email cfg))).

Definition maxBytes : Z :=
  default 20000000 (maxAttachmentBytes (default (mkEmailConfig None None) (email cfg))).

(** [diffFilesAll] *)
Definition diffFilesAll (s : state) : list string :=
  List.filter (fun f => endsWith f ".diff.png") (readdir (diff_files s)).

(** The attachments of the e-mail and their total size. *)
Definition build_attachments : M (list attachment * Z) :=
  let* s := get in
  let fs := diffFilesAll s in
  match fs with
  | [] => ret ([], 0)
  | _ :: _ =>
      createZip DIFF_DIR zipPath >>
      let* zipSize := stat_size zipPath in
      attach_pngs (slice0 fs maxPngs) maxBytes
        [mkAttachment "diffs.zip" zipPath] (0 + zipSize)
  end.

Definition change_lines (c : change) : list string :=
  match c with
  | CaptureFailure u note => ["- " +:+ u; "  " +:+ note]
  | VisualChange u r d t =>
      ["- " +:+ u;
       "  Diff ratio: " +:+ toFixed (mul r (of_Z 100)) 3 +:+ "% ("
         +:+ pretty d +:+ "/" +:+ pretty t +:+ ")"]
  end.

Definition body_lines (cs : list change) (attachments : list attachment)
    (attachmentBytes : Z) : list string :=
  ["Visual change detected (" +:+ pretty (length cs) +:+ " URL(s))."; ""]
  ++ concat (map change_lines cs)
  ++ [""]
  ++ [match attachments with
      | _ :: _ =>
          "Attachments: " +:+ String.concat ", " (map att_name attachments)
            +:+ " (total " +:+ bytes attachmentBytes +:+ ")"
      | [] => "No diff images were generated (capture failures only)."
      end].

(** "Email: one email per run"; everything after [if (!changes.length) return;]. *)
Definition notify_step : M unit :=
  let* (attachments, attachmentBytes) := build_attachments in
  let* s := get in
  sendMailgunEmail
    ("Milltech visual change detected (" +:+ pretty (length (changes s)) +:+ ")")
    (String.concat newline (body_lines (changes s) attachments attachmentBytes))
    attachments.

Definition main (targets : list target) : M unit :=
  emit BrowserLaunch >> emit NewContext >> emit NewPage >>
  (* const changes = []; let seededBaselines = 0; *)
  modify (fun s => mkState (baselines s) (run_files s) (diff_files s) (tmp_files s)
                     [] 0 (log s)) >>
  process_targets targets >>
  close_session >>
  commit_step >>
  let* s := get in
  if (length (changes s) =? 0)%nat then ret tt
  else notify_step.

End Run.

(** ** The run in stages

    The states and values that [main] passes through, named so that
    the statements about a run can refer to them. *)

(** After the browser session is opened and the two locals of [main]
    are initialised. *)
Definition session_opened (s : state) : state :=
  mkState (baselines s) (run_files s) (diff_files s) (tmp_files s) [] 0
    (log s ++ [BrowserLaunch; NewContext; NewPage]).

(** After page, context and browser are closed. *)
Definition session_closed (s : state) : state :=
  mkState (baselines s) (run_files s) (diff_files s) (tmp_files s)
    (changes s) (seededBaselines s)
    (log s ++ [PageClose; ContextClose; BrowserClose]).

(** The message [commit_step] passes to [gitCommitIfNeeded], if it
    calls it. *)
Definition commit_message (s : state) : option string :=
  if (0 <? seededBaselines s)%nat || (0 <? length (changes s))%nat then
    Some (if (0 <? seededBaselines s)%nat && (length (changes s) =? 0)%nat
          then "Seed baselines (" +:+ pretty (seededBaselines s) +:+ ")"
          else "Update baselines (" +:+ pretty (length (changes s)) +:+ " change(s))")
  else None.

(** The git commands [gitCommitIfNeeded] runs when git works: the
    status, and the commit when the status reports something. *)
Definition git_events (E : environment) (message : string) : list event :=
  Git GitStatus ::
  match git E GitStatus with
  | Some status =>
      if blank status then [] else [Git GitAdd; Git (GitCommit message); Git GitPush]
  | None => []
  end.

Definition commit_events (E : environment) (s : state) : list event :=
  match commit_message s with
  | Some msg => git_events E msg
  | None => []
  end.

(** The state after the commit step, when git works. *)
Definition committed (E : environment) (s : state) : state :=
  mkState (baselines s) (run_files s) (diff_files s) (tmp_files s)
    (changes s) (seededBaselines s) (log s ++ commit_events E s).

(** Every git command succeeds. *)
Definition git_works (E : environment) : Prop := forall c, is_Some (git E c).

(** A variable of [process.env] that is set and not empty. *)
Definition env_value (E : environment) (name : string) : option string :=
  match env E !! name with
  | Some v => if String.eqb v "" then None else Some v
  | None => None
  end.

(** The three variables that [sendMailgunEmail] requires. *)
Definition mail_configured (E : environment) : Prop :=
  is_Some (env_value E "MAILGUN_API_KEY") /\
  is_Some (env_value E "MAILGUN_DOMAIN") /\
  is_Some (env_value E "ALERT_EMAIL_TO").

(** Nothing after the loop fails: git and zip work, and the mail
    settings are in place. *)
Definition collaborators_respond (E : environment) : Prop :=
  git_works E /\ zip_ok E = true /\ mail_configured E.

Definition file_size (d : gmap string buffer) (f : string) : Z :=
  Z.of_nat (length (default [] (d !! f))).

Definition total_size (d : gmap string buffer) (fs : list string) : Z :=
  foldr (fun f acc => file_size d f + acc) 0 fs.

(** The names that the loop of [attach_pngs] attaches, as a function of
    the sizes: it stops at the first file that does not fit. *)
Fixpoint select_pngs (d : gmap string buffer) (fs : list string)
    (maxBytes attachmentBytes : Z) : list string :=
  match fs with
  | [] => []
  | f :: rest =>
      if attachmentBytes + file_size d f >? maxBytes then []
      else f :: select_pngs d rest maxBytes (attachmentBytes + file_size d f)
  end.

Definition png_attachment (f : string) : attachment := mkAttachment f (DIFF_DIR, f).
Definition zip_attachment : attachment := mkAttachment "diffs.zip" zipPath.

Definition attachment_content (s : state) (a : attachment) : buffer :=
  default [] (files (att_path a).1 s !! (att_path a).2).

(** The form [sendMailgunEmail] posts in state [s]. *)
Definition posted_form (E : environment) (subject text : string)
    (attachments : list attachment) (s : state) : mailgun_form :=
  let domain := default ""%string (env_value E "MAILGUN_DOMAIN") in
  {| form_endpoint :=
       string_of_list_ascii
         (replace_trailing_slashes []
            (list_ascii_of_string
               (default "https://api.mailgun.net"%string (env_value E "MAILGUN_BASE_URL"))))
       +:+ "/v3/" +:+ domain +:+ "/messages";
     form_api_key := default ""%string (env_value E "MAILGUN_API_KEY");
     form_from := default ("Milltech Monitor <postmaster@" +:+ domain +:+ ">")
                    (env_value E "MAIL_FROM");
     form_to := default ""%string (env_value E "ALERT_EMAIL_TO");
     form_subject := subject;
     form_text := text;
     form_attachments := map (fun a => (att_name a, attachment_content s a)) attachments |}.

(** The archive [createZip] writes in state [s], and the state after. *)
Definition archive `{Platform} (s : state) : buffer :=
  zip_r (tmp_files s !! "diffs.zip"%string) (diff_files s).

Definition zipped `{Platform} (s : state) : state :=
  set_files TMP_DIR (<["diffs.zip"%string := archive s]> (tmp_files s)) s.

(** The individual diff images attached in state [s]. *)
Definition selected_pngs `{Platform} (cfg : config) (s : state) : list string :=
  select_pngs (diff_files s) (slice0 (diffFilesAll s) (maxPngs cfg)) (maxBytes cfg)
    (0 + Z.of_nat (length (archive s))).

(** The attachments of the e-mail built in state [s], their total
    size as the script adds it up, and the state after building them. *)
Definition attachments_of `{Platform} (cfg : config) (s : state) : list attachment :=
  match diffFilesAll s with
  | [] => []
  | _ :: _ => zip_attachment :: map png_attachment (selected_pngs cfg s)
  end.

Definition attachment_bytes `{Platform} (cfg : config) (s : state) : Z :=
  match diffFilesAll s with
  | [] => 0
  | _ :: _ => 0 + Z.of_nat (length (archive s))
              + total_size (diff_files s) (selected_pngs cfg s)
  end.

Definition after_zip `{Platform} (s : state) : state :=
  match diffFilesAll s with
  | [] => s
  | _ :: _ => zipped s
  end.

(** The e-mail of a run whose report is [changes s]. *)
Definition notification `{Platform} (cfg : config) (E : environment) (s : state)
    : mailgun_form :=
  posted_form E
    ("Milltech visual change detected (" +:+ pretty (length (changes s)) +:+ ")")
    (String.concat newline
       (body_lines (changes s) (attachments_of cfg s) (attachment_bytes cfg s)))
    (attachments_of cfg s) (after_zip s).

Definition is_post (e : event) : bool :=
  match e with MailgunPost _ => true | _ => false end.

(** How many notifications a log records. *)
Definition notifications (l : list event) : nat := length (List.filter is_post l).

(** A computation that only appends to the log, at most [n]
    notifications among what it appends. *)
Definition appends {A : Type} (n : nat) (m : M A) : Prop :=
  forall s, exists rest, log (m s).2 = log s ++ rest /\ (notifications rest <= n)%nat.

(** The bytes attached to the notifications of a log. *)
Definition attached_bytes (l : list event) : Z :=
  foldr (fun e acc =>
           match e with
           | MailgunPost form =>
               foldr (fun a n => Z.of_nat (length a.2) + n) 0 (form_attachments form) + acc
           | _ => acc
           end) 0 l.

(** The names of the attachments of the notifications of a log. *)
Definition attachment_names (l : list event) : list string :=
  concat (map (fun e => match e with
                        | MailgunPost form => map fst (form_attachments form)
                        | _ => []
                        end) l).

(** The events of a run that meets no fatal error, after those already
    in the log: the session, the git commands if there is something to
    commit, the e-mail if the report is not empty.  [s2] is the state
    the loop over the targets ends in. *)
Definition run_events `{Platform} (cfg : config) (E : environment) (s2 : state)
    : list event :=
  [BrowserLaunch; NewContext; NewPage; PageClose; ContextClose; BrowserClose]
  ++ commit_events E s2
  ++ match changes s2 with
     | [] => []
     | _ :: _ => [MailgunPost (notification cfg E (committed E (session_closed s2)))]
     end.

(** ** The ways through the loop body

    [target_step cfg t s r s'] lists the six paths through the body of
    the loop, with the result [r] and the state [s'] each one ends in;
    [process_target] follows exactly one of them
    ([process_target_step] below). *)
Inductive target_step `{Platform} (cfg : config) (t : target) (s : state)
    : result outcome -> state -> Prop :=
  | step_bad_url (e : error) :
      safeSlug (url t) = Threw e ->
      target_step cfg t s (Threw e) s
  | step_failed (slug : string) (e : thrown) :
      safeSlug (url t) = Ok slug ->
      captured t = inl e ->
      target_step cfg t s (Ok Failed)
        (add_change (CaptureFailure (url t) ("CAPTURE FAILED: " +:+ describe e)) s)
  | step_seeded (slug : string) (cur : buffer) :
      safeSlug (url t) = Ok slug ->
      captured t = inr cur ->
      baselines s !! (slug +:+ ".png") = None ->
      target_step cfg t s (Ok Seeded)
        (add_seed (written (baseline_path slug) cur (now_baseline t)
                     (captured_state slug t cur s)))
  | step_compare_threw (slug : string) (cur base : buffer) (e : error) :
      safeSlug (url t) = Ok slug ->
      captured t = inr cur ->
      baselines s !! (slug +:+ ".png") = Some base ->
      diffPngs base cur (pixelmatchThreshold cfg) = Threw e ->
      target_step cfg t s (Threw e) (captured_state slug t cur s)
  | step_unchanged (slug : string) (cur base : buffer) (d : DiffResult) :
      safeSlug (url t) = Ok slug ->
      captured t = inr cur ->
      baselines s !! (slug +:+ ".png") = Some base ->
      diffPngs base cur (pixelmatchThreshold cfg) = Ok d ->
      ge (ratio d) (changeThresholdRatio cfg) = false ->
      target_step cfg t s (Ok Unchanged) (captured_state slug t cur s)
  | step_changed (slug : string) (cur base : buffer) (d : DiffResult) :
      safeSlug (url t) = Ok slug ->
      captured t = inr cur ->
      baselines s !! (slug +:+ ".png") = Some base ->
      diffPngs base cur (pixelmatchThreshold cfg) = Ok d ->
      ge (ratio d) (changeThresholdRatio cfg) = true ->
      target_step cfg t s (Ok Changed)
        (written (baseline_path slug) cur (now_baseline t)
           (add_change (VisualChange (url t) (ratio d) (diffPixels d) (totalPixels d))
              (written (diff_path slug) (diffBuf d) (now_diff t)
                 (captured_state slug t cur s)))).

(** * Shapes of names *)

Definition is_digit (c : Ascii.ascii) : bool :=
  let n := Ascii.nat_of_ascii c in ((48 <=? n) && (n <=? 57))%nat.

(** The characters of the readable part of a slug: [a-z], [0-9] and
    the dash. *)
Definition is_slug_char (c : Ascii.ascii) : bool :=
  let n := Ascii.nat_of_ascii c in
  ((48 <=? n) && (n <=? 57) || (97 <=? n) && (n <=? 122) || (n =? 45))%nat.

Definition underscore : Ascii.ascii := Ascii.ascii_of_nat 95.

(** No dash follows a dash ([after_dash]: the character before the
    list is one). *)
Fixpoint single_dashes (after_dash : bool) (l : list Ascii.ascii) : bool :=
  match l with
  | [] => true
  | x :: rest =>
      if Ascii.eqb x dash then negb after_dash && single_dashes true rest
      else single_dashes false rest
  end.

(** The readable part of the slug of a URL: [normalised] in [safeSlug]. *)
Definition normalised (hostname pathname : string) : list Ascii.ascii :=
  map to_lower
    (trim_dash
       (squeeze_dashes false
          (dash_runs false
             (replace_trailing_slashes [slash]
                (list_ascii_of_string (hostname +:+ pathname)))))).

(** A non-empty string of decimal digits. *)
Definition digits (s : string) : Prop :=
  s <> ""%string /\ Forall (fun c => is_digit c = true) (list_ascii_of_string s).

(** The name of the temporary file of [writeFileAtomic]. *)
Definition tmp_name (name : string) (now : N) : string :=
  name +:+ ".tmp-" +:+ pretty now.

#[global] Instance directory_eq_dec : EqDecision directory.
Proof. solve_decision. Defined.

(** A number that is zero or above, infinity included. *)
Definition nonneg (x : number) : Prop :=
  match x with
  | S754_zero false | S754_finite false _ _ | S754_infinity false => True
  | _ => False
  end.

(** * Outcomes and the report *)

(** The outcomes that add an entry to the report. *)
Definition reported (o : outcome) : bool :=
  match o with Failed | Changed => true | Seeded | Unchanged => false end.

Definition is_seeded (o : outcome) : bool :=
  match o with Seeded => true | _ => false end.

Definition is_failed (o : outcome) : bool :=
  match o with Failed => true | _ => false end.

(** The URLs of the targets with a reported outcome, in the order of
    the targets. *)
Definition reported_urls (targets : list target) (outs : list outcome) : list string :=
  map (fun p => url p.1) (List.filter (fun p => reported p.2) (combine targets outs)).

(** The canvas [diffPngs] needs for two images can be allocated. *)
Definition canvas_fits (img1 img2 : PNG) : Prop :=
  Z.of_nat (4 * (Nat.max (width img1) (width img2)
                 * Nat.max (height img1) (height img2))) <= MAX_LENGTH.

(** The canvas is below [2^31] bytes: every byte offset of
    [PNG.bitblt] is a 32-bit integer. *)
Definition canvas_small (img1 img2 : PNG) : Prop :=
  Z.of_nat (4 * (Nat.max (width img1) (width img2)
                 * Nat.max (height img1) (height img2))) < 2 ^ 31.

(** What the loop over the targets produces: the three directories of
    images, the report and the seed counter. *)
Definition loop_results (s : state)
    : gmap string buffer * gmap string buffer * gmap string buffer * list change * nat :=
  (baselines s, run_files s, diff_files s, changes s, seededBaselines s).

(** The git commands of [gitCommitIfNeeded], in the order it runs them. *)
Definition git_sequence (message : string) : list git_command :=
  [GitStatus; GitAdd; GitCommit message; GitPush].

(** The variables [sendMailgunEmail] requires, in the order it reads
    them. *)
Definition required_settings : list string :=
  ["MAILGUN_API_KEY"; "MAILGUN_DOMAIN"; "ALERT_EMAIL_TO"]%string.

(** * The capture of a page *)

(** The calls [captureFullPage] makes on the page. *)
Inductive page_call : Type :=
  | SetViewportSize (width height : nat)
  | Route                       (* [page.route], the handler that sets the no-cache headers *)
  | Goto (url : string)
  | AddStyleTag                 (* [injectStabilisation] *)
  | Count (selector : string)   (* [page.locator(sel).first().count()] *)
  | Click (selector : string)
  | WaitForTimeout (ms : nat)
  | WaitForLoadState            (* [page.waitForLoadState] for the network to be idle *)
  | Screenshot.

(** What the page answers during one capture.  A call the script
    awaits returns, or rejects with an error; [count] returns a
    number or rejects.  Each call is made at most once in a capture,
    so an answer per call is all a capture can observe.  The outcomes
    of the click and of the wait for the network are not part of the
    page: the script discards them. *)
Record page : Type := mkPage {
  setViewportSize_throws : option thrown;
  route_throws : option thrown;
  goto_throws : string -> option thrown;
  addStyleTag_throws : option thrown;
  count : string -> option nat;
  (* [page.waitForTimeout(500)] after the click on a selector *)
  wait_after_click_ok : string -> bool;
  (* [page.waitForTimeout(1500)] *)
  settle_throws : option thrown;
  screenshot : thrown + buffer
}.

(** A capture in progress: the calls made so far and how it ended, with
    the error thrown or with the screenshot. *)
Definition capture : Type := list page_call * (thrown + buffer).

(** An awaited call, followed by the rest when it returns. *)
Definition await (c : page_call) (answer : option thrown) (rest : capture) : capture :=
  match answer with
  | Some e => ([c], inl e)
  | None => (c :: rest.1, rest.2)
  end.

(** Calls that cannot fail the capture, followed by the rest. *)
Definition after (calls : list page_call) (rest : capture) : capture :=
  (calls ++ rest.1, rest.2).

Definition cookie_selectors : list string :=
  [".cky-btn-accept";
   ".cky-btn-accept-all";
   "button.cky-btn-accept";
   "button:has-text('Accept')";
   "button:has-text('Accept All')";
   "button:has-text('I Accept')"]%string.

(** A selector that matches an element: [(await el.count()) > 0]. *)
Definition present (P : page) (selector : string) : bool :=
  match count P selector with
  | Some n => (0 <? n)%nat
  | None => false
  end.

(** The loop of [acceptCookieYesIfPresent] over the selectors left:
    the calls it makes.  An error of [count] or of the wait after the
    click is caught and the loop goes on; the click's own error is
    discarded. *)
Fixpoint accept_from (P : page) (selectors : list string) : list page_call :=
  match selectors with
  | [] => []
  | sel :: rest =>
      Count sel ::
      match count P sel with
      | Some n =>
          if (0 <? n)%nat then
            Click sel :: WaitForTimeout 500 ::
            (if wait_after_click_ok P sel then [] else accept_from P rest)
          else accept_from P rest
      | None => accept_from P rest
      end
  end.

Definition acceptCookieYesIfPresent (P : page) : list page_call :=
  accept_from P cookie_selectors.

Definition captureFullPage (P : page) (url : string) (viewport : nat * nat) : capture :=
  await (SetViewportSize viewport.1 viewport.2) (setViewportSize_throws P)
    (await Route (route_throws P)
       (await (Goto url) (goto_throws P url)
          (await AddStyleTag (addStyleTag_throws P)
             (after (acceptCookieYesIfPresent P)
                (after [WaitForLoadState]
                   (await (WaitForTimeout 1500) (settle_throws P)
                      ([Screenshot], screenshot P))))))).

(** The first error among the calls whose error ends the capture. *)
Definition first_failure (P : page) (url : string) : option thrown :=
  match setViewportSize_throws P with
  | Some e => Some e
  | None =>
      match route_throws P with
      | Some e => Some e
      | None =>
          match goto_throws P url with
          | Some e => Some e
          | None =>
              match addStyleTag_throws P with
              | Some e => Some e
              | None => settle_throws P
              end
          end
      end
  end.

(** The error a capture ends with, if it does: that of the first
    failing call, the screenshot being the last. *)
Definition capture_error (P : page) (url : string) : option thrown :=
  match first_failure P url with
  | Some e => Some e
  | None =>
      match screenshot P with
      | inl e => Some e
      | inr _ => None
      end
  end.

(** * A small platform to run the model on

    Enough of a platform to evaluate the definitions on concrete runs: a
    two-byte image header instead of the PNG format, a differ that
    counts every unequal pixel, an archiver that stores the files and
    appends a 22-byte end record. *)
Module Stub.

Definition read (buf : buffer) : option PNG :=
  match buf with
  | bw :: bh :: d =>
      let w := Byte.to_nat bw in
      let h := Byte.to_nat bh in
      if ((0 <? w) && (0 <? h) && (length d =? 4 * (w * h)))%nat
      then Some {| width := w; height := h; data := d |}
      else None
  | _ => None
  end.

Definition write (img : PNG) : buffer :=
  match Byte.of_nat (width img), Byte.of_nat (height img) with
  | Some bw, Some bh => bw :: bh :: data img
  | _, _ => []
  end.

Definition count_all (a b out : buffer) (w h : nat) (thr : number) : buffer * nat :=
  (out, differing_pixels a b (w * h)).

Definition listing (d : gmap string buffer) : list string := (map_to_list d).*1.

Definition store (old : option buffer) (d : gmap string buffer) : buffer :=
  concat ((map_to_list d).*2) ++ replicate 22 Byte.x00.

#[export] Instance platform : Platform := {|
  URL_parse := fun u => Some (u, "/"%string);
  sha1_hex := fun _ => "da39a3ee5e6b4b0d3255bfef95601890afd80709"%string;
  PNG_sync_read := read;
  PNG_sync_write := write;
  pixelmatch := count_all;
  readdir := listing;
  zip_r := store;
  toFixed := fun _ _ => ""%string
|}.

(** One opaque red pixel, one transparent pixel. *)
Definition red : buffer := [Byte.xff; Byte.x00; Byte.x00; Byte.xff].
Definition clear : buffer := [Byte.x00; Byte.x00; Byte.x00; Byte.x00].

(** Encoded images of one column: a red pixel; a red pixel above a
    transparent one; a red pixel above a red one. *)
Definition png_red : buffer := Byte.x01 :: Byte.x01 :: red.
Definition png_red_clear : buffer := Byte.x01 :: Byte.x02 :: red ++ clear.
Definition png_red_red : buffer := Byte.x01 :: Byte.x02 :: red ++ red.

Definition empty_state : state :=
  {| baselines := ∅; run_files := ∅; diff_files := ∅; tmp_files := ∅;
     changes := []; seededBaselines := 0; log := [] |}.

Definition mail_env : environment :=
  {| env := <["MAILGUN_API_KEY"%string := "key"%string]>
              (<["MAILGUN_DOMAIN"%string := "example.org"%string]>
                 (<["ALERT_EMAIL_TO"%string := "ops@example.org"%string]> ∅));
     git := fun c => match c with
                     | GitStatus => Some " M baselines/a.png"%string
                     | _ => Some ""%string
                     end;
     zip_ok := true;
     res_ok := true |}.

Definition cfg (threshold : number) : config :=
  {| pixelmatchThreshold := of_Z 0;
     changeThresholdRatio := threshold;
     email := None |}.

(** A target at [a.example], whose slug on this platform is [slug]. *)
Definition slug : string := "a-example__da39a3ee5e".

(** An [Error] with a message. *)
Definition failure (message : string) : thrown :=
  {| error_message := Some message; error_string := "Error: " +:+ message |}.

Definition target_of (capture : thrown + buffer) : target :=
  {| url := "a.example"; captured := capture;
     now_current := 1; now_baseline := 2; now_diff := 3 |}.

Definition with_baseline (buf : buffer) : state :=
  {| baselines := {[ (slug +:+ ".png")%string := buf ]};
     run_files := ∅; diff_files := ∅; tmp_files := ∅;
     changes := []; seededBaselines := 0; log := [] |}.

Definition with_diff (name : string) (buf : buffer) : state :=
  {| baselines := ∅; run_files := ∅; diff_files := {[ name := buf ]}; tmp_files := ∅;
     changes := []; seededBaselines := 0; log := [] |}.

(** Two targets, [b.example] before [a.example], each with a baseline. *)
Definition target_at (u : string) (capture : thrown + buffer) : target :=
  {| url := u; captured := capture;
     now_current := 1; now_baseline := 2; now_diff := 3 |}.

Definition two_baselines (buf : buffer) : state :=
  {| baselines := <[ "b-example__da39a3ee5e.png"%string := buf ]>
                    {[ "a-example__da39a3ee5e.png"%string := buf ]};
     run_files := ∅; diff_files := ∅; tmp_files := ∅;
     changes := []; seededBaselines := 0; log := [] |}.

Definition half : number := div (of_Z 1) (of_Z 2).

(** The red pixel against the red pixel above a red one: the added
    pixel differs, one of two. *)
Definition diff_half : DiffResult :=
  {| diffBuf := Byte.x01 :: Byte.x02 :: clear ++ clear;
     diffPixels := 1; totalPixels := 2; ratio := half |}.

(** A configuration whose attachments may hold ten bytes. *)
Definition cfg_ten_bytes : config :=
  {| pixelmatchThreshold := of_Z 0;
     changeThresholdRatio := half;
     email := Some {| attachMaxPngs := None; maxAttachmentBytes := Some 10 |} |}.

End Stub.

(** * More concrete runs on the small platform *)
Module Cases.
Import Stub.

(** A stored baseline that is not an image. *)
Definition not_an_image : buffer := [Byte.x00].

(** [a.example] written with a capital: another URL, the same slug on
    the small platform, whose hash does not depend on the URL. *)
Definition capital_url : string := "A.example".

(** The other baseline of [two_baselines]. *)
Definition other_baseline : string := "b-example__da39a3ee5e.png".

(** Mail settings in order, zip failing. *)
Definition no_zip_env : environment :=
  {| env := env mail_env; git := git mail_env; zip_ok := false; res_ok := true |}.

(** Mail settings in order, Mailgun answering with a failure. *)
Definition rejecting_env : environment :=
  {| env := env mail_env; git := git mail_env; zip_ok := true; res_ok := false |}.

(** Mail settings in order, git not answering. *)
Definition no_git_env : environment :=
  {| env := env mail_env; git := fun _ => None; zip_ok := true; res_ok := true |}.

(** No [MAILGUN_DOMAIN]. *)
Definition no_domain_env : environment :=
  {| env := <["MAILGUN_API_KEY"%string := "key"%string]>
              (<["ALERT_EMAIL_TO"%string := "ops@example.org"%string]> ∅);
     git := git mail_env; zip_ok := true; res_ok := true |}.

(** A base URL that ends in two slashes. *)
Definition eu_env : environment :=
  {| env := <["MAILGUN_BASE_URL"%string := "https://api.eu.mailgun.net//"%string]>
              (env mail_env);
     git := git mail_env; zip_ok := true; res_ok := true |}.

(** A state in which two baselines were seeded. *)
Definition two_seeded : state :=
  {| baselines := ∅; run_files := ∅; diff_files := ∅; tmp_files := ∅;
     changes := []; seededBaselines := 2; log := [] |}.

(** A report of one capture failure, no diff image. *)
Definition one_failure : state :=
  {| baselines := ∅; run_files := ∅; diff_files := ∅; tmp_files := ∅;
     changes := [CaptureFailure "a.example" "CAPTURE FAILED: timeout"];
     seededBaselines := 0; log := [] |}.

(** A page that shows the second kind of consent button and lets
    itself be captured. *)
Definition banner_page : page :=
  {| setViewportSize_throws := None;
     route_throws := None;
     goto_throws := fun _ => None;
     addStyleTag_throws := None;
     count := fun sel => if String.eqb sel ".cky-btn-accept-all" then Some 1%nat
                         else Some 0%nat;
     wait_after_click_ok := fun _ => true;
     settle_throws := None;
     screenshot := inr png_red |}.

(** A page whose navigation times out. *)
Definition unreachable_page : page :=
  {| setViewportSize_throws := None;
     route_throws := None;
     goto_throws := fun _ =>
       Some {| error_message := Some "page.goto: Timeout 60000ms exceeded."%string;
               error_string := "TimeoutError: page.goto: Timeout 60000ms exceeded."%string |};
     addStyleTag_throws := None;
     count := fun _ => Some 0%nat;
     wait_after_click_ok := fun _ => true;
     settle_throws := None;
     screenshot := inr png_red |}.

(** A page whose screenshot fails with an error that has no message. *)
Definition no_screenshot_page : page :=
  {| setViewportSize_throws := None;
     route_throws := None;
     goto_throws := fun _ => None;
     addStyleTag_throws := None;
     count := fun _ => Some 0%nat;
     wait_after_click_ok := fun _ => true;
     settle_throws := None;
     screenshot := inl {| error_message := None; error_string := "Error"%string |} |}.

(** Two baselines, the second of which is not an image. *)
Definition corrupt_second : state :=
  {| baselines := <[ other_baseline := not_an_image ]>
                    {[ "a-example__da39a3ee5e.png"%string := png_red ]};
     run_files := ∅; diff_files := ∅; tmp_files := ∅;
     changes := []; seededBaselines := 0; log := [] |}.

Definition viewport : nat * nat := (1440%nat, 900%nat).

End Cases.

(** * Properties of JavaScript numbers *)

Module JsNumberFacts.
Import JsNumber.

(** ** Comparison *)

Lemma compare_cont_opp (c : comparison) (p q : positive) :
  Pos.compare_cont (CompOpp c) q p = CompOpp (Pos.compare_cont c p q).
Proof. symmetry. apply Pos.compare_cont_antisym. Qed.

Lemma SFcompare_antisym (x y : number) (c : comparison) :
  SFcompare x y = Some c -> SFcompare y x = Some (CompOpp c).
Proof.
  destruct x as [sx|sx| |sx mx ex], y as [sy|sy| |sy my ey]; simpl;
    try discriminate;
    try (destruct sx); try (destruct sy);
    intros [= <-]; try reflexivity; f_equal.
  - rewrite (Z.compare_antisym ex ey).
    destruct (ex ?= ey); simpl; try reflexivity.
    rewrite <- compare_cont_opp. simpl. now rewrite CompOpp_involutive.
  - rewrite (Z.compare_antisym ex ey).
    destruct (ex ?= ey); simpl; try reflexivity.
    now rewrite <- compare_cont_opp.
Qed.

Lemma SFcompare_defined (x y : number) :
  is_nan x = false -> is_nan y = false -> exists c, SFcompare x y = Some c.
Proof.
  destruct x, y; simpl; try discriminate; intros _ _; eauto.
Qed.

(** On numbers, [x >= y] fails exactly when [x < y] holds. *)
Lemma ge_false_iff_lt (x y : number) :
  is_nan x = false -> is_nan y = false ->
  ge x y = false <-> lt x y = true.
Proof.
  intros Hx Hy. unfold ge, lt, SFleb, SFltb.
  destruct (SFcompare_defined x y Hx Hy) as [c Hc].
  rewrite Hc, (SFcompare_antisym _ _ _ Hc).
  destruct c; simpl; split; congruence.
Qed.

Lemma eqb_ge (x y : number) : eqb x y = true -> ge x y = true.
Proof.
  unfold eqb, ge, SFeqb, SFleb.
  destruct (SFcompare x y) as [c|] eqn:Hc; [|discriminate].
  rewrite (SFcompare_antisym _ _ _ Hc). now destruct c.
Qed.

(** A threshold above zero is not reached by a ratio of zero. *)
Lemma zero_ge_pos (t : number) : lt zero t = true -> ge zero t = false.
Proof.
  unfold lt, ge, zero, SFltb, SFleb.
  destruct t as [s|s| |s m e]; simpl; try discriminate; now destruct s.
Qed.

(** ** Rounding never produces NaN from a non-negative mantissa *)

Lemma shr_1_nonneg (r : shr_record) : 0 <= shr_m r -> 0 <= shr_m (shr_1 r).
Proof.
  destruct r as [m b s]; simpl.
  destruct m as [|[p|p|]|p]; simpl; lia.
Qed.

Lemma iter_pos_shr_nonneg (n : positive) (r : shr_record) :
  0 <= shr_m r -> 0 <= shr_m (SpecFloat.iter_pos shr_1 n r).
Proof.
  revert r. induction n as [n IH|n IH|]; intros r Hr; simpl.
  - apply IH, IH, shr_1_nonneg, Hr.
  - apply IH, IH, Hr.
  - now apply shr_1_nonneg.
Qed.

Lemma shr_record_of_loc_m (m : Z) (l : location) : shr_m (shr_record_of_loc m l) = m.
Proof. destruct l as [|[]]; reflexivity. Qed.

Lemma shr_fexp_nonneg (m e : Z) (l : location) :
  0 <= m -> 0 <= shr_m (fst (shr_fexp prec emax m e l)).
Proof.
  intros Hm. unfold shr_fexp, shr.
  destruct (fexp prec emax (Zdigits2 m + e) - e) as [|n|n]; simpl;
    try (rewrite shr_record_of_loc_m; exact Hm).
  apply iter_pos_shr_nonneg. now rewrite shr_record_of_loc_m.
Qed.

Lemma round_nearest_even_nonneg (m : Z) (l : location) :
  0 <= m -> 0 <= round_nearest_even m l.
Proof.
  intros Hm. destruct l as [|[]]; simpl; try lia.
  destruct (Z.even m); lia.
Qed.

Lemma binary_round_aux_not_nan (s : bool) (m e : Z) (l : location) :
  0 <= m -> is_nan (binary_round_aux prec emax s m e l) = false.
Proof.
  intros Hm. unfold binary_round_aux.
  pose proof (shr_fexp_nonneg m e l Hm) as H1.
  destruct (shr_fexp prec emax m e l) as [r1 e1]. simpl in H1.
  pose proof (shr_fexp_nonneg _ e1 loc_Exact
                (round_nearest_even_nonneg _ (loc_of_shr_record r1) H1)) as H2.
  destruct (shr_fexp prec emax _ e1 loc_Exact) as [r2 e2]. simpl in H2.
  destruct (shr_m r2) as [|p|p]; [reflexivity| |lia].
  now destruct (e2 <=? emax - prec).
Qed.

Lemma SFdiv_core_nonneg (mx my : positive) (ex ey : Z) :
  0 <= fst (fst (SFdiv_core_binary prec emax (Zpos mx) ex (Zpos my) ey)).
Proof.
  unfold SFdiv_core_binary.
  set (s := _ - _ - Z.min _ _).
  set (m' := match s with Z0 => _ | Zpos _ => _ | Zneg _ => _ end).
  assert (Hm : 0 <= m').
  { subst m'. destruct s; try lia. apply Z.shiftl_nonneg. lia. }
  pose proof (Z.div_eucl_eq m' (Zpos my) ltac:(lia)) as Heq.
  pose proof (Z.mod_pos_bound m' (Zpos my) ltac:(lia)) as Hr.
  unfold Z.modulo in Hr.
  destruct (Z.div_eucl m' (Zpos my)) as [q r]. simpl. nia.
Qed.

(** A quotient of a non-negative finite number by a positive finite
    one is a number. *)
Lemma div_not_nan (x y : number) :
  nonneg_finite x -> pos_finite y -> is_nan (div x y) = false.
Proof.
  destruct x as [[]|[]| |[] mx ex]; simpl; try contradiction;
    destruct y as [[]|[]| |[] my ey]; simpl; try contradiction; intros _ _;
    try reflexivity.
  pose proof (SFdiv_core_nonneg mx my ex ey) as Hq.
  destruct (SFdiv_core_binary _ _ _ _ _ _) as [[q e] l]. simpl in Hq.
  now apply binary_round_aux_not_nan.
Qed.

Lemma div_zero_pos (y : number) : pos_finite y -> div zero y = zero.
Proof. destruct y as [[]|[]| |[] my ey]; simpl; try contradiction; reflexivity. Qed.

(** ** Integers below 2^53 are represented exactly *)

Lemma digits2_pos_size (p : positive) : digits2_pos p = Pos.size p.
Proof. induction p as [p IH|p IH|]; simpl; congruence. Qed.

Lemma digits2_pos_iter_xO (k p : positive) :
  digits2_pos (Pos.iter xO p k) = (digits2_pos p + k)%positive.
Proof.
  induction k as [|k IH] using Pos.peano_ind.
  - simpl. lia.
  - rewrite Pos.iter_succ. simpl. rewrite IH. lia.
Qed.

Lemma digits2_pos_bound (p : positive) :
  Zpos p < 2 ^ 53 -> Zpos (digits2_pos p) <= 53.
Proof.
  intros Hp. rewrite digits2_pos_size.
  pose proof (Pos.size_le p) as Hs.
  apply Pos2Z.pos_le_pos in Hs. rewrite Pos2Z.inj_pow in Hs.
  change (Zpos p~0) with (2 * Zpos p) in Hs.
  destruct (Z_le_gt_dec (Zpos (Pos.size p)) 53) as [|Hgt]; [assumption|exfalso].
  assert (2 ^ 54 <= 2 ^ Zpos (Pos.size p)) by (apply Z.pow_le_mono_r; lia).
  change (2 ^ 54) with (2 * 2 ^ 53) in *. lia.
Qed.

Lemma exact_mantissa_digits (p : positive) :
  Zpos (digits2_pos p) <= 53 -> Zpos (digits2_pos (exact_mantissa p)) = 53.
Proof.
  intros Hd. unfold exact_mantissa.
  destruct (Zpos (digits2_pos p) - 53) as [|k|k] eqn:Hk; try lia.
  rewrite digits2_pos_iter_xO. lia.
Qed.

Lemma of_Z_pos_exact (p : positive) :
  Zpos p < 2 ^ 53 ->
  of_Z (Zpos p) = S754_finite false (exact_mantissa p) (Zpos (digits2_pos p) - 53).
Proof.
  intros Hp. pose proof (digits2_pos_bound p Hp) as Hd.
  pose proof (exact_mantissa_digits p Hd) as Hm.
  assert (Hpos : 0 < Zpos (digits2_pos p)) by lia.
  unfold of_Z, binary_normalize, binary_round.
  assert (Hal : shl_align p 0 (fexp prec emax (Zpos (digits2_pos p) + 0))
                = (exact_mantissa p, Zpos (digits2_pos p) - 53)).
  { unfold shl_align, exact_mantissa, fexp, emin, prec, emax.
    replace (Z.max (Zpos (digits2_pos p) + 0 - 53) (3 - 1024 - 53))
      with (Zpos (digits2_pos p) - 53) by lia.
    rewrite Z.sub_0_r.
    destruct (Zpos (digits2_pos p) - 53) as [|k|k] eqn:Hk; try reflexivity; lia. }
  rewrite Hal. unfold binary_round_aux.
  assert (Hsh : shr_fexp prec emax (Zpos (exact_mantissa p))
                  (Zpos (digits2_pos p) - 53) loc_Exact
                = ({| shr_m := Zpos (exact_mantissa p); shr_r := false; shr_s := false |},
                   Zpos (digits2_pos p) - 53)).
  { unfold shr_fexp, fexp, emin, prec, emax. simpl Zdigits2. rewrite Hm.
    replace (Z.max (53 + (Zpos (digits2_pos p) - 53) - 53) (3 - 1024 - 53)
             - (Zpos (digits2_pos p) - 53)) with 0 by lia.
    reflexivity. }
  rewrite Hsh. simpl loc_of_shr_record. simpl round_nearest_even.
  rewrite Hsh. simpl shr_m.
  unfold emax, prec.
  destruct (Zpos (digits2_pos p) - 53 <=? 1024 - 53) eqn:Hle; [reflexivity|].
  apply Z.leb_gt in Hle. lia.
Qed.

Lemma of_Z_zero : of_Z 0 = zero.
Proof. reflexivity. Qed.

Lemma of_Z_pos_finite (z : Z) : 0 < z < 2 ^ 53 -> pos_finite (of_Z z).
Proof.
  intros [Hz Hlt]. destruct z as [|p|p]; try lia.
  rewrite (of_Z_pos_exact p Hlt). exact I.
Qed.

Lemma of_Z_nonneg_finite (z : Z) : 0 <= z < 2 ^ 53 -> nonneg_finite (of_Z z).
Proof.
  intros [Hz Hlt]. destruct z as [|p|p]; try lia; [exact I|].
  rewrite (of_Z_pos_exact p Hlt). exact I.
Qed.

(** The ratio of two pixel counts is a number. *)
Lemma ratio_not_nan (d t : Z) :
  0 <= d < 2 ^ 53 -> 0 < t < 2 ^ 53 -> is_nan (div (of_Z d) (of_Z t)) = false.
Proof.
  intros Hd Ht. apply div_not_nan; [now apply of_Z_nonneg_finite | now apply of_Z_pos_finite].
Qed.

Lemma ratio_zero (t : Z) : 0 < t < 2 ^ 53 -> div (of_Z 0) (of_Z t) = zero.
Proof. intros Ht. rewrite of_Z_zero. now apply div_zero_pos, of_Z_pos_finite. Qed.

End JsNumberFacts.

(** * Properties of the image operations *)

Module PngFacts.

Local Open Scope nat_scope.

Lemma copy_bytes_length (s t : buffer) (ts ss se : nat) :
  length (copy_bytes s t ts ss se) = length t.
Proof.
  unfold copy_bytes.
  rewrite !length_app, length_drop, !length_take, length_drop. lia.
Qed.

(** Inside both buffers, a copy of [n] bytes replaces exactly the
    bytes [ts .. ts + n - 1] of the target. *)
Lemma copy_bytes_lookup (s t : buffer) (ts ss n i : nat) :
  ss + n <= length s -> ts + n <= length t ->
  copy_bytes s t ts ss (ss + n) !! i
  = if decide (ts <= i < ts + n) then s !! (ss + (i - ts)) else t !! i.
Proof.
  intros Hs Ht. unfold copy_bytes.
  replace (ss + n - ss) with n by lia.
  set (chunk := take (length t - ts) (take n (drop ss s))).
  assert (Hc : length chunk = n).
  { subst chunk. rewrite !length_take, length_drop. lia. }
  destruct (decide (ts <= i < ts + n)) as [Hin|Hout].
  - rewrite lookup_app_r by (rewrite length_take; lia).
    rewrite length_take. replace (ts `min` length t) with ts by lia.
    rewrite lookup_app_l by lia.
    subst chunk. rewrite !lookup_take_lt by lia.
    now rewrite lookup_drop.
  - destruct (decide (i < ts)) as [Hlt|Hge].
    + rewrite lookup_app_l by (rewrite length_take; lia).
      now rewrite lookup_take_lt by lia.
    + rewrite lookup_app_r by (rewrite length_take; lia).
      rewrite length_take. replace (ts `min` length t) with ts by lia.
      rewrite lookup_app_r by lia.
      rewrite lookup_drop. f_equal. lia.
Qed.

(** Nothing is copied to a start at or beyond the end of the target,
    nor from an empty range. *)
Lemma copy_bytes_nothing (s t : buffer) (ts ss se : nat) :
  length t <= ts \/ se <= ss -> copy_bytes s t ts ss se = t.
Proof.
  intros Hno. unfold copy_bytes.
  set (chunk := take (length t - ts) (take (se - ss) (drop ss s))).
  assert (Hc : chunk = []).
  { subst chunk. destruct Hno as [Ht|Hs].
    - now replace (length t - ts) with 0 by lia.
    - replace (se - ss) with 0 by lia. rewrite take_0. apply take_nil. }
  rewrite Hc. cbn [app length]. rewrite Nat.add_0_r. apply take_drop.
Qed.

(** ** 32-bit offsets *)

Lemma to_int32_small (z : Z) : (- 2 ^ 31 <= z < 2 ^ 31)%Z -> to_int32 z = z.
Proof. intros Hz. unfold to_int32. rewrite Z.mod_small by lia. lia. Qed.

Lemma to_int32_le (z : Z) : (0 <= z)%Z -> (to_int32 z <= z)%Z.
Proof.
  intros Hz. unfold to_int32.
  pose proof (Z.mod_le (z + 2 ^ 31) (2 ^ 32) ltac:(lia) ltac:(lia)). lia.
Qed.

Lemma shl2_small (z : Z) : (0 <= z)%Z -> (z * 4 < 2 ^ 31)%Z -> shl2 z = (z * 4)%Z.
Proof. intros H0 H1. unfold shl2. apply to_int32_small. lia. Qed.

(** ** [Buffer.copy] and the row loop *)

Lemma buffer_copy_length (s t t' : buffer) (ts ss se : Z) :
  buffer_copy s t ts ss se = Ok t' -> length t' = length t.
Proof.
  unfold buffer_copy. destruct (_ || _ || _ || _); [discriminate|].
  destruct (_ || _); intros [= <-]; [reflexivity|apply copy_bytes_length].
Qed.

Lemma buffer_copy_Threw_inv (s t : buffer) (ts ss se : Z) (e : error) :
  buffer_copy s t ts ss se = Threw e -> e = OutOfRange.
Proof.
  unfold buffer_copy. destruct (_ || _ || _ || _); [congruence|].
  destruct (_ || _); discriminate.
Qed.

(** With offsets inside the source, the copy is made. *)
Lemma buffer_copy_in_range (s t : buffer) (ts ss se : nat) :
  ss <= length s ->
  buffer_copy s t (Z.of_nat ts) (Z.of_nat ss) (Z.of_nat se)
  = Ok (copy_bytes s t ts ss se).
Proof.
  intros Hs. unfold buffer_copy.
  replace (_ || _ || _ || _) with false.
  2:{ symmetry. rewrite !orb_false_iff. repeat split; apply Z.ltb_ge; lia. }
  rewrite !Nat2Z.id.
  destruct (_ || _) eqn:Hno; [|reflexivity].
  rewrite copy_bytes_nothing; [reflexivity|].
  apply orb_true_iff in Hno as [Hno|Hno]; apply Z.leb_le in Hno; lia.
Qed.

Lemma bitblt_rows_from_snoc (src : PNG) (dstWidth : nat) (srcX srcY w deltaX deltaY : Z)
    (ys : list nat) (y : nat) (d : buffer) :
  bitblt_rows_from src dstWidth srcX srcY w deltaX deltaY (ys ++ [y]) d
  = match bitblt_rows_from src dstWidth srcX srcY w deltaX deltaY ys d with
    | Ok copied => bitblt_row src dstWidth srcX srcY w deltaX deltaY copied y
    | Threw e => Threw e
    end.
Proof.
  revert d. induction ys as [|y0 ys IH]; intros d; cbn [app bitblt_rows_from].
  - now destruct (bitblt_row _ _ _ _ _ _ _ d y).
  - destruct (bitblt_row _ _ _ _ _ _ _ d y0); [apply IH|reflexivity].
Qed.

Lemma bitblt_rows_from_length (src : PNG) (dstWidth : nat) (srcX srcY w deltaX deltaY : Z)
    (ys : list nat) (d d' : buffer) :
  bitblt_rows_from src dstWidth srcX srcY w deltaX deltaY ys d = Ok d' ->
  length d' = length d.
Proof.
  revert d. induction ys as [|y ys IH]; intros d; cbn [bitblt_rows_from].
  - now intros [= <-].
  - destruct (bitblt_row _ _ _ _ _ _ _ d y) as [c|e] eqn:Hrow; [|discriminate].
    intros Hrest. rewrite (IH _ Hrest). exact (buffer_copy_length _ _ _ _ _ _ Hrow).
Qed.

Lemma bitblt_rows_from_Threw_inv (src : PNG) (dstWidth : nat)
    (srcX srcY w deltaX deltaY : Z) (ys : list nat) (d : buffer) (e : error) :
  bitblt_rows_from src dstWidth srcX srcY w deltaX deltaY ys d = Threw e ->
  e = OutOfRange.
Proof.
  revert d. induction ys as [|y ys IH]; intros d; cbn [bitblt_rows_from]; [discriminate|].
  destruct (bitblt_row _ _ _ _ _ _ _ d y) as [c|e0] eqn:Hrow; [apply IH|].
  intros [= <-]. exact (buffer_copy_Threw_inv _ _ _ _ _ _ Hrow).
Qed.

(** [PNG.bitblt] as [padTo] calls it throws nothing but the range
    error of the row loop: the rectangle is the source image, which
    is inside a canvas at least as large. *)
Lemma bitblt_Threw_inv (src dst : PNG) (e : error) :
  width src <= width dst -> height src <= height dst ->
  bitblt src dst 0 0 (Z.of_nat (width src)) (Z.of_nat (height src)) 0 0 = Threw e ->
  e = OutOfRange.
Proof.
  intros HW HH. unfold bitblt.
  rewrite (to_int32_small 0) by lia.
  pose proof (to_int32_le (Z.of_nat (width src)) ltac:(lia)) as Hw.
  pose proof (to_int32_le (Z.of_nat (height src)) ltac:(lia)) as Hh.
  replace (_ || _ || _ || _ || _ || _ || _ || _) with false.
  2:{ symmetry. rewrite !orb_false_iff. repeat split; apply Z.ltb_ge; lia. }
  destruct (bitblt_rows _ _ _ _ _ _ _ _ _) as [c|e0] eqn:Hrows; [discriminate|].
  intros [= <-]. exact (bitblt_rows_from_Threw_inv _ _ _ _ _ _ _ _ _ _ Hrows).
Qed.

(** Whenever [padTo] returns, the canvas has the size asked for. *)
Lemma padTo_Ok_size (img canvas : PNG) (W H : nat) :
  length (data img) = 4 * (width img * height img) ->
  padTo W H img = Ok canvas ->
  width canvas = W /\ height canvas = H /\ length (data canvas) = 4 * (W * H).
Proof.
  intros Hlen. unfold padTo.
  destruct ((width img =? W) && (height img =? H)) eqn:Hsame.
  - apply andb_true_iff in Hsame as [Hw Hh].
    apply Nat.eqb_eq in Hw, Hh. subst W H. now intros [= <-].
  - unfold new_PNG. destruct (_ <=? _)%Z; [|discriminate].
    unfold bitblt. cbn [width height data].
    destruct (_ || _ || _ || _ || _ || _ || _ || _); [discriminate|].
    destruct (bitblt_rows _ _ _ _ _ _ _ _ _) as [c|e] eqn:Hrows; [|discriminate].
    intros [= <-]. cbn [width height data]. split; [reflexivity|]. split; [reflexivity|].
    rewrite (bitblt_rows_from_length _ _ _ _ _ _ _ _ _ _ Hrows).
    apply length_replicate.
Qed.

Lemma padTo_Threw_inv (img : PNG) (W H : nat) (e : error) :
  width img <= W -> height img <= H ->
  padTo W H img = Threw e -> e = BufferTooLarge \/ e = OutOfRange.
Proof.
  intros HW HH. unfold padTo.
  destruct ((width img =? W) && (height img =? H)); [discriminate|].
  unfold new_PNG. destruct (_ <=? _)%Z; [|left; congruence].
  intros He. right. eapply (bitblt_Threw_inv img); [| |exact He]; assumption.
Qed.

Section Blit.
Variable src : PNG.
Variable W H : nat.
Variable dst : buffer.
Hypothesis Hsrc : length (data src) = 4 * (width src * height src).
Hypothesis Hdst : length dst = 4 * (W * H).
Hypothesis HW : width src <= W.
Hypothesis HH : height src <= H.

Local Abbreviation rows n := (laid_rows src W n dst).

Lemma laid_rows_S (n : nat) : rows (S n) = laid_row src W (rows n) n.
Proof.
  unfold laid_rows. rewrite seq_S, fold_left_app. reflexivity.
Qed.

Lemma laid_rows_length (n : nat) : length (rows n) = length dst.
Proof.
  induction n as [|n IH]; [reflexivity|].
  rewrite laid_rows_S. unfold laid_row. now rewrite copy_bytes_length.
Qed.

(** After [n] rows, the first [n] rows of the canvas hold the
    source on their first [width src] columns; every other byte is
    as before. *)
Lemma laid_rows_lookup (n x y c : nat) :
  n <= height src -> x < W -> y < H -> c < 4 ->
  rows n !! (4 * (y * W + x) + c)
  = if decide (y < n /\ x < width src)
    then data src !! (4 * (y * width src + x) + c)
    else dst !! (4 * (y * W + x) + c).
Proof.
  intros Hn Hx Hy Hc. induction n as [|n IH].
  - destruct (decide _) as [[? _]|_]; [lia|reflexivity].
  - rewrite laid_rows_S. unfold laid_row.
    replace ((n * width src + width src) * 4)
      with ((n * width src) * 4 + 4 * width src) by lia.
    rewrite copy_bytes_lookup;
      [|rewrite Hsrc; nia|rewrite laid_rows_length, Hdst; nia].
    rewrite IH by lia. clear IH.
    destruct (decide (y = n)) as [->|Hne].
    + destruct (decide (x < width src)) as [Hxw|Hxw].
      * rewrite decide_True by lia. rewrite decide_True by lia.
        f_equal. lia.
      * rewrite decide_False by lia. rewrite decide_False by lia.
        rewrite decide_False by lia. reflexivity.
    + assert (Hout : ~ ((n * W) * 4 <= 4 * (y * W + x) + c
                        < (n * W) * 4 + 4 * width src)) by nia.
      rewrite (decide_False _ _ Hout).
      destruct (decide (y < n /\ x < width src)) as [[? ?]|Hno].
      * rewrite decide_True by lia. reflexivity.
      * rewrite decide_False by lia. reflexivity.
Qed.

(** Below [2^31] bytes of canvas no offset leaves the 32-bit range,
    and the row loop lays the rows. *)
Hypothesis Hsmall : (Z.of_nat (4 * (W * H)) < 2 ^ 31)%Z.

Lemma bitblt_row_laid (d : buffer) (y : nat) :
  y < height src ->
  bitblt_row src W 0 0 (Z.of_nat (width src)) 0 0 d y = Ok (laid_row src W d y).
Proof.
  intros Hy. unfold bitblt_row, laid_row.
  assert (H1 : (y * W) * 4 <= 4 * (W * H)) by nia.
  assert (H2 : (y * width src + width src) * 4 <= 4 * (W * H)) by nia.
  assert (H3 : (y * width src) * 4 <= length (data src)) by (rewrite Hsrc; nia).
  rewrite !shl2_small by lia.
  replace ((0 + Z.of_nat y) * Z.of_nat W + 0)%Z with (Z.of_nat (y * W)) by lia.
  replace ((0 + Z.of_nat y) * Z.of_nat (width src) + 0 + Z.of_nat (width src))%Z
    with (Z.of_nat (y * width src + width src)) by lia.
  replace ((0 + Z.of_nat y) * Z.of_nat (width src) + 0)%Z
    with (Z.of_nat (y * width src)) by lia.
  replace (Z.of_nat (y * W) * 4)%Z with (Z.of_nat ((y * W) * 4)) by lia.
  replace (Z.of_nat (y * width src) * 4)%Z with (Z.of_nat ((y * width src) * 4)) by lia.
  replace (Z.of_nat (y * width src + width src) * 4)%Z
    with (Z.of_nat ((y * width src + width src) * 4)) by lia.
  now apply buffer_copy_in_range.
Qed.

Lemma bitblt_rows_laid (n : nat) :
  n <= height src ->
  bitblt_rows src W 0 0 (Z.of_nat (width src)) 0 0 n dst = Ok (rows n).
Proof.
  unfold bitblt_rows. induction n as [|n IH]; intros Hn; [reflexivity|].
  rewrite seq_S, bitblt_rows_from_snoc, IH by lia. cbn [Nat.add].
  rewrite bitblt_row_laid by lia. now rewrite laid_rows_S.
Qed.
End Blit.

Lemma new_PNG_eval (w h : nat) :
  (Z.of_nat (4 * (w * h)) <= MAX_LENGTH)%Z ->
  new_PNG w h = Ok {| width := w; height := h; data := replicate (4 * (w * h)) Byte.x00 |}.
Proof. intros Hb. unfold new_PNG. now rewrite (proj2 (Z.leb_le _ _) Hb). Qed.

Lemma new_PNG_too_large (w h : nat) :
  ~ (Z.of_nat (4 * (w * h)) <= MAX_LENGTH)%Z -> new_PNG w h = Threw BufferTooLarge.
Proof. intros Hb. unfold new_PNG. now rewrite (proj2 (Z.leb_gt _ _)) by lia. Qed.

(** On a canvas below [2^31] bytes, [padTo] lays the image on the
    top-left corner of a blank canvas. *)
Lemma padTo_top_left (img : PNG) (W H : nat) :
  well_formed img ->
  (Z.of_nat (4 * (W * H)) < 2 ^ 31)%Z ->
  width img <= W -> height img <= H ->
  exists canvas, padTo W H img = Ok canvas /\ top_left_on_blank img canvas W H.
Proof.
  intros [Hw Hh Hlen _] Hsmall HW HH. unfold padTo.
  destruct ((width img =? W) && (height img =? H)) eqn:Hsame.
  - apply andb_true_iff in Hsame as [Hw' Hh'].
    apply Nat.eqb_eq in Hw', Hh'. subst W H.
    exists img. split; [reflexivity|]. repeat split; try assumption.
    intros x y c Hx Hy Hc. now rewrite decide_True by lia.
  - rewrite (new_PNG_eval W H) by (unfold MAX_LENGTH; lia).
    unfold bitblt. cbn [width height data].
    assert (HWs : (Z.of_nat W < 2 ^ 31)%Z) by nia.
    assert (HHs : (Z.of_nat H < 2 ^ 31)%Z) by nia.
    rewrite (to_int32_small 0), !(to_int32_small (Z.of_nat _)) by lia.
    replace (_ || _ || _ || _ || _ || _ || _ || _) with false.
    2:{ symmetry. rewrite !orb_false_iff. repeat split; apply Z.ltb_ge; lia. }
    assert (Hz : length (replicate (4 * (W * H)) Byte.x00) = 4 * (W * H))
      by apply length_replicate.
    rewrite Nat2Z.id.
    rewrite (bitblt_rows_laid img W H _ Hlen Hz HW HH Hsmall) by lia.
    eexists. split; [reflexivity|]. unfold top_left_on_blank. cbn [width height data].
    repeat split.
    + rewrite laid_rows_length. exact Hz.
    + intros x y c Hx Hy Hc.
      rewrite (laid_rows_lookup img W H _ Hlen Hz HW HH) by lia.
      destruct (decide (y < height img /\ x < width img)) as [[? ?]|Hno].
      * now rewrite decide_True by lia.
      * rewrite decide_False by lia.
        apply lookup_replicate_2. nia.
Qed.

(** A canvas is determined by the image laid on it. *)
Lemma top_left_on_blank_unique (img a b : PNG) (W H : nat) :
  top_left_on_blank img a W H -> top_left_on_blank img b W H -> data a = data b.
Proof.
  intros (_ & _ & Hla & Ha) (_ & _ & Hlb & Hb).
  apply list_eq. intros i.
  destruct (decide (i < 4 * (W * H))) as [Hi|Hi].
  - assert (HW : W <> 0) by (intros ->; lia).
    pose proof (Nat.div_mod_eq i 4) as Hq.
    pose proof (Nat.mod_upper_bound i 4 ltac:(lia)) as Hc.
    pose proof (Nat.div_mod_eq (i / 4) W) as Hp.
    pose proof (Nat.mod_upper_bound (i / 4) W HW) as Hx.
    assert (Hy : i / 4 / W < H) by nia.
    replace i with (4 * (i / 4 / W * W + (i / 4) mod W) + i mod 4) by lia.
    now rewrite Ha, Hb by assumption.
  - rewrite !lookup_ge_None_2 by lia. reflexivity.
Qed.

(** Padding an image to a taller canvas of its own width appends
    blank rows. *)
Lemma padTo_taller (img : PNG) (H : nat) :
  well_formed img ->
  (Z.of_nat (4 * (width img * H)) < 2 ^ 31)%Z ->
  height img <= H ->
  exists canvas,
    padTo (width img) H img = Ok canvas /\
    data canvas = data img ++ replicate (4 * (width img * (H - height img))) Byte.x00.
Proof.
  intros Hwf Hsmall HH. pose proof (wf_data _ Hwf) as Hlen.
  destruct (padTo_top_left img (width img) H Hwf Hsmall (le_n _) HH)
    as (canvas & Hpad & Hc).
  exists canvas. split; [exact Hpad|].
  set (other := {| width := width img; height := H;
                   data := data img ++ replicate (4 * (width img * (H - height img))) Byte.x00 |}).
  change (data canvas = data other).
  apply (top_left_on_blank_unique img canvas other (width img) H Hc).
  unfold top_left_on_blank, other; simpl. repeat split.
  - rewrite length_app, length_replicate, Hlen. nia.
  - intros x y c Hx Hy Hcc.
    destruct (decide (x < width img /\ y < height img)) as [[_ Hyh]|Hno].
    + apply lookup_app_l. rewrite Hlen. nia.
    + rewrite lookup_app_r by (rewrite Hlen; nia).
      apply lookup_replicate_2. rewrite Hlen. nia.
Qed.

(** ** Counting unequal pixels *)

Lemma differing_pixels_same (a : buffer) (n : nat) : differing_pixels a a n = 0.
Proof.
  unfold differing_pixels.
  induction (seq 0 n) as [|i l IH]; [reflexivity|].
  rewrite filter_cons_False by (intros Hne; now apply Hne). exact IH.
Qed.

Lemma differing_pixels_le (a b : buffer) (n : nat) : differing_pixels a b n <= n.
Proof.
  unfold differing_pixels. etransitivity; [apply length_filter|]. now rewrite length_seq.
Qed.

Lemma pixel_at_app (a z : buffer) (i : nat) :
  4 * i + 4 <= length a -> pixel_at (a ++ z) i = pixel_at a i.
Proof.
  intros Hi. unfold pixel_at.
  rewrite drop_app_le by lia.
  apply take_app_le. rewrite length_drop. lia.
Qed.

Lemma filter_none {A : Type} (P : A -> Prop) `{forall x, Decision (P x)} (l : list A) :
  Forall (fun x => ~ P x) l -> filter P l = [].
Proof.
  induction 1 as [|x l Hx _ IH]; [reflexivity|].
  now rewrite filter_cons_False.
Qed.

(** Two buffers with a common prefix of [n] pixels differ in at most
    the [k] pixels that follow. *)
Lemma differing_pixels_prefix (p z e : buffer) (n k : nat) :
  length p = 4 * n -> differing_pixels (p ++ z) (p ++ e) (n + k) <= k.
Proof.
  intros Hp. unfold differing_pixels.
  rewrite seq_app, filter_app, length_app.
  rewrite filter_none.
  - simpl. etransitivity; [apply length_filter|]. now rewrite length_seq.
  - apply Forall_seq. intros i Hi Hne. apply Hne.
    rewrite !pixel_at_app by lia. reflexivity.
Qed.

End PngFacts.

(** * Properties of the image differ *)

Section DifferFacts.
Context `{Platform}.

Local Open Scope nat_scope.
Local Arguments Nat.mul : simpl never.

(** On a canvas below [2^31] bytes [diffImages] does not throw, and
    its result is read off the two padded canvases. *)
Lemma diffImages_eval (img1 img2 : PNG) (thr : number) :
  well_formed img1 -> well_formed img2 ->
  let W := Nat.max (width img1) (width img2) in
  let H := Nat.max (height img1) (height img2) in
  (Z.of_nat (4 * (W * H)) < 2 ^ 31)%Z ->
  exists a b : PNG,
    padTo W H img1 = Ok a /\ padTo W H img2 = Ok b /\
    top_left_on_blank img1 a W H /\ top_left_on_blank img2 b W H /\
    let pm := pixelmatch (data a) (data b) (replicate (4 * (W * H)) Byte.x00) W H thr in
    diffImages img1 img2 thr
    = Ok {| diffBuf := pngToBuffer {| width := W; height := H; data := fst pm |};
            diffPixels := snd pm;
            totalPixels := W * H;
            ratio := div (of_Z (Z.of_nat (snd pm))) (of_Z (Z.of_nat (W * H))) |}.
Proof.
  intros H1 H2 W H' Hsmall.
  destruct (PngFacts.padTo_top_left img1 W H' H1 Hsmall) as (a & Ha & Hta); [lia..|].
  destruct (PngFacts.padTo_top_left img2 W H' H2 Hsmall) as (b & Hb & Htb); [lia..|].
  exists a, b. repeat (split; [assumption|]).
  unfold diffImages. fold W H'.
  rewrite Ha, Hb, (PngFacts.new_PNG_eval W H') by (unfold MAX_LENGTH; lia).
  cbn [data]. now destruct (pixelmatch _ _ _ _ _ _) as [out n].
Qed.

(** Whenever [diffImages] returns, both images were padded to canvases
    of the common size, and the result is read off them. *)
Lemma diffImages_Ok_shape (img1 img2 : PNG) (thr : number) (d : DiffResult) :
  length (data img1) = 4 * (width img1 * height img1) ->
  length (data img2) = 4 * (width img2 * height img2) ->
  diffImages img1 img2 thr = Ok d ->
  let W := Nat.max (width img1) (width img2) in
  let H := Nat.max (height img1) (height img2) in
  exists a b : PNG,
    padTo W H img1 = Ok a /\ padTo W H img2 = Ok b /\
    length (data a) = 4 * (W * H) /\ length (data b) = 4 * (W * H) /\
    (Z.of_nat (4 * (W * H)) <= MAX_LENGTH)%Z /\
    diffPixels d
    = snd (pixelmatch (data a) (data b) (replicate (4 * (W * H)) Byte.x00) W H thr) /\
    totalPixels d = W * H /\
    ratio d = div (of_Z (Z.of_nat (diffPixels d))) (of_Z (Z.of_nat (totalPixels d))).
Proof.
  intros H1 H2 Hd W H'. unfold diffImages in Hd. fold W H' in Hd.
  destruct (padTo W H' img1) as [a|e] eqn:Ha; [|discriminate].
  destruct (padTo W H' img2) as [b|e] eqn:Hb; [|discriminate].
  destruct (PngFacts.padTo_Ok_size _ _ _ _ H1 Ha) as (_ & _ & Hla).
  destruct (PngFacts.padTo_Ok_size _ _ _ _ H2 Hb) as (_ & _ & Hlb).
  exists a, b. repeat (split; [assumption || reflexivity|]).
  unfold new_PNG in Hd.
  destruct (Z.of_nat (4 * (W * H')) <=? MAX_LENGTH)%Z eqn:Hmax; [|discriminate].
  apply Z.leb_le in Hmax. split; [exact Hmax|].
  cbn [data] in Hd. destruct (pixelmatch _ _ _ _ _ _) as [out n].
  injection Hd as <-. cbn [diffPixels totalPixels ratio snd]. now repeat split.
Qed.

Hypothesis pixelmatch_ok : pixelmatch_counts_differing.

(** Equal buffers: nothing is counted. *)
Lemma pixelmatch_same (a out : buffer) (w h : nat) (thr : number) :
  length a = 4 * (w * h) -> snd (pixelmatch a a out w h thr) = 0.
Proof.
  intros Ha. pose proof (pixelmatch_ok a a out w h thr Ha Ha) as Hle.
  rewrite PngFacts.differing_pixels_same in Hle. lia.
Qed.

(** An image against itself: no pixel differs and the ratio is zero. *)
Lemma diffImages_same (img : PNG) (thr : number) :
  well_formed img ->
  exists d, diffImages img img thr = Ok d /\
            diffPixels d = 0 /\ totalPixels d = width img * height img /\
            ratio d = zero.
Proof.
  intros [Hw Hh Hlen Hsz].
  unfold diffImages, padTo. rewrite !Nat.max_id, !Nat.eqb_refl. cbn [andb].
  rewrite (PngFacts.new_PNG_eval _ _ Hsz). cbn [data].
  pose proof (pixelmatch_same (data img) (replicate (4 * (width img * height img)) Byte.x00)
                (width img) (height img) thr Hlen) as Hz.
  destruct (pixelmatch _ _ _ _ _ _) as [out n]. simpl in Hz. subst n.
  eexists. split; [reflexivity|]. cbn [diffPixels totalPixels ratio].
  repeat split. apply JsNumberFacts.ratio_zero. unfold MAX_LENGTH in Hsz. nia.
Qed.

(** The current capture is the baseline with rows added below it: only
    pixels of the added rows can be counted. *)
Lemma diffImages_taller (img1 img2 : PNG) (extra : buffer) (thr : number) :
  well_formed img1 -> well_formed img2 ->
  (Z.of_nat (4 * (width img2 * height img2)) < 2 ^ 31)%Z ->
  width img1 = width img2 -> height img1 < height img2 ->
  data img2 = data img1 ++ extra ->
  exists d, diffImages img1 img2 thr = Ok d /\
            diffPixels d <= width img2 * (height img2 - height img1) /\
            totalPixels d = width img2 * height img2.
Proof.
  intros Hwf1 [Hw2 Hh2 Hl2 Hsz] Hsmall Hw Hh Hdata.
  pose proof (wf_data _ Hwf1) as Hl1.
  unfold diffImages.
  replace (Nat.max (width img1) (width img2)) with (width img1) by lia.
  replace (Nat.max (height img1) (height img2)) with (height img2) by lia.
  destruct (PngFacts.padTo_taller img1 (height img2) Hwf1) as (a & Ha & Hda);
    [now rewrite Hw|lia|].
  rewrite Ha. unfold padTo at 1. rewrite Hw, !Nat.eqb_refl. cbn [andb].
  rewrite (PngFacts.new_PNG_eval _ _ Hsz). cbn [data].
  assert (Hla : length (data a) = 4 * (width img2 * height img2)).
  { rewrite Hda, length_app, length_replicate, Hl1, Hw. nia. }
  pose proof (pixelmatch_ok (data a) (data img2)
                (replicate (4 * (width img2 * height img2)) Byte.x00)
                (width img2) (height img2) thr Hla Hl2) as Hle.
  destruct (pixelmatch _ _ _ _ _ _) as [out n]. simpl in Hle.
  eexists. split; [reflexivity|]. cbn [diffPixels totalPixels]. split; [|reflexivity].
  etransitivity; [exact Hle|].
  rewrite Hda, Hdata.
  replace (width img2 * height img2)
    with (width img1 * height img1 + width img2 * (height img2 - height img1)) by nia.
  apply PngFacts.differing_pixels_prefix. exact Hl1.
Qed.

Hypothesis decode_ok : decodes_well_formed.

(** Whenever [diffImages] returns, the canvas fits a buffer. *)
Lemma diffImages_Ok_inv (img1 img2 : PNG) (thr : number) (d : DiffResult) :
  diffImages img1 img2 thr = Ok d ->
  (Z.of_nat (4 * (Nat.max (width img1) (width img2)
                  * Nat.max (height img1) (height img2))) <= MAX_LENGTH)%Z.
Proof.
  intros Hd.
  destruct (Z_le_gt_dec
              (Z.of_nat (4 * (Nat.max (width img1) (width img2)
                              * Nat.max (height img1) (height img2)))) MAX_LENGTH)
    as [Hle|Hgt]; [exact Hle|exfalso].
  unfold diffImages in Hd.
  rewrite PngFacts.new_PNG_too_large in Hd by lia.
  destruct (padTo _ _ img1); [|discriminate].
  destruct (padTo _ _ img2); discriminate.
Qed.

(** The ratio returned by [diffPngs] is a number: the canvas is not
    empty and no more pixels are counted than it has. *)
Lemma diffPngs_ratio (base cur : buffer) (thr : number) (d : DiffResult) :
  diffPngs base cur thr = Ok d ->
  diffPixels d <= totalPixels d /\ 0 < totalPixels d /\
  ratio d = div (of_Z (Z.of_nat (diffPixels d))) (of_Z (Z.of_nat (totalPixels d))) /\
  is_nan (ratio d) = false.
Proof.
  unfold diffPngs, pngFromBuffer. intros Hd.
  destruct (PNG_sync_read base) as [img1|] eqn:H1; [|discriminate].
  destruct (PNG_sync_read cur) as [img2|] eqn:H2; [|discriminate].
  destruct (decode_ok _ _ H1) as [Hw1 Hh1 Hl1 _].
  destruct (decode_ok _ _ H2) as [Hw2 Hh2 Hl2 _].
  destruct (diffImages_Ok_shape img1 img2 thr d Hl1 Hl2 Hd)
    as (a & b & _ & _ & Hla & Hlb & Hmax & Hpix & Htot & Hratio).
  set (W := Nat.max (width img1) (width img2)) in *.
  set (H' := Nat.max (height img1) (height img2)) in *.
  pose proof (pixelmatch_ok (data a) (data b) (replicate (4 * (W * H')) Byte.x00)
                W H' thr Hla Hlb) as Hle.
  pose proof (PngFacts.differing_pixels_le (data a) (data b) (W * H')) as Hle'.
  assert (Hpos : 0 < W * H') by (subst W H'; nia).
  unfold MAX_LENGTH in Hmax. rewrite Hratio, Hpix, Htot.
  repeat split; try lia.
  apply JsNumberFacts.ratio_not_nan; lia.
Qed.

End DifferFacts.

(** * Properties of the run *)

Section StateFacts.

Lemma files_set_files (d : directory) (m : gmap string buffer) (s : state) :
  files d (set_files d m s) = m.
Proof. now destruct d. Qed.

Lemma files_set_files_ne (d d' : directory) (m : gmap string buffer) (s : state) :
  d <> d' -> files d' (set_files d m s) = files d' s.
Proof. destruct d, d'; intros Hne; try reflexivity; now destruct Hne. Qed.

Lemma set_files_set_files (d : directory) (m m' : gmap string buffer) (s : state) :
  set_files d m (set_files d m' s) = set_files d m s.
Proof. now destruct d. Qed.

Lemma changes_set_files (d : directory) (m : gmap string buffer) (s : state) :
  changes (set_files d m s) = changes s.
Proof. now destruct d. Qed.

Lemma seeded_set_files (d : directory) (m : gmap string buffer) (s : state) :
  seededBaselines (set_files d m s) = seededBaselines s.
Proof. now destruct d. Qed.

Lemma log_set_files (d : directory) (m : gmap string buffer) (s : state) :
  log (set_files d m s) = log s.
Proof. now destruct d. Qed.

Lemma bind_Ok {A B : Type} (m : M A) (k : A -> M B) (s s' : state) (a : A) :
  m s = (Ok a, s') -> bind m k s = k a s'.
Proof. intros Hm. unfold bind. now rewrite Hm. Qed.

Lemma bind_Threw {A B : Type} (m : M A) (k : A -> M B) (s s' : state) (e : error) :
  m s = (Threw e, s') -> bind m k s = (Threw e, s').
Proof. intros Hm. unfold bind. now rewrite Hm. Qed.

(** An atomic write always succeeds and leaves the buffer at the path. *)
Lemma writeFileAtomic_eval (p : path) (buf : buffer) (now : N) (s : state) :
  writeFileAtomic p buf now s = (Ok tt, written p buf now s).
Proof.
  unfold writeFileAtomic, written, rename, writeFile, readFile, bind, modify.
  cbn [fst snd]. rewrite files_set_files, lookup_insert_eq.
  rewrite !files_set_files, !set_files_set_files. reflexivity.
Qed.

Lemma written_lookup (p : path) (buf : buffer) (now : N) (s : state) :
  files p.1 (written p buf now s) !! p.2 = Some buf.
Proof. unfold written. now rewrite files_set_files, lookup_insert_eq. Qed.

Lemma written_files_ne (p : path) (buf : buffer) (now : N) (s : state) (d : directory) :
  p.1 <> d -> files d (written p buf now s) = files d s.
Proof. intros Hne. unfold written. now apply files_set_files_ne. Qed.

Lemma written_changes (p : path) (buf : buffer) (now : N) (s : state) :
  changes (written p buf now s) = changes s.
Proof. apply changes_set_files. Qed.

Lemma written_seeded (p : path) (buf : buffer) (now : N) (s : state) :
  seededBaselines (written p buf now s) = seededBaselines s.
Proof. apply seeded_set_files. Qed.

Lemma written_log (p : path) (buf : buffer) (now : N) (s : state) :
  log (written p buf now s) = log s.
Proof. apply log_set_files. Qed.

(** ** Computations that preserve part of the state *)

Lemma preserves_ret {A X : Type} (f : state -> X) (a : A) : preserves f (ret a).
Proof. now intros s. Qed.

Lemma preserves_throw {A X : Type} (f : state -> X) (e : error) :
  preserves f (@throw A e).
Proof. now intros s. Qed.

Lemma preserves_bind {A B X : Type} (f : state -> X) (m : M A) (k : A -> M B) :
  preserves f m -> (forall a, preserves f (k a)) -> preserves f (bind m k).
Proof.
  intros Hm Hk s. unfold bind. specialize (Hm s).
  destruct (m s) as [[a|e] s1]; cbn [snd] in *; [|exact Hm].
  now rewrite Hk.
Qed.

Lemma quiet_ret {A : Type} (a : A) : quiet (ret a).
Proof. apply preserves_ret. Qed.

Lemma quiet_throw {A : Type} (e : error) : quiet (@throw A e).
Proof. apply preserves_throw. Qed.

Lemma quiet_lift {A : Type} (r : result A) : quiet (lift r).
Proof. destruct r; [apply quiet_ret|apply quiet_throw]. Qed.

Lemma quiet_get : quiet get.
Proof. now intros s. Qed.

Lemma quiet_bind {A B : Type} (m : M A) (k : A -> M B) :
  quiet m -> (forall a, quiet (k a)) -> quiet (bind m k).
Proof. apply preserves_bind. Qed.

Lemma quiet_readFile (p : path) : quiet (readFile p).
Proof. intros s. unfold readFile. now destruct (files p.1 s !! p.2). Qed.

Lemma quiet_writeFile (p : path) (buf : buffer) : quiet (writeFile p buf).
Proof. intros s. apply log_set_files. Qed.

Lemma quiet_fileExists (p : path) : quiet (fileExists p).
Proof. intros s. unfold fileExists. now destruct (files p.1 s !! p.2). Qed.

Lemma quiet_stat_size (p : path) : quiet (stat_size p).
Proof. apply quiet_bind; [apply quiet_readFile|intros; apply quiet_ret]. Qed.

Lemma quiet_writeFileAtomic (p : path) (buf : buffer) (now : N) :
  quiet (writeFileAtomic p buf now).
Proof. intros s. rewrite writeFileAtomic_eval. apply written_log. Qed.

Lemma quiet_mapM {A B : Type} (f : A -> M B) (l : list A) :
  (forall a, quiet (f a)) -> quiet (mapM f l).
Proof.
  intros Hf. induction l as [|x l IH]; cbn [mapM]; [apply quiet_ret|].
  apply quiet_bind; [apply Hf|]. intros y.
  apply quiet_bind; [apply IH|]. intros ys. apply quiet_ret.
Qed.

End StateFacts.

(** ** One target *)

Section TargetFacts.
Context `{Platform}.
Variable cfg : config.
Lemma captured_state_baselines slug t cur s :
  baselines (captured_state slug t cur s) = baselines s.
Proof. apply (written_files_ne (current_path slug) cur _ s BASELINES_DIR). discriminate. Qed.

Lemma files_baseline_path (slug : string) (s : state) :
  files (baseline_path slug).1 s !! (baseline_path slug).2
  = baselines s !! (slug +:+ ".png").
Proof. reflexivity. Qed.

Lemma process_target_bad_url (t : target) (s : state) (e : error) :
  safeSlug (url t) = Threw e -> process_target cfg t s = (Threw e, s).
Proof. intros Hs. unfold process_target. now rewrite Hs. Qed.

Lemma process_target_failed (t : target) (s : state) (slug : string) (e : thrown) :
  safeSlug (url t) = Ok slug -> captured t = inl e ->
  process_target cfg t s
  = (Ok Failed,
     add_change (CaptureFailure (url t) ("CAPTURE FAILED: " +:+ describe e)) s).
Proof. intros Hs Hc. unfold process_target. now rewrite Hs, Hc. Qed.

Lemma process_target_seeded (t : target) (s : state) (slug : string) (cur : buffer) :
  safeSlug (url t) = Ok slug -> captured t = inr cur ->
  baselines s !! (slug +:+ ".png") = None ->
  process_target cfg t s
  = (Ok Seeded,
     add_seed (written (baseline_path slug) cur (now_baseline t)
                 (captured_state slug t cur s))).
Proof.
  intros Hs Hc Hb. unfold process_target. rewrite Hs, Hc. cbn [lift].
  rewrite (bind_Ok _ _ _ _ _ (eq_refl : ret slug s = (Ok slug, s))).
  rewrite (bind_Ok _ _ _ _ _ (writeFileAtomic_eval _ _ _ _)).
  fold (captured_state slug t cur s).
  unfold bind at 1, fileExists at 1.
  rewrite files_baseline_path, captured_state_baselines, Hb.
  cbn [negb].
  rewrite (bind_Ok _ _ _ _ _ (writeFileAtomic_eval _ _ _ _)).
  reflexivity.
Qed.

Lemma process_target_compared (t : target) (s : state) (slug : string)
    (cur base : buffer) (d : DiffResult) :
  safeSlug (url t) = Ok slug -> captured t = inr cur ->
  baselines s !! (slug +:+ ".png") = Some base ->
  diffPngs base cur (pixelmatchThreshold cfg) = Ok d ->
  process_target cfg t s
  = if ge (ratio d) (changeThresholdRatio cfg)
    then (Ok Changed,
          written (baseline_path slug) cur (now_baseline t)
            (add_change (VisualChange (url t) (ratio d) (diffPixels d) (totalPixels d))
               (written (diff_path slug) (diffBuf d) (now_diff t)
                  (captured_state slug t cur s))))
    else (Ok Unchanged, captured_state slug t cur s).
Proof.
  intros Hs Hc Hb Hd. unfold process_target. rewrite Hs, Hc. cbn [lift].
  rewrite (bind_Ok _ _ _ _ _ (eq_refl : ret slug s = (Ok slug, s))).
  rewrite (bind_Ok _ _ _ _ _ (writeFileAtomic_eval _ _ _ _)).
  fold (captured_state slug t cur s).
  unfold bind at 1, fileExists at 1.
  rewrite files_baseline_path, captured_state_baselines, Hb.
  cbn [negb].
  unfold bind at 1, readFile at 1.
  rewrite files_baseline_path, captured_state_baselines, Hb.
  rewrite Hd. cbn [lift].
  rewrite (bind_Ok _ _ _ _ _ (eq_refl : ret d _ = (Ok d, _))).
  destruct (ge (ratio d) (changeThresholdRatio cfg)); [|reflexivity].
  rewrite (bind_Ok _ _ _ _ _ (writeFileAtomic_eval _ _ _ _)).
  unfold bind at 1, push_change at 1, modify at 1.
  rewrite (bind_Ok _ _ _ _ _ (writeFileAtomic_eval _ _ _ _)).
  reflexivity.
Qed.

Lemma process_target_compare_threw (t : target) (s : state) (slug : string)
    (cur base : buffer) (e : error) :
  safeSlug (url t) = Ok slug -> captured t = inr cur ->
  baselines s !! (slug +:+ ".png") = Some base ->
  diffPngs base cur (pixelmatchThreshold cfg) = Threw e ->
  process_target cfg t s = (Threw e, captured_state slug t cur s).
Proof.
  intros Hs Hc Hb Hd. unfold process_target. rewrite Hs, Hc. cbn [lift].
  rewrite (bind_Ok _ _ _ _ _ (eq_refl : ret slug s = (Ok slug, s))).
  rewrite (bind_Ok _ _ _ _ _ (writeFileAtomic_eval _ _ _ _)).
  fold (captured_state slug t cur s).
  unfold bind at 1, fileExists at 1.
  rewrite files_baseline_path, captured_state_baselines, Hb.
  cbn [negb].
  unfold bind at 1, readFile at 1.
  rewrite files_baseline_path, captured_state_baselines, Hb.
  rewrite Hd. reflexivity.
Qed.

(** [process_target] takes one of the six paths. *)
Lemma process_target_step (t : target) (s : state) :
  target_step cfg t s (process_target cfg t s).1 (process_target cfg t s).2.
Proof.
  destruct (safeSlug (url t)) as [slug|e] eqn:Hs.
  2:{ rewrite (process_target_bad_url t s e Hs). cbn [fst snd]; eapply step_bad_url; eassumption. }
  destruct (captured t) as [message|cur] eqn:Hc.
  { rewrite (process_target_failed t s slug message Hs Hc). cbn [fst snd]; eapply step_failed; eassumption. }
  destruct (baselines s !! (slug +:+ ".png")) as [base|] eqn:Hb.
  2:{ rewrite (process_target_seeded t s slug cur Hs Hc Hb). cbn [fst snd]; eapply step_seeded; eassumption. }
  destruct (diffPngs base cur (pixelmatchThreshold cfg)) as [d|e] eqn:Hd.
  2:{ rewrite (process_target_compare_threw t s slug cur base e Hs Hc Hb Hd).
      cbn [fst snd]; eapply step_compare_threw; eassumption. }
  rewrite (process_target_compared t s slug cur base d Hs Hc Hb Hd).
  destruct (ge (ratio d) (changeThresholdRatio cfg)) eqn:Hge.
  - cbn [fst snd]; eapply step_changed; eassumption.
  - cbn [fst snd]; eapply step_unchanged; eassumption.
Qed.

(** The loop body makes no call that leaves the process: the log is
    the collaborators' alone. *)
Lemma target_step_log (t : target) (s s' : state) (r : result outcome) :
  target_step cfg t s r s' -> log s' = log s.
Proof.
  intros Hstep. destruct Hstep; unfold captured_state;
    cbn [log add_change add_seed]; rewrite ?written_log;
    cbn [log add_change add_seed]; rewrite ?written_log; reflexivity.
Qed.

End TargetFacts.

(** ** Selecting the preview images *)

Section Selection.
Variable d : gmap string buffer.
Variable B : Z.

Lemma file_size_nonneg (f : string) : 0 <= file_size d f.
Proof. unfold file_size. lia. Qed.

Lemma total_size_nonneg (fs : list string) : 0 <= total_size d fs.
Proof.
  induction fs as [|f fs IH]; cbn; [lia|].
  pose proof (file_size_nonneg f). fold (total_size d fs). lia.
Qed.

Lemma total_size_cons (f : string) (fs : list string) :
  total_size d (f :: fs) = file_size d f + total_size d fs.
Proof. reflexivity. Qed.

(** The images attached are the first ones of the list. *)
Lemma select_pngs_prefix (fs : list string) (b : Z) :
  select_pngs d fs B b `prefix_of` fs.
Proof.
  revert b. induction fs as [|f fs IH]; intros b; cbn [select_pngs].
  - reflexivity.
  - destruct (b + file_size d f >? B).
    + apply prefix_nil.
    + apply prefix_cons, IH.
Qed.

(** Whenever an image is attached, the total stays within the limit. *)
Lemma select_pngs_budget (fs : list string) (b : Z) :
  select_pngs d fs B b <> [] -> b + total_size d (select_pngs d fs B b) <= B.
Proof.
  revert b. induction fs as [|f fs IH]; intros b; cbn [select_pngs]; [congruence|].
  destruct (b + file_size d f >? B) eqn:Hfit; [congruence|]. intros _.
  rewrite total_size_cons.
  destruct (select_pngs d fs B (b + file_size d f)) as [|g sel] eqn:Hsel.
  - cbn. lia.
  - rewrite <- Hsel, Z.add_assoc. apply IH. now rewrite Hsel.
Qed.

(** The loop stops at an image only because it does not fit. *)
Lemma select_pngs_stop (fs : list string) (b : Z) (f : string) :
  select_pngs d fs B b ++ [f] `prefix_of` fs ->
  b + total_size d (select_pngs d fs B b) + file_size d f > B.
Proof.
  revert b. induction fs as [|g fs IH]; intros b; cbn [select_pngs].
  - intros Hp. apply prefix_nil_inv in Hp. discriminate.
  - destruct (b + file_size d g >? B) eqn:Hfit.
    + cbn [app]. intros Hp. apply prefix_cons_inv_1 in Hp as ->. cbn. lia.
    + cbn [app]. intros Hp. apply prefix_cons_inv_2 in Hp.
      rewrite total_size_cons, Z.add_assoc. now apply IH.
Qed.

End Selection.

(** ** The whole run *)

Section MainFacts.
Context `{Platform}.
Variable cfg : config.
Variable E : environment.

Lemma process_targets_cons (t : target) (rest : list target) (s : state) :
  process_targets cfg (t :: rest) s
  = match process_target cfg t s with
    | (Ok o, s1) =>
        match process_targets cfg rest s1 with
        | (Ok os, s2) => (Ok (o :: os), s2)
        | (Threw e, s2) => (Threw e, s2)
        end
    | (Threw e, s1) => (Threw e, s1)
    end.
Proof.
  unfold process_targets. cbn [mapM]. unfold bind at 1.
  destruct (process_target cfg t s) as [[o|e] s1]; [|reflexivity].
  unfold bind at 1.
  now destruct (mapM (process_target cfg) rest s1) as [[os|e] s2].
Qed.

(** The loop makes no call that leaves the process. *)
Lemma process_targets_log (targets : list target) (s : state) :
  log (process_targets cfg targets s).2 = log s.
Proof.
  revert s. induction targets as [|t rest IH]; intros s; [reflexivity|].
  rewrite process_targets_cons.
  pose proof (target_step_log cfg t s _ _ (process_target_step cfg t s)) as Ht.
  destruct (process_target cfg t s) as [[o|e] s1]; cbn [fst snd] in *; [|exact Ht].
  specialize (IH s1).
  destruct (process_targets cfg rest s1) as [[os|e] s2]; cbn [snd] in *; congruence.
Qed.

Lemma close_session_eval (s : state) : close_session s = (Ok tt, session_closed s).
Proof.
  unfold close_session, bind, emit, modify, session_closed, add_event.
  cbn [log baselines run_files diff_files tmp_files changes seededBaselines].
  now rewrite <- !app_assoc.
Qed.

Lemma session_opened_eval (k : M unit) (s : state) :
  (emit BrowserLaunch >> emit NewContext >> emit NewPage >>
   modify (fun s => mkState (baselines s) (run_files s) (diff_files s) (tmp_files s)
                      [] 0 (log s)) >> k) s
  = k (session_opened s).
Proof.
  unfold bind, emit, modify, session_opened, add_event.
  cbn [log baselines run_files diff_files tmp_files changes seededBaselines].
  now rewrite <- !app_assoc.
Qed.

(** [main], stage by stage. *)
Lemma main_eval (targets : list target) (s : state) :
  main cfg E targets s
  = match process_targets cfg targets (session_opened s) with
    | (Threw e, s2) => (Threw e, s2)
    | (Ok _, s2) =>
        match commit_step E (session_closed s2) with
        | (Threw e, s3) => (Threw e, s3)
        | (Ok _, s3) =>
            if (length (changes s3) =? 0)%nat then (Ok tt, s3) else notify_step cfg E s3
        end
    end.
Proof.
  unfold main. rewrite session_opened_eval. unfold bind at 1.
  destruct (process_targets cfg targets (session_opened s)) as [[os|e] s2]; [|reflexivity].
  rewrite (bind_Ok _ _ _ _ _ (close_session_eval s2)).
  unfold bind at 1.
  destruct (commit_step E (session_closed s2)) as [[[]|e] s3]; [|reflexivity].
  unfold bind at 1, get at 1.
  now destruct (length (changes s3) =? 0)%nat.
Qed.

(** *** What a run appends to the log *)

Lemma notifications_app (l1 l2 : list event) :
  notifications (l1 ++ l2) = (notifications l1 + notifications l2)%nat.
Proof. unfold notifications. now rewrite List.filter_app, length_app. Qed.

Lemma quiet_appends {A : Type} (m : M A) : quiet m -> appends 0 m.
Proof. intros Hm s. exists []. now rewrite app_nil_r, Hm. Qed.

Lemma appends_bind {A B : Type} (n n' : nat) (m : M A) (k : A -> M B) :
  appends n m -> (forall a, appends n' (k a)) -> appends (n + n') (bind m k).
Proof.
  intros Hm Hk s. unfold bind. destruct (Hm s) as (r1 & H1 & L1).
  destruct (m s) as [[a|e] s1]; cbn [snd] in *.
  - destruct (Hk a s1) as (r2 & H2 & L2). exists (r1 ++ r2).
    rewrite H2, H1, app_assoc, notifications_app. split; [reflexivity|lia].
  - exists r1. split; [exact H1|lia].
Qed.

Lemma appends_bind_quiet {A B : Type} (n : nat) (m : M A) (k : A -> M B) :
  quiet m -> (forall a, appends n (k a)) -> appends n (bind m k).
Proof. intros Hm Hk. apply (appends_bind 0 n); [now apply quiet_appends|exact Hk]. Qed.

Lemma appends_emit (e : event) : appends (if is_post e then 1 else 0) (emit e).
Proof. intros s. exists [e]. split; [reflexivity|]. unfold notifications. cbn. now destruct (is_post e). Qed.

Lemma appends_exec_git (c : git_command) : appends 0 (exec_git E c).
Proof.
  unfold exec_git. apply (appends_bind 0 0); [apply (appends_emit (Git c))|].
  intros _. apply quiet_appends. destruct (git E c); [apply quiet_ret|apply quiet_throw].
Qed.

Lemma appends_gitCommitIfNeeded (message : string) :
  appends 0 (gitCommitIfNeeded E message).
Proof.
  unfold gitCommitIfNeeded.
  apply (appends_bind 0 0); [apply appends_exec_git|intros status].
  destruct (blank status); [apply quiet_appends, quiet_ret|].
  apply (appends_bind 0 0); [apply appends_exec_git|intros _].
  apply (appends_bind 0 0); [apply appends_exec_git|intros _].
  apply (appends_bind 0 0); [apply appends_exec_git|intros _].
  apply quiet_appends, quiet_ret.
Qed.

(** The commit step sends no notification, whatever git does. *)
Lemma appends_commit_step : appends 0 (commit_step E).
Proof.
  unfold commit_step. apply appends_bind_quiet; [apply quiet_get|intros s0].
  destruct (_ || _); [|apply quiet_appends, quiet_ret].
  apply (appends_bind 0 0); [apply appends_gitCommitIfNeeded|].
  intros _. apply quiet_appends, quiet_ret.
Qed.

(** The commit step leaves the report alone. *)
Lemma commit_step_changes : preserves changes (commit_step E).
Proof.
  assert (Hexec : forall c, preserves changes (exec_git E c)).
  { intros c. unfold exec_git. apply preserves_bind; [now intros s|intros _].
    destruct (git E c); [apply preserves_ret|apply preserves_throw]. }
  unfold commit_step. apply preserves_bind; [now intros s|intros s0].
  destruct (_ || _); [|apply preserves_ret].
  apply preserves_bind; [|intros; apply preserves_ret].
  unfold gitCommitIfNeeded. apply preserves_bind; [apply Hexec|intros status].
  destruct (blank status); [apply preserves_ret|].
  repeat (apply preserves_bind; [apply Hexec|intros _]).
  apply preserves_ret.
Qed.

Lemma quiet_mustEnv (name : string) : quiet (mustEnv E name).
Proof.
  intros s. unfold mustEnv. destruct (env E !! name) as [v|]; [|reflexivity].
  now destruct (String.eqb v "").
Qed.

Lemma appends_sendMailgunEmail (subject text : string) (atts : list attachment) :
  appends 1 (sendMailgunEmail E subject text atts).
Proof.
  unfold sendMailgunEmail.
  apply appends_bind_quiet; [apply quiet_mustEnv|intros apiKey].
  apply appends_bind_quiet; [apply quiet_mustEnv|intros domain].
  apply appends_bind_quiet; [apply quiet_mustEnv|intros to].
  apply appends_bind_quiet.
  { apply quiet_mapM. intros a.
    apply quiet_bind; [apply quiet_readFile|intros; apply quiet_ret]. }
  intros parts. apply (appends_bind 1 0); [apply (appends_emit (MailgunPost _))|].
  intros _. apply quiet_appends. destruct (res_ok E); [apply quiet_ret|apply quiet_throw].
Qed.

Lemma quiet_attach_pngs (fs : list string) (B b : Z) (atts : list attachment) :
  quiet (attach_pngs fs B atts b).
Proof.
  revert atts b. induction fs as [|f rest IH]; intros atts b; cbn [attach_pngs].
  - apply quiet_ret.
  - apply quiet_bind; [apply quiet_stat_size|intros size].
    destruct (b + size >? B); [apply quiet_ret|apply IH].
Qed.

Lemma quiet_createZip (d : directory) (p : path) : quiet (createZip E d p).
Proof.
  unfold createZip. apply quiet_bind; [apply quiet_get|intros s0].
  destruct (zip_ok E); [apply quiet_writeFile|apply quiet_throw].
Qed.

Lemma quiet_build_attachments : quiet (build_attachments cfg E).
Proof.
  unfold build_attachments. apply quiet_bind; [apply quiet_get|intros s0].
  destruct (diffFilesAll s0); [apply quiet_ret|].
  apply quiet_bind; [apply quiet_createZip|intros _].
  apply quiet_bind; [apply quiet_stat_size|intros; apply quiet_attach_pngs].
Qed.

Lemma appends_notify_step : appends 1 (notify_step cfg E).
Proof.
  unfold notify_step. apply appends_bind_quiet; [apply quiet_build_attachments|].
  intros [atts total]. apply appends_bind_quiet; [apply quiet_get|].
  intros s0. apply appends_sendMailgunEmail.
Qed.

(** Every run, whatever happens in it: the session is opened, at most
    one notification is sent, and none unless the loop over the
    targets ended with a report that is not empty; if the loop ends
    without a fatal error the session is closed right after it. *)
Lemma main_log_any (targets : list target) (s : state) :
  exists rest,
    log (main cfg E targets s).2 = log s ++ [BrowserLaunch; NewContext; NewPage] ++ rest /\
    (notifications rest <= 1)%nat /\
    match process_targets cfg targets (session_opened s) with
    | (Ok _, s2) =>
        (exists rest', rest = [PageClose; ContextClose; BrowserClose] ++ rest') /\
        (changes s2 = [] -> notifications rest = 0%nat)
    | (Threw e, _) => rest = [] /\ (main cfg E targets s).1 = Threw e
    end.
Proof.
  rewrite main_eval.
  pose proof (process_targets_log targets (session_opened s)) as Hlog.
  destruct (process_targets cfg targets (session_opened s)) as [[outs|e] s2];
    cbn [fst snd session_opened log] in *.
  2:{ exists []. rewrite app_nil_r. repeat split; [exact Hlog|cbn; lia]. }
  destruct (appends_commit_step (session_closed s2)) as (r1 & H1 & L1).
  pose proof (commit_step_changes (session_closed s2)) as Hch.
  cbn [session_closed log changes] in H1, Hch. rewrite Hlog in H1.
  destruct (commit_step E (session_closed s2)) as [[[]|e] s3]; cbn [snd] in *.
  - rewrite Hch.
    destruct (changes s2) as [|c cs] eqn:Hcs; cbn [length Nat.eqb].
    + exists ([PageClose; ContextClose; BrowserClose] ++ r1). cbn [snd].
      split; [rewrite H1, <- !app_assoc; reflexivity|].
      rewrite notifications_app. cbn.
      split; [lia|]. split; [eexists; reflexivity|intros _; lia].
    + destruct (appends_notify_step s3) as (r2 & H2 & L2).
      exists ([PageClose; ContextClose; BrowserClose] ++ r1 ++ r2).
      split; [rewrite H2, H1, <- !app_assoc; reflexivity|].
      rewrite !notifications_app. cbn.
      split; [lia|]. split; [eexists; reflexivity|discriminate].
  - exists ([PageClose; ContextClose; BrowserClose] ++ r1).
    split; [rewrite H1, <- !app_assoc; reflexivity|].
    rewrite notifications_app. cbn.
    split; [lia|]. split; [eexists; reflexivity|intros _; lia].
Qed.

(** *** Building the attachments *)

Lemma stat_size_eval (p : path) (buf : buffer) (s : state) :
  files p.1 s !! p.2 = Some buf -> stat_size p s = (Ok (Z.of_nat (length buf)), s).
Proof. intros Hp. unfold stat_size, bind, readFile. now rewrite Hp. Qed.

Lemma file_size_lookup (d : gmap string buffer) (f : string) (buf : buffer) :
  d !! f = Some buf -> file_size d f = Z.of_nat (length buf).
Proof. intros Hf. unfold file_size. now rewrite Hf. Qed.

Lemma attach_pngs_eval (fs : list string) (B b : Z) (atts : list attachment) (s : state) :
  (forall f, f ∈ fs -> is_Some (diff_files s !! f)) ->
  attach_pngs fs B atts b s
  = (Ok (atts ++ map png_attachment (select_pngs (diff_files s) fs B b),
         b + total_size (diff_files s) (select_pngs (diff_files s) fs B b)), s).
Proof.
  revert atts b. induction fs as [|f rest IH]; intros atts b Hex.
  - cbn. now rewrite app_nil_r, Z.add_0_r.
  - destruct (Hex f ltac:(left)) as [buf Hbuf].
    cbn [attach_pngs select_pngs].
    rewrite (bind_Ok _ _ _ _ _ (stat_size_eval (DIFF_DIR, f) buf s Hbuf)).
    rewrite (file_size_lookup _ _ _ Hbuf).
    destruct (b + Z.of_nat (length buf) >? B).
    + cbn. now rewrite app_nil_r, Z.add_0_r.
    + rewrite IH by (intros g Hg; apply Hex; now right).
      cbn [map total_size foldr]. rewrite (file_size_lookup _ _ _ Hbuf).
      rewrite <- app_assoc. cbn [app]. fold (total_size (diff_files s)).
      change (png_attachment f) with {| att_name := f; att_path := (DIFF_DIR, f) |}.
      now rewrite Z.add_assoc.
Qed.

Lemma slice0_elem_of {A : Type} (l : list A) (k : Z) (x : A) :
  x ∈ slice0 l k -> x ∈ l.
Proof.
  unfold slice0. destruct (k <? 0); intros Hx;
    exact (elem_of_prefix _ _ _ Hx (prefix_take _ _)).
Qed.

Lemma diffFilesAll_elem_of (s : state) (f : string) :
  f ∈ diffFilesAll s <-> f ∈ readdir (diff_files s) /\ endsWith f ".diff.png" = true.
Proof.
  unfold diffFilesAll. rewrite !list_elem_of_In.
  exact (filter_In (fun g => endsWith g ".diff.png") f (readdir (diff_files s))).
Qed.

Hypothesis readdir_ok : readdir_lists_files.
Hypothesis zip_works : zip_ok E = true.

Lemma build_attachments_eval (s : state) :
  build_attachments cfg E s
  = (Ok (attachments_of cfg s, attachment_bytes cfg s), after_zip s).
Proof.
  unfold build_attachments, attachments_of, attachment_bytes, after_zip.
  unfold bind at 1, get at 1.
  destruct (diffFilesAll s) as [|f0 fs0] eqn:Hfs; [reflexivity|].
  assert (Hzip : createZip E DIFF_DIR zipPath s = (Ok tt, zipped s)).
  { unfold createZip, bind, get. now rewrite zip_works. }
  rewrite (bind_Ok _ _ _ _ _ Hzip).
  assert (Hst : stat_size zipPath (zipped s) = (Ok (Z.of_nat (length (archive s))), zipped s)).
  { apply stat_size_eval. unfold zipped. cbn [zipPath fst snd].
    now rewrite files_set_files, lookup_insert_eq. }
  rewrite (bind_Ok _ _ _ _ _ Hst).
  rewrite attach_pngs_eval.
  - unfold selected_pngs. rewrite Hfs. reflexivity.
  - intros f Hf. apply slice0_elem_of in Hf. rewrite <- Hfs in Hf.
    apply diffFilesAll_elem_of in Hf as [Hf _].
    apply readdir_ok in Hf. exact Hf.
Qed.

(** Every attachment is a file that exists once they are built. *)
Lemma attachments_exist (s : state) (a : attachment) :
  a ∈ attachments_of cfg s ->
  is_Some (files (att_path a).1 (after_zip s) !! (att_path a).2).
Proof.
  unfold attachments_of, after_zip.
  destruct (diffFilesAll s) as [|f0 fs0] eqn:Hfs; [intros Ha; inversion Ha|].
  intros Ha. apply elem_of_cons in Ha as [->|Ha].
  - unfold zipped. cbn [zip_attachment att_path zipPath fst snd].
    rewrite files_set_files, lookup_insert_eq. eauto.
  - apply list_elem_of_fmap in Ha as (f & -> & Hf).
    cbn [png_attachment att_path fst snd].
    replace (files DIFF_DIR (zipped s)) with (diff_files s)
      by (unfold zipped; now rewrite files_set_files_ne by discriminate).
    apply readdir_ok.
    unfold selected_pngs in Hf.
    pose proof (elem_of_prefix _ _ _ Hf (select_pngs_prefix _ _ _ _)) as Hf'.
    apply slice0_elem_of in Hf'. now apply diffFilesAll_elem_of in Hf' as [? _].
Qed.

(** *** Sending the e-mail *)

Lemma mustEnv_eval (name v : string) (s : state) :
  env_value E name = Some v -> mustEnv E name s = (Ok v, s).
Proof.
  unfold env_value, mustEnv. destruct (env E !! name) as [w|]; [|discriminate].
  destruct (String.eqb w ""); [discriminate|]. now intros [= ->].
Qed.

Lemma env_or_value (name dflt : string) :
  env_or E name dflt = default dflt (env_value E name).
Proof.
  unfold env_or, env_value. destruct (env E !! name) as [w|]; [|reflexivity].
  now destruct (String.eqb w "").
Qed.

Lemma read_attachments_eval (atts : list attachment) (s : state) :
  (forall a, a ∈ atts -> is_Some (files (att_path a).1 s !! (att_path a).2)) ->
  mapM (fun a => let* buf := readFile (att_path a) in ret (att_name a, buf)) atts s
  = (Ok (map (fun a => (att_name a, attachment_content s a)) atts), s).
Proof.
  induction atts as [|a atts IH]; intros Hex; [reflexivity|].
  destruct (Hex a ltac:(left)) as [buf Hbuf].
  cbn [mapM map].
  assert (Ha : (let* buf := readFile (att_path a) in ret (att_name a, buf)) s
               = (Ok (att_name a, attachment_content s a), s)).
  { unfold bind, readFile, attachment_content. now rewrite Hbuf. }
  rewrite (bind_Ok _ _ _ _ _ Ha).
  rewrite (bind_Ok _ _ _ _ _ (IH (fun b Hb => Hex b ltac:(now right)))).
  reflexivity.
Qed.

Hypothesis mail_ok : mail_configured E.

Lemma sendMailgunEmail_eval (subject text : string) (atts : list attachment) (s : state) :
  (forall a, a ∈ atts -> is_Some (files (att_path a).1 s !! (att_path a).2)) ->
  sendMailgunEmail E subject text atts s
  = (if res_ok E then Ok tt else Threw MailgunSendFailed,
     add_event (MailgunPost (posted_form E subject text atts s)) s).
Proof.
  intros Hex. destruct mail_ok as ([key Hkey] & [domain Hdom] & [to Hto]).
  unfold sendMailgunEmail.
  rewrite (bind_Ok _ _ _ _ _ (mustEnv_eval _ _ s Hkey)).
  rewrite (bind_Ok _ _ _ _ _ (mustEnv_eval _ _ s Hdom)).
  rewrite (bind_Ok _ _ _ _ _ (mustEnv_eval _ _ s Hto)).
  rewrite (bind_Ok _ _ _ _ _ (read_attachments_eval atts s Hex)).
  rewrite !env_or_value.
  unfold bind, emit, modify, posted_form. rewrite Hkey, Hdom, Hto. cbn [default].
  now destruct (res_ok E).
Qed.

(** The e-mail of a run whose loop ended in state [s] (after commit). *)
Lemma notify_step_eval (s : state) :
  notify_step cfg E s
  = (if res_ok E then Ok tt else Threw MailgunSendFailed,
     add_event (MailgunPost (notification cfg E s)) (after_zip s)).
Proof.
  unfold notify_step, notification.
  rewrite (bind_Ok _ _ _ _ _ (build_attachments_eval s)).
  unfold bind at 1, get at 1.
  replace (changes (after_zip s)) with (changes s).
  2:{ unfold after_zip, zipped. destruct (diffFilesAll s); [reflexivity|].
      symmetry. apply changes_set_files. }
  apply sendMailgunEmail_eval. apply attachments_exist.
Qed.

Lemma log_after_zip (s : state) : log (after_zip s) = log s.
Proof. unfold after_zip, zipped. destruct (diffFilesAll s); [reflexivity|apply log_set_files]. Qed.

Hypothesis git_ok : git_works E.

Lemma exec_git_eval (c : git_command) (s : state) :
  exists out, git E c = Some out /\ exec_git E c s = (Ok out, add_event (Git c) s).
Proof.
  destruct (git_ok c) as [out Hout]. exists out. split; [exact Hout|].
  unfold exec_git, bind, emit, modify. now rewrite Hout.
Qed.

Lemma gitCommitIfNeeded_eval (message : string) (s : state) :
  exists b,
    gitCommitIfNeeded E message s
    = (Ok b, mkState (baselines s) (run_files s) (diff_files s) (tmp_files s)
               (changes s) (seededBaselines s) (log s ++ git_events E message)).
Proof.
  unfold gitCommitIfNeeded, git_events.
  destruct (exec_git_eval GitStatus s) as (status & Hs & Hst).
  rewrite (bind_Ok _ _ _ _ _ Hst), Hs.
  destruct (blank status).
  - exists false. reflexivity.
  - destruct (exec_git_eval GitAdd (add_event (Git GitStatus) s)) as (o1 & _ & H1).
    rewrite (bind_Ok _ _ _ _ _ H1).
    destruct (exec_git_eval (GitCommit message)
                (add_event (Git GitAdd) (add_event (Git GitStatus) s))) as (o2 & _ & H2).
    rewrite (bind_Ok _ _ _ _ _ H2).
    destruct (exec_git_eval GitPush
                (add_event (Git (GitCommit message))
                   (add_event (Git GitAdd) (add_event (Git GitStatus) s)))) as (o3 & _ & H3).
    rewrite (bind_Ok _ _ _ _ _ H3).
    exists true. unfold ret, add_event.
    cbn [log baselines run_files diff_files tmp_files changes seededBaselines].
    now rewrite <- !app_assoc.
Qed.

Lemma commit_step_eval (s : state) : commit_step E s = (Ok tt, committed E s).
Proof.
  unfold commit_step, committed, commit_events, commit_message.
  unfold bind at 1, get at 1.
  destruct (_ || _).
  - destruct (gitCommitIfNeeded_eval
                (if (0 <? seededBaselines s)%nat && (length (changes s) =? 0)%nat
                 then "Seed baselines (" +:+ pretty (seededBaselines s) +:+ ")"
                 else "Update baselines (" +:+ pretty (length (changes s)) +:+ " change(s))")
                s) as (b & Hb).
    now rewrite (bind_Ok _ _ _ _ _ Hb).
  - unfold ret. destruct s. cbn. now rewrite app_nil_r.
Qed.

(** A run whose loop meets no fatal error, with git, zip and the mail
    settings in order: how it ends and what it appends to the log. *)
Lemma main_log (targets : list target) (s s2 : state) (outs : list outcome) :
  process_targets cfg targets (session_opened s) = (Ok outs, s2) ->
  (main cfg E targets s).1
  = (match changes s2 with
     | [] => Ok tt
     | _ :: _ => if res_ok E then Ok tt else Threw MailgunSendFailed
     end) /\
  log (main cfg E targets s).2 = log s ++ run_events cfg E s2.
Proof.
  intros Hloop. rewrite main_eval, Hloop, commit_step_eval.
  pose proof (process_targets_log targets (session_opened s)) as Hlog.
  rewrite Hloop in Hlog. cbn [snd session_opened log] in Hlog.
  unfold run_events.
  assert (Hc : log (committed E (session_closed s2))
               = log s ++ [BrowserLaunch; NewContext; NewPage; PageClose; ContextClose;
                           BrowserClose] ++ commit_events E s2).
  { cbn [committed session_closed log]. rewrite Hlog.
    replace (commit_events E (session_closed s2)) with (commit_events E s2) by reflexivity.
    now rewrite <- !app_assoc. }
  cbn [committed changes session_closed].
  destruct (changes s2) as [|c cs] eqn:Hch; cbn [length Nat.eqb].
  - cbn [fst snd]. split; [reflexivity|]. now rewrite Hc, app_nil_r.
  - rewrite notify_step_eval. cbn [fst snd add_event log].
    split; [reflexivity|]. rewrite log_after_zip, Hc. now rewrite <- !app_assoc.
Qed.

End MainFacts.

(** * The run orchestrator, target by target *)

Section Orchestrator.
Context `{Platform}.
Variable cfg : config.

(** C1.  A capture compared against an existing baseline ends
    [Changed] exactly when the computed ratio is [>=] the configured
    threshold and [Unchanged] exactly when it is [<] the threshold; a
    ratio equal to the threshold is a change. *)
Theorem threshold_decision (t : target) (s : state) (slug : string)
    (cur base : buffer) (d : DiffResult) :
  decodes_well_formed -> pixelmatch_counts_differing ->
  is_nan (changeThresholdRatio cfg) = false ->
  safeSlug (url t) = Ok slug ->
  captured t = inr cur ->
  baselines s !! (slug +:+ ".png") = Some base ->
  diffPngs base cur (pixelmatchThreshold cfg) = Ok d ->
  ((process_target cfg t s).1 = Ok Changed
     <-> ge (ratio d) (changeThresholdRatio cfg) = true) /\
  ((process_target cfg t s).1 = Ok Unchanged
     <-> lt (ratio d) (changeThresholdRatio cfg) = true) /\
  (eqb (ratio d) (changeThresholdRatio cfg) = true ->
     (process_target cfg t s).1 = Ok Changed).
Proof.
  intros Hdec Hpm HT Hs Hc Hb Hd.
  destruct (diffPngs_ratio Hpm Hdec base cur _ d Hd) as (_ & _ & _ & Hnan).
  pose proof (JsNumberFacts.ge_false_iff_lt _ _ Hnan HT) as Hlt.
  rewrite (process_target_compared cfg t s slug cur base d Hs Hc Hb Hd).
  split; [|split].
  - destruct (ge (ratio d) (changeThresholdRatio cfg)); cbn [fst];
      split; congruence.
  - rewrite <- Hlt.
    destruct (ge (ratio d) (changeThresholdRatio cfg)); cbn [fst];
      split; congruence.
  - intros Heq. now rewrite (JsNumberFacts.eqb_ge _ _ Heq).
Qed.

(** C2.  A target whose comparison ends [Changed]: the diff image is
    stored under the target's name in the diff directory, one entry
    with the ratio and the two pixel counts is appended to the
    report, and the baseline file holds the bytes just captured. *)
Theorem changed_persists_and_replaces (t : target) (s : state) :
  (process_target cfg t s).1 = Ok Changed ->
  exists (slug : string) (cur base : buffer) (d : DiffResult),
    safeSlug (url t) = Ok slug /\
    captured t = inr cur /\
    baselines s !! (slug +:+ ".png") = Some base /\
    diffPngs base cur (pixelmatchThreshold cfg) = Ok d /\
    let s' := (process_target cfg t s).2 in
    diff_files s' !! (slug +:+ ".diff.png") = Some (diffBuf d) /\
    changes s'
    = changes s ++ [VisualChange (url t) (ratio d) (diffPixels d) (totalPixels d)] /\
    baselines s' !! (slug +:+ ".png") = Some cur.
Proof.
  intros Hout. pose proof (process_target_step cfg t s) as Hstep.
  rewrite Hout in Hstep.
  inversion Hstep as [| | | | |slug cur base d Hs Hc Hb Hd Hge Hr Hs'].
  exists slug, cur, base, d. repeat (split; [assumption|]).
  cbv zeta. split; [|split].
  - change (files DIFF_DIR
              (written (baseline_path slug) cur (now_baseline t)
                 (add_change (VisualChange (url t) (ratio d) (diffPixels d) (totalPixels d))
                    (written (diff_path slug) (diffBuf d) (now_diff t)
                       (captured_state slug t cur s))))
            !! (diff_path slug).2 = Some (diffBuf d)).
    rewrite written_files_ne by discriminate.
    apply (written_lookup (diff_path slug)).
  - rewrite written_changes. cbn [changes add_change].
    rewrite written_changes. unfold captured_state. now rewrite written_changes.
  - apply (written_lookup (baseline_path slug)).
Qed.

(** C3.  A target without a baseline whose capture succeeds: the
    capture becomes the baseline, whatever its bytes are, and the
    report is left as it was.  Nothing is compared: the step ends
    [Seeded] on every platform that names the target alike, whatever
    its decoder and its differ do. *)
Theorem seeds_absent_baseline (t : target) (s : state) (slug : string) (cur : buffer) :
  safeSlug (url t) = Ok slug ->
  captured t = inr cur ->
  baselines s !! (slug +:+ ".png") = None ->
  (process_target cfg t s).1 = Ok Seeded /\
  (let s' := (process_target cfg t s).2 in
   baselines s' !! (slug +:+ ".png") = Some cur /\
   changes s' = changes s /\
   diff_files s' = diff_files s /\
   seededBaselines s' = (seededBaselines s + 1)%nat) /\
  (forall Q : Platform,
     @safeSlug Q (url t) = Ok slug ->
     @process_target Q cfg t s = process_target cfg t s).
Proof.
  intros Hs Hc Hb.
  rewrite (process_target_seeded cfg t s slug cur Hs Hc Hb). cbn [fst snd].
  split; [reflexivity|]. split.
  - cbv zeta. cbn [baselines changes diff_files seededBaselines add_seed].
    split; [|split; [|split]].
    + apply (written_lookup (baseline_path slug)).
    + rewrite written_changes. unfold captured_state. now rewrite written_changes.
    + change (files DIFF_DIR
                (written (baseline_path slug) cur (now_baseline t)
                   (captured_state slug t cur s)) = files DIFF_DIR s).
      rewrite written_files_ne by discriminate.
      unfold captured_state. now rewrite written_files_ne by discriminate.
    + rewrite written_seeded. unfold captured_state. now rewrite written_seeded.
  - intros Q HQ. now rewrite (@process_target_seeded Q cfg t s slug cur HQ Hc Hb).
Qed.

(** C7.  A target whose comparison gives a ratio below the threshold:
    the step ends [Unchanged] in the state reached once the capture
    was stored in the run directory; baselines, diff images, report
    and seed counter are those of before. *)
Theorem unchanged_mutates_nothing (t : target) (s : state) (slug : string)
    (cur base : buffer) (d : DiffResult) :
  safeSlug (url t) = Ok slug ->
  captured t = inr cur ->
  baselines s !! (slug +:+ ".png") = Some base ->
  diffPngs base cur (pixelmatchThreshold cfg) = Ok d ->
  lt (ratio d) (changeThresholdRatio cfg) = true ->
  process_target cfg t s = (Ok Unchanged, captured_state slug t cur s) /\
  let s' := (process_target cfg t s).2 in
  baselines s' = baselines s /\
  diff_files s' = diff_files s /\
  tmp_files s' = tmp_files s /\
  changes s' = changes s /\
  seededBaselines s' = seededBaselines s /\
  log s' = log s.
Proof.
  intros Hs Hc Hb Hd Hlt.
  assert (Hge : ge (ratio d) (changeThresholdRatio cfg) = false).
  { unfold lt, SFltb in Hlt. unfold ge, SFleb.
    destruct (SFcompare (ratio d) (changeThresholdRatio cfg)) as [c|] eqn:Hcmp;
      [|discriminate].
    rewrite (JsNumberFacts.SFcompare_antisym _ _ _ Hcmp).
    now destruct c. }
  rewrite (process_target_compared cfg t s slug cur base d Hs Hc Hb Hd), Hge.
  split; [reflexivity|]. cbv zeta. cbn [snd]. unfold captured_state.
  split; [|split; [|split; [|split; [|split]]]].
  - apply (written_files_ne (current_path slug) cur _ s BASELINES_DIR). discriminate.
  - apply (written_files_ne (current_path slug) cur _ s DIFF_DIR). discriminate.
  - apply (written_files_ne (current_path slug) cur _ s TMP_DIR). discriminate.
  - apply written_changes.
  - apply written_seeded.
  - apply written_log.
Qed.

(** C9.  An image compared with itself, at any pixel tolerance: no
    pixel differs, the ratio is zero, and a target whose capture is
    its baseline ends [Unchanged] at every threshold above zero. *)
Theorem identical_images_unchanged (t : target) (s : state) (slug : string)
    (x : buffer) (img : PNG) :
  decodes_well_formed -> pixelmatch_counts_differing ->
  PNG_sync_read x = Some img ->
  (exists d, diffPngs x x (pixelmatchThreshold cfg) = Ok d /\
             diffPixels d = 0%nat /\ ratio d = zero) /\
  (lt zero (changeThresholdRatio cfg) = true ->
   safeSlug (url t) = Ok slug ->
   captured t = inr x ->
   baselines s !! (slug +:+ ".png") = Some x ->
   (process_target cfg t s).1 = Ok Unchanged).
Proof.
  intros Hdec Hpm Hx.
  destruct (diffImages_same Hpm img (pixelmatchThreshold cfg) (Hdec _ _ Hx))
    as (d & Hd & Hpix & _ & Hratio).
  assert (Hdiff : diffPngs x x (pixelmatchThreshold cfg) = Ok d).
  { unfold diffPngs, pngFromBuffer. now rewrite Hx. }
  split; [now exists d|].
  intros HT Hs Hc Hb.
  rewrite (process_target_compared cfg t s slug x x d Hs Hc Hb Hdiff).
  now rewrite Hratio, (JsNumberFacts.zero_ge_pos _ HT).
Qed.

End Orchestrator.

(** * The image differ *)

Section DifferClaims.
Context `{Platform}.

Local Open Scope nat_scope.

(** C4 (as amended).  For two images whose padded canvas is below
    [2^31] bytes (beyond, the 32-bit byte offsets of [PNG.bitblt]
    wrap), [diffPngs] compares the two images on canvases whose width
    and height are the maxima of the widths and heights of the inputs:
    each canvas is its image laid on the top-left corner of a blank
    image of that size; the pixels counted are those [pixelmatch]
    counts on the two canvases, and the ratio is their number over the
    area of the canvas.  When the current image is the baseline with
    rows added below it, the comparison returns, only pixels of the
    added rows can be counted, and the total is the area of the
    current image: the count is at most the added area. *)
Theorem diff_pads_to_max_canvas (baselineBuf currentBuf : buffer) (img1 img2 : PNG)
    (thr : number) :
  decodes_well_formed -> pixelmatch_counts_differing ->
  PNG_sync_read baselineBuf = Some img1 ->
  PNG_sync_read currentBuf = Some img2 ->
  let W := Nat.max (width img1) (width img2) in
  let H' := Nat.max (height img1) (height img2) in
  (Z.of_nat (4 * (W * H')) < 2 ^ 31)%Z ->
  (forall d, diffPngs baselineBuf currentBuf thr = Ok d ->
     exists a b : PNG,
       padTo W H' img1 = Ok a /\ padTo W H' img2 = Ok b /\
       top_left_on_blank img1 a W H' /\ top_left_on_blank img2 b W H' /\
       diffPixels d
       = (pixelmatch (data a) (data b) (replicate (4 * (W * H')) Byte.x00) W H' thr).2 /\
       totalPixels d = W * H' /\
       ratio d = div (of_Z (Z.of_nat (diffPixels d))) (of_Z (Z.of_nat (totalPixels d)))) /\
  (width img1 = width img2 -> height img1 < height img2 ->
   (exists extra, data img2 = data img1 ++ extra) ->
   exists d, diffPngs baselineBuf currentBuf thr = Ok d /\
             diffPixels d <= width img2 * (height img2 - height img1) /\
             totalPixels d = width img2 * height img2).
Proof.
  intros Hdec Hpm H1 H2 W H' Hsmall.
  pose proof (Hdec _ _ H1) as Hwf1. pose proof (Hdec _ _ H2) as Hwf2.
  assert (Hdiff : diffPngs baselineBuf currentBuf thr = diffImages img1 img2 thr).
  { unfold diffPngs, pngFromBuffer. now rewrite H1, H2. }
  rewrite Hdiff. split.
  - intros d Hd.
    destruct (diffImages_eval img1 img2 thr Hwf1 Hwf2 Hsmall)
      as (a & b & Ha & Hb & Hta & Htb & Heq).
    exists a, b. cbv zeta in Heq. rewrite Heq in Hd. injection Hd as <-.
    repeat (split; [assumption|]). cbn [diffPixels totalPixels ratio].
    split; [reflexivity|]. split; reflexivity.
  - intros Hw Hh [extra Hextra].
    apply (diffImages_taller Hpm img1 img2 extra thr Hwf1 Hwf2); try assumption.
    subst W H'. replace (width img2) with (Nat.max (width img1) (width img2)) at 1 by lia.
    replace (height img2) with (Nat.max (height img1) (height img2)) at 1 by lia.
    exact Hsmall.
Qed.

End DifferClaims.

(** * The run as a whole *)

Section RunClaims.
Context `{Platform}.
Variable cfg : config.
Variable E : environment.

(** C5 (as amended).  When zip works, the attachments of the e-mail
    are built without an error, and they are the archive,
    present exactly when the diff directory holds a diff image and
    attached whatever its size, followed by diff images in the order of
    the directory listing: the first of [diffFilesAll.slice(0,
    maxPngs)], each added while the size of the archive plus the images
    stays within [maxBytes]; the first image that does not fit ends
    the selection, and nothing later is attached.  So at most
    [min(N, K)] images are attached, and the attachments are within
    [maxBytes] whenever the archive alone is.  With the mail settings
    in place, these are the attachments of the form posted. *)
Theorem attachments_within_budget (s : state) :
  readdir_lists_files -> zip_ok E = true ->
  let fs := diffFilesAll s in
  let sel := selected_pngs cfg s in
  let zipSize := Z.of_nat (length (archive s)) in
  build_attachments cfg E s
  = (Ok (attachments_of cfg s, attachment_bytes cfg s), after_zip s) /\
  (zip_attachment ∈ attachments_of cfg s
   <-> exists f, is_Some (diff_files s !! f) /\ endsWith f ".diff.png" = true) /\
  (fs = [] -> attachments_of cfg s = [] /\ attachment_bytes cfg s = 0) /\
  (fs <> [] ->
   attachments_of cfg s = zip_attachment :: map png_attachment sel /\
   attachment_bytes cfg s = zipSize + total_size (diff_files s) sel) /\
  sel `prefix_of` slice0 fs (maxPngs cfg) /\
  (0 <= maxPngs cfg ->
   (length sel <= Nat.min (length fs) (Z.to_nat (maxPngs cfg)))%nat) /\
  (sel <> [] -> zipSize + total_size (diff_files s) sel <= maxBytes cfg) /\
  (zipSize <= maxBytes cfg -> attachment_bytes cfg s <= maxBytes cfg) /\
  (forall f, sel ++ [f] `prefix_of` slice0 fs (maxPngs cfg) ->
             zipSize + total_size (diff_files s) sel + file_size (diff_files s) f
             > maxBytes cfg) /\
  (mail_configured E ->
   (notify_step cfg E s).2
   = add_event (MailgunPost (notification cfg E s)) (after_zip s) /\
   map fst (form_attachments (notification cfg E s))
   = map att_name (attachments_of cfg s)).
Proof.
  intros Hdir Hzip fs sel zipSize.
  assert (Hpre : sel `prefix_of` slice0 fs (maxPngs cfg)) by apply select_pngs_prefix.
  assert (Hbud : sel <> [] -> zipSize + total_size (diff_files s) sel <= maxBytes cfg).
  { intros Hne. pose proof (select_pngs_budget _ _ _ _ Hne) as Hb.
    fold (selected_pngs cfg s) in Hb. subst zipSize sel. lia. }
  split; [|split; [|split; [|split; [|split; [|split; [|split; [|split; [|split]]]]]]]].
  - exact (build_attachments_eval cfg E Hdir Hzip s).
  - unfold attachments_of. split.
    + destruct (diffFilesAll s) as [|f fs0] eqn:Hfs; [intros Hin; inversion Hin|].
      intros _. exists f.
      assert (Hf : f ∈ diffFilesAll s) by (rewrite Hfs; left).
      apply diffFilesAll_elem_of in Hf as [Hf Hsuf]. split; [now apply Hdir|exact Hsuf].
    + intros (f & Hf & Hsuf).
      assert (Hin : f ∈ diffFilesAll s).
      { apply diffFilesAll_elem_of. split; [now apply Hdir|exact Hsuf]. }
      destruct (diffFilesAll s); [inversion Hin|left].
  - unfold attachments_of, attachment_bytes. subst fs. now intros ->.
  - unfold attachments_of, attachment_bytes. subst fs sel zipSize.
    destruct (diffFilesAll s); [congruence|]. intros _. split; [reflexivity|lia].
  - exact Hpre.
  - intros HK. apply prefix_length in Hpre. etransitivity; [exact Hpre|].
    unfold slice0. rewrite (proj2 (Z.ltb_ge _ _) HK), length_take. lia.
  - exact Hbud.
  - intros Hfit. unfold attachment_bytes. fold fs sel.
    destruct fs; [pose proof (Nat2Z.is_nonneg (length (archive s))); subst zipSize; lia|].
    destruct (decide (sel = [])) as [Hnil|Hne].
    + rewrite Hnil. cbn. subst zipSize. lia.
    + specialize (Hbud Hne). subst zipSize. lia.
  - intros f Hf. pose proof (select_pngs_stop _ _ _ _ f Hf) as Hstop.
    fold (selected_pngs cfg s) in Hstop. subst zipSize sel. lia.
  - intros Hmail. split.
    + now rewrite (notify_step_eval cfg E Hdir Hzip Hmail s).
    + unfold notification, posted_form. cbn [form_attachments].
      rewrite map_map. reflexivity.
Qed.

(** C6 (as amended).  No run sends more than one notification,
    however many targets changed.  A run whose loop over the targets
    is cut short by a fatal error, or ends with an empty report, sends
    none.  A run whose loop ends with a report of at least one entry,
    failure or change, sends exactly one, provided nothing between the
    loop and the e-mail fails (git, zip, the mail settings). *)
Theorem one_notification_per_run (targets : list target) (s : state) :
  (notifications (log (main cfg E targets s).2) <= notifications (log s) + 1)%nat /\
  (forall e s2,
     process_targets cfg targets (session_opened s) = (Threw e, s2) ->
     notifications (log (main cfg E targets s).2) = notifications (log s)) /\
  (forall outs s2,
     process_targets cfg targets (session_opened s) = (Ok outs, s2) ->
     changes s2 = [] ->
     notifications (log (main cfg E targets s).2) = notifications (log s)) /\
  (forall outs s2,
     process_targets cfg targets (session_opened s) = (Ok outs, s2) ->
     changes s2 <> [] ->
     readdir_lists_files -> collaborators_respond E ->
     notifications (log (main cfg E targets s).2) = (notifications (log s) + 1)%nat).
Proof.
  destruct (main_log_any cfg E targets s) as (rest & Hlog & Hle & Hrest).
  split; [|split; [|split]].
  - rewrite Hlog, !notifications_app. cbn. lia.
  - intros e s2 Hloop. rewrite Hloop in Hrest. destruct Hrest as [-> _].
    rewrite Hlog, !notifications_app. cbn. lia.
  - intros outs s2 Hloop Hempty. rewrite Hloop in Hrest. destruct Hrest as [_ Hzero].
    rewrite Hlog, !notifications_app, (Hzero Hempty). cbn. lia.
  - intros outs s2 Hloop Hne Hdir (Hgit & Hzip & Hmail).
    destruct (main_log cfg E Hdir Hzip Hmail Hgit targets s s2 outs Hloop) as [_ Hlog'].
    rewrite Hlog', notifications_app. f_equal. unfold run_events.
    rewrite !notifications_app.
    replace (notifications (commit_events E s2)) with 0%nat.
    + destruct (changes s2); [congruence|reflexivity].
    + unfold commit_events, git_events.
      destruct (commit_message s2); [|reflexivity].
      destruct (git E GitStatus) as [status|]; [|reflexivity].
      now destruct (blank status).
Qed.

(** C8 (as amended).  In every run whose loop over the targets meets
    no fatal error (captures that fail are caught and recorded, and do
    not count as one), page, context and browser are closed, in this
    order, right after the loop. *)
Theorem session_closed_after_loop (targets : list target) (s s2 : state)
    (outs : list outcome) :
  process_targets cfg targets (session_opened s) = (Ok outs, s2) ->
  exists rest,
    log (main cfg E targets s).2
    = log s ++ [BrowserLaunch; NewContext; NewPage]
        ++ [PageClose; ContextClose; BrowserClose] ++ rest.
Proof.
  intros Hloop.
  destruct (main_log_any cfg E targets s) as (rest & Hlog & _ & Hrest).
  rewrite Hloop in Hrest. destruct Hrest as [[rest' ->] _].
  exists rest'. exact Hlog.
Qed.

(** C10.  A run whose report holds only capture failures, [N] of them
    ([N] at least 1), and which seeded no baseline: the commit step is
    the call of [gitCommitIfNeeded] with the message "Update baselines
    (N change(s))", and, nothing failing between the loop and the
    e-mail, the log shows its git commands followed by the one e-mail,
    whose subject carries the same total: the length of the report,
    failures and changes alike. *)
Theorem failures_counted_as_changes (targets : list target) (s s2 : state)
    (outs : list outcome) :
  readdir_lists_files -> collaborators_respond E ->
  process_targets cfg targets (session_opened s) = (Ok outs, s2) ->
  changes s2 <> [] ->
  Forall (fun c => is_capture_failure c = true) (changes s2) ->
  seededBaselines s2 = 0%nat ->
  let N := length (List.filter is_capture_failure (changes s2)) in
  let msg := "Update baselines (" +:+ pretty N +:+ " change(s))" in
  N = length (changes s2) /\
  commit_step E (session_closed s2)
  = (gitCommitIfNeeded E msg >> ret tt) (session_closed s2) /\
  exists form,
    log (main cfg E targets s).2
    = log s ++ [BrowserLaunch; NewContext; NewPage; PageClose; ContextClose; BrowserClose]
        ++ git_events E msg ++ [MailgunPost form] /\
    form_subject form = "Milltech visual change detected (" +:+ pretty N +:+ ")".
Proof.
  intros Hdir (Hgit & Hzip & Hmail) Hloop Hne Hall Hseed N msg.
  assert (HN : N = length (changes s2)).
  { subst N. clear Hne Hloop msg. induction Hall as [|c cs Hc _ IH]; [reflexivity|].
    cbn [List.filter]. rewrite Hc. cbn [length]. now rewrite IH. }
  assert (Hmsg : commit_message s2 = Some msg).
  { unfold commit_message. rewrite Hseed. subst msg. rewrite HN.
    destruct (changes s2); [congruence|reflexivity]. }
  split; [exact HN|]. split.
  - unfold commit_step. unfold bind at 1, get at 1.
    cbn [session_closed seededBaselines changes]. rewrite Hseed. subst msg. rewrite HN.
    destruct (changes s2); [congruence|reflexivity].
  - destruct (main_log cfg E Hdir Hzip Hmail Hgit targets s s2 outs Hloop) as [_ Hlog].
    exists (notification cfg E (committed E (session_closed s2))).
    split.
    + rewrite Hlog. unfold run_events, commit_events. rewrite Hmsg.
      destruct (changes s2) as [|c cs]; [congruence|]. reflexivity.
    + unfold notification, posted_form. cbn [form_subject committed changes session_closed].
      now rewrite HN.
Qed.

End RunClaims.

(** * Slugs *)

Section SlugFacts.

Lemma list_ascii_of_string_app (a b : string) :
  list_ascii_of_string (a +:+ b) = list_ascii_of_string a ++ list_ascii_of_string b.
Proof.
  induction a as [|c a IH]; [reflexivity|].
  change (c :: list_ascii_of_string (a +:+ b)
          = c :: (list_ascii_of_string a ++ list_ascii_of_string b)).
  now rewrite IH.
Qed.

Lemma string_of_list_ascii_app (a b : list Ascii.ascii) :
  string_of_list_ascii (a ++ b) = string_of_list_ascii a +:+ string_of_list_ascii b.
Proof.
  induction a as [|c a IH]; [reflexivity|].
  change (String c (string_of_list_ascii (a ++ b))
          = String c (string_of_list_ascii a +:+ string_of_list_ascii b)).
  now rewrite IH.
Qed.

Lemma dash_runs_single (b : bool) (s : list Ascii.ascii) :
  single_dashes b (dash_runs b s) = true.
Proof.
  revert b. induction s as [|x s IH]; intros b; cbn [dash_runs]; [reflexivity|].
  destruct (is_alnum x) eqn:Hx.
  - cbn [single_dashes].
    destruct (Ascii.eqb x dash) eqn:Hd; [|apply IH].
    apply Ascii.eqb_eq in Hd. subst x. discriminate.
  - destruct b; [apply IH|]. cbn [single_dashes]. rewrite Ascii.eqb_refl. apply IH.
Qed.

Lemma squeeze_dashes_single (b : bool) (l : list Ascii.ascii) :
  single_dashes b l = true -> squeeze_dashes b l = l.
Proof.
  revert b. induction l as [|x l IH]; intros b; cbn; [reflexivity|].
  destruct (Ascii.eqb x dash) eqn:Hd.
  - intros Hs. apply andb_true_iff in Hs as [Hb Hs].
    destruct b; [discriminate|]. apply Ascii.eqb_eq in Hd. subst x.
    now rewrite (IH true Hs).
  - intros Hs. now rewrite (IH false Hs).
Qed.

Lemma single_dashes_no_pair (b : bool) (l l1 l2 : list Ascii.ascii) :
  single_dashes b l = true -> l <> l1 ++ dash :: dash :: l2.
Proof.
  revert b l. induction l1 as [|y l1 IH]; intros b l Hs ->; cbn in Hs.
  - rewrite Ascii.eqb_refl in Hs. apply andb_true_iff in Hs as [_ Hs].
    discriminate.
  - destruct (Ascii.eqb y dash).
    + apply andb_true_iff in Hs as [_ Hs]. now apply (IH true _ Hs).
    + now apply (IH false _ Hs).
Qed.

Lemma dash_runs_chars (b : bool) (s : list Ascii.ascii) :
  Forall (fun c => is_alnum c = true \/ c = dash) (dash_runs b s).
Proof.
  revert b. induction s as [|x s IH]; intros b; cbn [dash_runs]; [constructor|].
  destruct (is_alnum x) eqn:Hx; [constructor; [now left|apply IH]|].
  destruct b; [apply IH|constructor; [now right|apply IH]].
Qed.

(** [trim_dash] keeps a segment of its argument, with no dash at
    either end when no two dashes are adjacent. *)
Lemma trim_dash_ends (l : list Ascii.ascii) :
  (forall l1 l2, l <> l1 ++ dash :: dash :: l2) ->
  exists pre post,
    l = pre ++ trim_dash l ++ post /\
    head (trim_dash l) <> Some dash /\ last (trim_dash l) <> Some dash.
Proof.
  intros Hno. unfold trim_dash.
  set (s1 := match l with
             | [] => []
             | x :: rest => if Ascii.eqb x dash then rest else l
             end).
  assert (H1 : exists pre, l = pre ++ s1 /\ head s1 <> Some dash).
  { subst s1. destruct l as [|x rest]; [exists []; split; [reflexivity|discriminate]|].
    destruct (Ascii.eqb x dash) eqn:Hd.
    - apply Ascii.eqb_eq in Hd. subst x. exists [dash]. split; [reflexivity|].
      destruct rest as [|y rest]; [discriminate|]. cbn. intros [= ->].
      now apply (Hno [] rest).
    - exists []. split; [reflexivity|]. cbn. intros [= ->].
      now rewrite Ascii.eqb_refl in Hd. }
  destruct H1 as (pre & Hl & Hhead). clearbody s1.
  destruct (rev s1) as [|x rest] eqn:Hrev.
  - exists pre, []. apply (f_equal (@rev _)) in Hrev. rewrite rev_involutive in Hrev.
    cbn in Hrev. subst s1. repeat split; try discriminate. now rewrite Hl.
  - assert (Hs1 : s1 = rev rest ++ [x]).
    { apply (f_equal (@rev _)) in Hrev. now rewrite rev_involutive in Hrev. }
    destruct (Ascii.eqb x dash) eqn:Hd.
    + apply Ascii.eqb_eq in Hd. subst x. exists pre, [dash].
      split; [now rewrite Hl, Hs1|]. split.
      * destruct (rev rest) as [|y r] eqn:Hr; [discriminate|].
        rewrite Hs1 in Hhead. exact Hhead.
      * destruct rest as [|y rest']; [discriminate|]. cbn [rev].
        rewrite last_snoc. intros [= ->].
        apply (Hno (pre ++ rev rest') []).
        rewrite Hl, Hs1. cbn [rev]. now rewrite <- !app_assoc.
    + exists pre, []. rewrite app_nil_r. split; [exact Hl|]. split; [exact Hhead|].
      rewrite Hs1, last_snoc. intros [= ->]. now rewrite Ascii.eqb_refl in Hd.
Qed.

Lemma to_lower_slug_char (c : Ascii.ascii) :
  is_alnum c = true \/ c = dash -> is_slug_char (to_lower c) = true.
Proof.
  intros [Hc| ->]; [|reflexivity]. revert Hc.
  destruct c as [[] [] [] [] [] [] [] []]; vm_compute; congruence.
Qed.

Lemma to_lower_dash (c : Ascii.ascii) : to_lower c = dash -> c = dash.
Proof. destruct c as [[] [] [] [] [] [] [] []]; vm_compute; congruence. Qed.

Lemma slug_char_not_underscore (c : Ascii.ascii) :
  is_slug_char c = true -> c <> underscore.
Proof. intros Hc ->. discriminate. Qed.

Lemma rev_reverse {A : Type} (l : list A) : rev l = reverse l.
Proof. unfold reverse. now rewrite rev_alt. Qed.

Lemma drop_leading_spec (c : Ascii.ascii) (s : list Ascii.ascii) :
  exists k, s = replicate k c ++ drop_leading c s /\ head (drop_leading c s) <> Some c.
Proof.
  induction s as [|x s (k & Hk & Hhead)]; [exists 0%nat; split; [reflexivity|discriminate]|].
  cbn [drop_leading]. destruct (Ascii.eqb x c) eqn:Hx.
  - apply Ascii.eqb_eq in Hx. subst x. exists (S k). split; [|exact Hhead].
    cbn. now rewrite <- Hk.
  - exists 0%nat. split; [reflexivity|]. cbn. intros [= ->].
    now rewrite Ascii.eqb_refl in Hx.
Qed.

(** Without a replacement, [replace_trailing_slashes] gives the
    longest prefix that does not end in a slash. *)
Lemma replace_trailing_slashes_nil (s : list Ascii.ascii) :
  last (replace_trailing_slashes [] s) <> Some slash /\
  exists k, s = replace_trailing_slashes [] s ++ replicate k slash.
Proof.
  unfold replace_trailing_slashes.
  destruct (rev s) as [|x rest] eqn:Hrev.
  - apply (f_equal (@rev _)) in Hrev. rewrite rev_involutive in Hrev. subst s.
    split; [discriminate|]. now exists 0%nat.
  - destruct (Ascii.eqb x slash) eqn:Hx.
    + rewrite app_nil_r.
      destruct (drop_leading_spec slash (x :: rest)) as (k & Hk & Hhead).
      split.
      * rewrite rev_reverse, last_reverse. exact Hhead.
      * exists k. apply (f_equal (@rev _)) in Hrev. rewrite rev_involutive in Hrev.
        rewrite Hrev at 1. rewrite Hk at 1.
        rewrite !rev_reverse, reverse_app, reverse_replicate. reflexivity.
    + split; [|exists 0%nat; now rewrite app_nil_r].
      apply (f_equal (@rev _)) in Hrev. rewrite rev_involutive in Hrev.
      rewrite Hrev. cbn [rev]. rewrite last_snoc. intros [= ->].
      now rewrite Ascii.eqb_refl in Hx.
Qed.

(** With a replacement [r], a trailing run of slashes is cut off and
    [r] put in its place. *)
Lemma replace_trailing_slashes_spec (r s : list Ascii.ascii) :
  exists b k,
    s = b ++ replicate k slash /\ last b <> Some slash /\
    replace_trailing_slashes r s = match k with O => s | S _ => b ++ r end.
Proof.
  unfold replace_trailing_slashes.
  destruct (rev s) as [|x rest] eqn:Hrev.
  - apply (f_equal (@rev _)) in Hrev. rewrite rev_involutive in Hrev. subst s.
    exists [], 0%nat. split; [reflexivity|]. split; [discriminate|reflexivity].
  - apply (f_equal (@rev _)) in Hrev. rewrite rev_involutive in Hrev.
    destruct (Ascii.eqb x slash) eqn:Hx.
    + destruct (drop_leading_spec slash (x :: rest)) as (k & Hk & Hhead).
      exists (rev (drop_leading slash (x :: rest))), k. split; [|split].
      * rewrite Hrev at 1. rewrite Hk at 1.
        rewrite !rev_reverse, reverse_app, reverse_replicate. reflexivity.
      * rewrite rev_reverse, last_reverse. exact Hhead.
      * destruct k as [|k]; [|reflexivity]. exfalso. cbn [replicate app] in Hk.
        rewrite <- Hk in Hhead. apply Ascii.eqb_eq in Hx. subst x. now apply Hhead.
    + exists s, 0%nat. split; [now rewrite app_nil_r|]. split; [|reflexivity].
      rewrite Hrev. cbn [rev]. rewrite last_snoc. intros [= ->].
      now rewrite Ascii.eqb_refl in Hx.
Qed.

(** Whether a run of characters that are not letters or digits is
    open after [s]. *)
Lemma dash_runs_app (b : bool) (s t : list Ascii.ascii) :
  dash_runs b (s ++ t)
  = dash_runs b s
    ++ dash_runs (match last s with Some c => negb (is_alnum c) | None => b end) t.
Proof.
  revert b. induction s as [|x s IH]; intros b; [reflexivity|].
  cbn [app dash_runs].
  assert (Hlast : forall b',
             b' = negb (is_alnum x) ->
             match last (x :: s) with Some c => negb (is_alnum c) | None => b end
             = match last s with Some c => negb (is_alnum c) | None => b' end).
  { intros b' ->. destruct s as [|y s']; [reflexivity|].
    change (last (x :: y :: s')) with (last (y :: s')).
    destruct (last (y :: s')) eqn:Hl; [reflexivity|].
    apply last_None in Hl. discriminate. }
  destruct (is_alnum x) eqn:Hx.
  - cbn [app]. now rewrite IH, (Hlast false).
  - destruct b.
    + now rewrite IH, (Hlast true).
    + cbn [app]. now rewrite IH, (Hlast true).
Qed.

Lemma dash_runs_slashes (b : bool) (k : nat) :
  dash_runs b (replicate (S k) slash) = if b then [] else [dash].
Proof.
  revert b. induction k as [|k IH]; intros b; [now destruct b|].
  change (replicate (S (S k)) slash) with (slash :: replicate (S k) slash).
  cbn [dash_runs]. change (is_alnum slash) with false. cbn iota.
  destruct b; now rewrite IH.
Qed.

Lemma dash_runs_replace_trailing_slashes (b : bool) (s : list Ascii.ascii) :
  dash_runs b (replace_trailing_slashes [slash] s) = dash_runs b s.
Proof.
  destruct (replace_trailing_slashes_spec [slash] s) as (r & k & Hs & _ & ->).
  destruct k as [|k]; [reflexivity|].
  rewrite Hs. rewrite !dash_runs_app.
  now rewrite dash_runs_slashes, (dash_runs_slashes _ 0).
Qed.

(** The shape of [normalised]. *)
Lemma normalised_shape (hostname pathname : string) :
  let n := normalised hostname pathname in
  Forall (fun c => is_slug_char c = true) n /\
  head n <> Some dash /\ last n <> Some dash /\
  (forall l1 l2, n <> l1 ++ dash :: dash :: l2).
Proof.
  cbv zeta. unfold normalised.
  set (raw := replace_trailing_slashes _ _).
  rewrite (squeeze_dashes_single false _ (dash_runs_single false raw)).
  pose proof (fun l1 l2 => single_dashes_no_pair false _ l1 l2 (dash_runs_single false raw))
    as Hno.
  destruct (trim_dash_ends _ Hno) as (pre & post & Hseg & Hhead & Hlast).
  set (t := trim_dash (dash_runs false raw)) in *.
  split; [|split; [|split]].
  - apply Forall_fmap. pose proof (dash_runs_chars false raw) as Hch.
    rewrite Hseg in Hch. apply Forall_app in Hch as [_ Hch].
    apply Forall_app in Hch as [Hch _].
    eapply Forall_impl; [exact Hch|]. intros c Hc. now apply to_lower_slug_char.
  - destruct t as [|x t']; [discriminate|]. cbn. intros [= Hx].
    apply to_lower_dash in Hx. subst x. now apply Hhead.
  - rewrite fmap_last. destruct (last t) as [x|] eqn:Hx; [|discriminate].
    cbn. intros [= Hd]. apply to_lower_dash in Hd. subst x. now apply Hlast.
  - intros l1 l2 Heq.
    apply fmap_app_inv in Heq as (k1 & k2 & -> & Hk2 & Ht).
    symmetry in Hk2.
    apply fmap_cons_inv in Hk2 as (x & k3 & Hx & Hk3 & ->).
    symmetry in Hk3.
    apply fmap_cons_inv in Hk3 as (y & k4 & Hy & _ & ->).
    symmetry in Hx, Hy. apply to_lower_dash in Hx, Hy. subst x y.
    apply (Hno (pre ++ k1) (k4 ++ post)). rewrite Hseg, Ht.
    now rewrite <- !app_assoc.
Qed.

End SlugFacts.

(** * Names of files *)

Section NameFacts.

Lemma append_assoc (a b c : string) : (a +:+ b) +:+ c = a +:+ (b +:+ c).
Proof.
  induction a as [|x a IH]; [reflexivity|].
  change (String x ((a +:+ b) +:+ c) = String x (a +:+ (b +:+ c))). now rewrite IH.
Qed.

Lemma length_append (a b : string) :
  String.length (a +:+ b) = (String.length a + String.length b)%nat.
Proof.
  induction a as [|x a IH]; [reflexivity|].
  change (S (String.length (a +:+ b)) = S (String.length a + String.length b)).
  now rewrite IH.
Qed.

Lemma append_nil_r (a : string) : a +:+ "" = a.
Proof.
  induction a as [|x a IH]; [reflexivity|].
  change (String x (a +:+ "") = String x a). now rewrite IH.
Qed.

(** ** Decimal numerals *)

Lemma pretty_N_char_digit (x : N) : is_digit (pretty_N_char x) = true.
Proof. unfold pretty_N_char. repeat case_match; reflexivity. Qed.

Lemma pretty_N_go_digits (x : N) (s : string) :
  exists d, pretty_N_go x s = d +:+ s /\
            Forall (fun c => is_digit c = true) (list_ascii_of_string d) /\
            ((0 < x)%N -> d <> ""%string).
Proof.
  revert s. induction (N.lt_wf_0 x) as [x _ IH]. intros s.
  destruct (decide (x = 0%N)) as [->|Hx].
  - exists ""%string. rewrite pretty_N_go_0. split; [reflexivity|].
    split; [constructor|lia].
  - rewrite pretty_N_go_step by lia.
    destruct (IH (x `div` 10)%N ltac:(apply N.div_lt; lia)
                (String (pretty_N_char (x `mod` 10)) s)) as (d & Hd & Hall & _).
    exists (d +:+ String (pretty_N_char (x `mod` 10)) ""). split; [|split].
    + rewrite Hd. now rewrite append_assoc.
    + rewrite list_ascii_of_string_app. apply Forall_app. split; [exact Hall|].
      constructor; [apply pretty_N_char_digit|constructor].
    + intros _ Heq. apply (f_equal String.length) in Heq.
      rewrite length_append in Heq. cbn in Heq. lia.
Qed.

Lemma pretty_N_digits (x : N) : digits (pretty x).
Proof.
  unfold pretty, pretty_N. destruct (decide (x = 0%N)) as [->|Hx].
  - split; [discriminate|]. constructor; [reflexivity|constructor].
  - destruct (pretty_N_go_digits x "") as (d & Hd & Hall & Hne).
    rewrite append_nil_r in Hd. rewrite Hd. split; [apply Hne; lia|exact Hall].
Qed.

Lemma pretty_nat_digits (n : nat) : digits (pretty n).
Proof. apply (pretty_N_digits (N.of_nat n)). Qed.

Lemma digits_last (s : string) :
  digits s -> exists c, last (list_ascii_of_string s) = Some c /\ is_digit c = true.
Proof.
  intros [Hne Hall].
  destruct (last (list_ascii_of_string s)) as [c|] eqn:Hl.
  - exists c. split; [reflexivity|].
    apply last_Some in Hl as [l' Hl]. rewrite Hl in Hall.
    apply Forall_app in Hall as [_ Hall]. now inversion Hall.
  - apply last_None in Hl. destruct s; [now contradict Hne|discriminate].
Qed.

(** ** [endsWith] *)

Lemma substring_all (s : string) : String.substring 0 (String.length s) s = s.
Proof.
  induction s as [|c s IH]; [reflexivity|].
  change (String c (String.substring 0 (String.length s) s) = String c s).
  now rewrite IH.
Qed.

Lemma substring_suffix (p s : string) :
  String.substring (String.length p) (String.length s) (p +:+ s) = s.
Proof.
  induction p as [|c p IH]; [apply substring_all|].
  exact IH.
Qed.

Lemma substring_split (n : nat) (s : string) :
  (n <= String.length s)%nat ->
  exists p, s = p +:+ String.substring n (String.length s - n) s.
Proof.
  revert s. induction n as [|n IH]; intros s Hn.
  - exists ""%string. rewrite Nat.sub_0_r, substring_all. reflexivity.
  - destruct s as [|c s]; [cbn in Hn; lia|].
    destruct (IH s ltac:(cbn in Hn; lia)) as [p Hp].
    exists (String c p).
    change (String c s
            = String c (p +:+ String.substring n (String.length s - n) s)).
    now rewrite <- Hp.
Qed.

Lemma endsWith_iff (s suffix : string) :
  endsWith s suffix = true <-> exists p, s = p +:+ suffix.
Proof.
  unfold endsWith. split.
  - intros Hs. apply andb_true_iff in Hs as [Hle Heq].
    apply Nat.leb_le in Hle. apply String.eqb_eq in Heq.
    destruct (substring_split (String.length s - String.length suffix) s ltac:(lia))
      as [p Hp].
    exists p.
    replace (String.length s - (String.length s - String.length suffix))%nat
      with (String.length suffix) in Hp by lia.
    now rewrite Heq in Hp.
  - intros [p ->]. rewrite length_append. apply andb_true_iff. split.
    + apply Nat.leb_le. lia.
    + replace (String.length p + String.length suffix - String.length suffix)%nat
        with (String.length p) by lia.
      rewrite substring_suffix. apply String.eqb_refl.
Qed.

(** ** Temporary names *)

Lemma tmp_name_ne (name : string) (now : N) : tmp_name name now <> name.
Proof.
  intros Heq. apply (f_equal String.length) in Heq. unfold tmp_name in Heq.
  rewrite !length_append in Heq. cbn in Heq. lia.
Qed.

(** A temporary name ends in a digit, so it is the name of no image. *)
Lemma tmp_name_not_png (name other : string) (now : N) :
  endsWith other ".png" = true -> other <> tmp_name name now.
Proof.
  intros Hends ->. apply endsWith_iff in Hends as [p Hp].
  apply (f_equal (fun s => last (list_ascii_of_string s))) in Hp.
  unfold tmp_name in Hp. rewrite !list_ascii_of_string_app in Hp.
  rewrite !app_assoc in Hp.
  destruct (digits_last _ (pretty_N_digits now)) as (c & Hc & Hd).
  apply last_Some in Hc as [l' Hl']. rewrite Hl' in Hp.
  rewrite !app_assoc, last_snoc in Hp.
  change (list_ascii_of_string ".png")
    with ([Ascii.ascii_of_nat 46; Ascii.ascii_of_nat 112; Ascii.ascii_of_nat 110]
          ++ [Ascii.ascii_of_nat 103]) in Hp.
  rewrite app_assoc, last_snoc in Hp. injection Hp as ->. discriminate.
Qed.

End NameFacts.

(** * Slugs and files: what the naming guarantees *)

Section SlugProperties.
Context `{Platform}.

Lemma split_at_underscores (n1 n2 h1 h2 : list Ascii.ascii) :
  underscore ∉ n1 -> underscore ∉ n2 ->
  n1 ++ underscore :: underscore :: h1 = n2 ++ underscore :: underscore :: h2 ->
  n1 = n2 /\ h1 = h2.
Proof.
  revert n2. induction n1 as [|x n1 IH]; intros [|y n2] H1 H2 Heq; cbn in Heq.
  - injection Heq as ->. now split.
  - injection Heq as <- _. contradict H2. left.
  - injection Heq as -> _. contradict H1. left.
  - injection Heq as -> Heq.
    destruct (IH n2) as [-> ->]; [| |exact Heq|now split].
    + intros Hin. apply H1. now right.
    + intros Hin. apply H2. now right.
Qed.

Lemma safeSlug_Ok_inv (url slug : string) :
  safeSlug url = Ok slug ->
  exists hostname pathname,
    URL_parse url = Some (hostname, pathname) /\
    slug = string_of_list_ascii (normalised hostname pathname)
           +:+ "__" +:+ String.substring 0 10 (sha1_hex url).
Proof.
  unfold safeSlug. destruct (URL_parse url) as [[hostname pathname]|]; [|discriminate].
  intros [= <-]. now exists hostname, pathname.
Qed.

Lemma normalised_no_underscore (hostname pathname : string) :
  underscore ∉ normalised hostname pathname.
Proof.
  destruct (normalised_shape hostname pathname) as (Hall & _).
  intros Hin. rewrite Forall_forall in Hall.
  now apply (slug_char_not_underscore _ (Hall _ Hin)).
Qed.

(** X1.  The name [safeSlug] gives a URL is a readable part, two
    underscores and the first ten characters of the SHA-1 of the URL;
    the readable part holds only lower-case letters, digits and
    dashes, neither begins nor ends with a dash and has no two dashes
    in a row.  [safeSlug] fails only on a URL that does not parse. *)
Theorem safeSlug_shape (url : string) :
  match safeSlug url with
  | Ok slug =>
      exists n : list Ascii.ascii,
        slug = string_of_list_ascii n +:+ "__" +:+ String.substring 0 10 (sha1_hex url) /\
        Forall (fun c => is_slug_char c = true) n /\
        head n <> Some dash /\ last n <> Some dash /\
        (forall l1 l2, n <> l1 ++ dash :: dash :: l2)
  | Threw e => e = InvalidUrl /\ URL_parse url = None
  end.
Proof.
  destruct (safeSlug url) as [slug|e] eqn:Hs.
  - apply safeSlug_Ok_inv in Hs as (hostname & pathname & _ & ->).
    exists (normalised hostname pathname). split; [reflexivity|].
    apply normalised_shape.
  - unfold safeSlug in Hs. destruct (URL_parse url) as [[? ?]|]; [discriminate|].
    injection Hs as <-. now split.
Qed.

(** X2.  Of the replacements [safeSlug] makes, the first (a trailing
    run of slashes to one slash) and the third (runs of dashes to one
    dash) never change the result: the readable part is the host name
    and path with every run of characters that are not letters or
    digits turned into one dash, one dash cut off each end, in lower
    case. *)
Theorem safeSlug_two_replacements_redundant (url hostname pathname : string) :
  URL_parse url = Some (hostname, pathname) ->
  safeSlug url
  = Ok (string_of_list_ascii
          (map to_lower
             (trim_dash (dash_runs false (list_ascii_of_string (hostname +:+ pathname)))))
        +:+ "__" +:+ String.substring 0 10 (sha1_hex url)).
Proof.
  intros Hu. unfold safeSlug. rewrite Hu. cbv zeta.
  rewrite (squeeze_dashes_single false _ (dash_runs_single false _)).
  now rewrite dash_runs_replace_trailing_slashes.
Qed.

(** X3.  Two URLs are given the same slug only if their readable parts
    are equal and the first ten characters of their SHA-1 are equal:
    the readable part holds no underscore, so the slug splits in one
    way only. *)
Theorem equal_slugs_equal_hashes (url1 url2 slug : string) :
  safeSlug url1 = Ok slug -> safeSlug url2 = Ok slug ->
  String.substring 0 10 (sha1_hex url1) = String.substring 0 10 (sha1_hex url2) /\
  exists h1 p1 h2 p2,
    URL_parse url1 = Some (h1, p1) /\ URL_parse url2 = Some (h2, p2) /\
    normalised h1 p1 = normalised h2 p2.
Proof.
  intros H1 H2.
  apply safeSlug_Ok_inv in H1 as (h1 & p1 & Hu1 & Hs1).
  apply safeSlug_Ok_inv in H2 as (h2 & p2 & Hu2 & Hs2).
  rewrite Hs1 in Hs2. apply (f_equal list_ascii_of_string) in Hs2.
  rewrite !list_ascii_of_string_app, !list_ascii_of_string_of_list_ascii in Hs2.
  change (list_ascii_of_string "__") with [underscore; underscore] in Hs2.
  cbn [app] in Hs2.
  apply split_at_underscores in Hs2 as [Hn Hh];
    try apply normalised_no_underscore.
  split.
  - apply (f_equal string_of_list_ascii) in Hh.
    now rewrite !string_of_list_ascii_of_string in Hh.
  - now exists h1, p1, h2, p2.
Qed.

End SlugProperties.

Section FileProperties.
Context `{Platform}.
Variable cfg : config.

Lemma files_add_change (d : directory) (c : change) (s : state) :
  files d (add_change c s) = files d s.
Proof. now destruct d. Qed.

Lemma files_add_seed (d : directory) (s : state) : files d (add_seed s) = files d s.
Proof. now destruct d. Qed.

Lemma written_lookup_tmp (p : path) (buf : buffer) (now : N) (s : state) :
  files p.1 (written p buf now s) !! tmp_name p.2 now = None.
Proof.
  unfold written. rewrite files_set_files.
  rewrite lookup_insert_ne by (intros Heq; symmetry in Heq; now apply tmp_name_ne in Heq).
  apply lookup_delete_eq.
Qed.

Lemma written_lookup_other (p : path) (buf : buffer) (now : N) (s : state)
    (d : directory) (name : string) :
  (d = p.1 -> name <> p.2 /\ name <> tmp_name p.2 now) ->
  files d (written p buf now s) !! name = files d s !! name.
Proof.
  intros Hne. destruct (decide (p.1 = d)) as [<-|Hd].
  - destruct (Hne eq_refl) as [H1 H2]. unfold written. rewrite files_set_files.
    rewrite lookup_insert_ne by congruence.
    rewrite lookup_delete_ne by (unfold tmp_name in H2; congruence).
    now rewrite lookup_insert_ne by (unfold tmp_name in H2; congruence).
  - now rewrite written_files_ne.
Qed.

Lemma written_keeps_images (p : path) (buf : buffer) (now : N) (s : state)
    (d : directory) (name : string) :
  endsWith name ".png" = true ->
  is_Some (files d s !! name) -> is_Some (files d (written p buf now s) !! name).
Proof.
  intros Hpng Hs. destruct (decide (d = p.1 /\ name = p.2)) as [[-> ->]|Hne].
  - rewrite written_lookup. eauto.
  - rewrite written_lookup_other; [exact Hs|].
    intros ->. split; [intros ->; now apply Hne|].
    now apply tmp_name_not_png.
Qed.

(** What holds of the state before the loop and is kept by every
    target holds after the loop, however it ends. *)
Lemma process_targets_invariant (P : state -> Prop) (targets : list target) (s : state) :
  (forall t s, t ∈ targets -> P s -> P (process_target cfg t s).2) ->
  P s -> P (process_targets cfg targets s).2.
Proof.
  revert s. induction targets as [|t rest IH]; intros s Hstep Hs; [exact Hs|].
  rewrite process_targets_cons.
  pose proof (Hstep t s ltac:(left) Hs) as H1.
  destruct (process_target cfg t s) as [[o|e] s1]; cbn [snd] in *; [|exact H1].
  pose proof (IH s1 (fun t' s' Hin => Hstep t' s' ltac:(now right)) H1) as H2.
  destruct (process_targets cfg rest s1) as [[os|e] s2]; exact H2.
Qed.

(** X4.  [writeFileAtomic] always returns.  Afterwards the file holds
    the buffer and the temporary file is gone; every other file of the
    directory, the other directories, the report, the seed counter
    and the log are as before. *)
Theorem writeFileAtomic_effect (p : path) (buf : buffer) (now : N) (s : state) :
  let s' := (writeFileAtomic p buf now s).2 in
  (writeFileAtomic p buf now s).1 = Ok tt /\
  files p.1 s' !! p.2 = Some buf /\
  files p.1 s' !! (p.2 +:+ ".tmp-" +:+ pretty now) = None /\
  (forall name, name <> p.2 -> name <> p.2 +:+ ".tmp-" +:+ pretty now ->
                files p.1 s' !! name = files p.1 s !! name) /\
  (forall d, d <> p.1 -> files d s' = files d s) /\
  changes s' = changes s /\ seededBaselines s' = seededBaselines s /\ log s' = log s.
Proof.
  rewrite writeFileAtomic_eval. cbn [fst snd].
  split; [reflexivity|]. split; [apply written_lookup|].
  split; [apply written_lookup_tmp|]. split.
  { intros name H1 H2. now apply written_lookup_other. }
  split; [intros d Hd; apply written_files_ne; congruence|].
  split; [apply written_changes|]. split; [apply written_seeded|apply written_log].
Qed.

Lemma step_keeps_other_images (t : target) (s : state) (d : directory) (name : string) :
  endsWith name ".png" = true ->
  (forall slug, safeSlug (url t) = Ok slug ->
                name <> slug +:+ ".png" /\ name <> slug +:+ ".diff.png") ->
  files d (process_target cfg t s).2 !! name = files d s !! name.
Proof.
  intros Hpng Hne.
  assert (Hw : forall p buf now s0,
             name <> p.2 ->
             files d (written p buf now s0) !! name = files d s0 !! name).
  { intros p buf now s0 Hp. apply written_lookup_other. intros _.
    split; [exact Hp|now apply tmp_name_not_png]. }
  destruct (process_target_step cfg t s) as
    [e He|slug message Hs Hc|slug cur Hs Hc Hb|slug cur base e Hs Hc Hb Hd
    |slug cur base dr Hs Hc Hb Hd Hr|slug cur base dr Hs Hc Hb Hd Hr];
    try reflexivity; try destruct (Hne slug Hs) as [Hn1 Hn2];
    unfold captured_state;
    rewrite ?files_add_seed, ?files_add_change, ?Hw, ?files_add_change, ?Hw;
    try reflexivity; cbn [snd baseline_path current_path diff_path]; assumption.
Qed.

(** X5.  The loop leaves alone every image that belongs to none of its
    targets: a file whose name ends in [.png] and is neither
    [slug.png] nor [slug.diff.png] for the slug of a target has, in
    each directory, the content it had before the loop, however the
    loop ends. *)
Theorem loop_keeps_other_images (targets : list target) (s : state)
    (d : directory) (name : string) :
  endsWith name ".png" = true ->
  (forall t slug, t ∈ targets -> safeSlug (url t) = Ok slug ->
                  name <> slug +:+ ".png" /\ name <> slug +:+ ".diff.png") ->
  files d (process_targets cfg targets s).2 !! name = files d s !! name.
Proof.
  intros Hpng Hne.
  apply (process_targets_invariant
           (fun s' => files d s' !! name = files d s !! name)); [|reflexivity].
  intros t s' Hin Hs'. rewrite <- Hs'. apply step_keeps_other_images; [exact Hpng|].
  intros slug Hslug. now apply (Hne t).
Qed.

Lemma step_keeps_images (t : target) (s : state) (d : directory) (name : string) :
  endsWith name ".png" = true ->
  is_Some (files d s !! name) -> is_Some (files d (process_target cfg t s).2 !! name).
Proof.
  intros Hpng Hs.
  destruct (process_target_step cfg t s); unfold captured_state;
    rewrite ?files_add_seed, ?files_add_change;
    repeat first [ exact Hs
                 | apply written_keeps_images; [exact Hpng|]
                 | rewrite files_add_change ].
Qed.

(** X6.  The loop deletes no image: a file whose name ends in [.png]
    and that exists before the loop exists after it, in each
    directory, however the loop ends.  (The only files the loop
    removes are the temporary files of [writeFileAtomic], whose names
    end in a digit.) *)
Theorem loop_deletes_no_image (targets : list target) (s : state)
    (d : directory) (name : string) :
  endsWith name ".png" = true ->
  is_Some (files d s !! name) ->
  is_Some (files d (process_targets cfg targets s).2 !! name).
Proof.
  intros Hpng Hs.
  apply (process_targets_invariant (fun s' => is_Some (files d s' !! name)));
    [|exact Hs].
  intros t s' _. now apply step_keeps_images.
Qed.

End FileProperties.

(** * The loop over the targets: what it counts, reports and keeps *)

Section NumberSigns.

Lemma binary_round_aux_nonneg (m e : Z) (l : location) :
  0 <= m -> nonneg (binary_round_aux prec emax false m e l).
Proof.
  intros Hm. unfold binary_round_aux.
  pose proof (JsNumberFacts.shr_fexp_nonneg m e l Hm) as H1.
  destruct (shr_fexp prec emax m e l) as [r1 e1]. simpl in H1.
  pose proof (JsNumberFacts.shr_fexp_nonneg _ e1 loc_Exact
                (JsNumberFacts.round_nearest_even_nonneg _ (loc_of_shr_record r1) H1))
    as H2.
  destruct (shr_fexp prec emax _ e1 loc_Exact) as [r2 e2]. simpl in H2.
  destruct (shr_m r2) as [|p|p]; [exact I| |lia].
  now destruct (e2 <=? emax - prec).
Qed.

Lemma div_nonneg (x y : number) : nonneg_finite x -> pos_finite y -> nonneg (div x y).
Proof.
  destruct x as [[]|[]| |[] mx ex]; simpl; try contradiction;
    destruct y as [[]|[]| |[] my ey]; simpl; try contradiction; intros _ _;
    try exact I.
  pose proof (JsNumberFacts.SFdiv_core_nonneg mx my ex ey) as Hq.
  destruct (SFdiv_core_binary _ _ _ _ _ _) as [[q e] l]. simpl in Hq.
  now apply binary_round_aux_nonneg.
Qed.

(** A number that is zero or above reaches every threshold that is
    zero or below. *)
Lemma nonneg_ge (r t : number) : nonneg r -> ge zero t = true -> ge r t = true.
Proof.
  unfold ge, zero, SFleb.
  destruct r as [[]|[]| |[] mr er]; simpl; try contradiction; intros _;
    destruct t as [[]|[]| |[] mt et]; simpl; try discriminate; reflexivity.
Qed.

End NumberSigns.

Section DifferProperties.
Context `{Platform}.
Hypothesis decode_ok : decodes_well_formed.

Lemma padTo_too_large (W H0 : nat) (img : PNG) :
  well_formed img -> ~ (Z.of_nat (4 * (W * H0)) <= MAX_LENGTH) ->
  padTo W H0 img = Threw BufferTooLarge.
Proof.
  intros Hwf Hbig. unfold padTo.
  destruct ((width img =? W)%nat && (height img =? H0)%nat) eqn:Hsame.
  - apply andb_true_iff in Hsame as [Hw Hh].
    apply Nat.eqb_eq in Hw, Hh. subst W H0. destruct Hwf. contradiction.
  - now rewrite PngFacts.new_PNG_too_large.
Qed.

Lemma diffImages_too_large (img1 img2 : PNG) (thr : number) :
  well_formed img1 -> ~ canvas_fits img1 img2 ->
  diffImages img1 img2 thr = Threw BufferTooLarge.
Proof.
  intros Hwf Hbig. unfold diffImages. cbv zeta.
  now rewrite (padTo_too_large _ _ _ Hwf Hbig).
Qed.

Lemma diffImages_small (img1 img2 : PNG) (thr : number) :
  well_formed img1 -> well_formed img2 -> canvas_small img1 img2 ->
  exists d, diffImages img1 img2 thr = Ok d.
Proof.
  intros Hwf1 Hwf2 Hsmall.
  destruct (diffImages_eval img1 img2 thr Hwf1 Hwf2 Hsmall)
    as (a & b & _ & _ & _ & _ & Hd).
  eexists. exact Hd.
Qed.

Lemma diffImages_Threw_inv (img1 img2 : PNG) (thr : number) (e : error) :
  diffImages img1 img2 thr = Threw e -> e = BufferTooLarge \/ e = OutOfRange.
Proof.
  unfold diffImages. cbv zeta.
  destruct (padTo _ _ img1) as [a|e1] eqn:Ha.
  2:{ intros [= <-]. eapply PngFacts.padTo_Threw_inv; [| |exact Ha]; lia. }
  destruct (padTo _ _ img2) as [b|e2] eqn:Hb.
  2:{ intros [= <-]. eapply PngFacts.padTo_Threw_inv; [| |exact Hb]; lia. }
  unfold new_PNG. destruct (_ <=? _)%Z; [|left; congruence].
  cbn [data]. destruct (pixelmatch _ _ _ _ _ _). discriminate.
Qed.

(** X7.  Given a decoder that returns well-formed images, [diffPngs]
    fails in three ways only: with the decoder's error when the
    baseline or the capture does not decode; with the allocation error
    when the canvas of the two images exceeds the largest buffer; and
    with the range error of [Buffer.copy] when a byte offset of
    [PNG.bitblt] leaves the 32-bit range.  When both images decode and
    the canvas is below [2^31] bytes it returns a result. *)
Theorem diffPngs_failures (baselineBuf currentBuf : buffer) (thr : number) :
  match PNG_sync_read baselineBuf, PNG_sync_read currentBuf with
  | Some img1, Some img2 =>
      (canvas_small img1 img2 -> exists d, diffPngs baselineBuf currentBuf thr = Ok d) /\
      (~ canvas_fits img1 img2 ->
       diffPngs baselineBuf currentBuf thr = Threw BufferTooLarge) /\
      (forall e, diffPngs baselineBuf currentBuf thr = Threw e ->
                 e = BufferTooLarge \/ e = OutOfRange)
  | _, _ => diffPngs baselineBuf currentBuf thr = Threw InvalidPng
  end.
Proof.
  unfold diffPngs, pngFromBuffer.
  destruct (PNG_sync_read baselineBuf) as [img1|] eqn:H1; [|reflexivity].
  destruct (PNG_sync_read currentBuf) as [img2|] eqn:H2; [|reflexivity].
  split; [|split].
  - apply diffImages_small; eauto.
  - apply diffImages_too_large; eauto.
  - apply diffImages_Threw_inv.
Qed.


Hypothesis pixelmatch_ok : pixelmatch_counts_differing.

Lemma diffPngs_ratio_nonneg (base cur : buffer) (thr : number) (d : DiffResult) :
  diffPngs base cur thr = Ok d -> nonneg (ratio d).
Proof.
  intros Hd.
  assert (Hfit : (Z.of_nat (totalPixels d) < 2 ^ 53)%Z).
  { unfold diffPngs, pngFromBuffer in Hd.
    destruct (PNG_sync_read base) as [img1|] eqn:H1; [|discriminate].
    destruct (PNG_sync_read cur) as [img2|] eqn:H2; [|discriminate].
    destruct (decode_ok _ _ H1) as [_ _ Hl1 _], (decode_ok _ _ H2) as [_ _ Hl2 _].
    destruct (diffImages_Ok_shape img1 img2 thr d Hl1 Hl2 Hd)
      as (a & b & _ & _ & _ & _ & Hmax & _ & Htot & _).
    cbv zeta in Hmax, Htot. rewrite Htot. unfold MAX_LENGTH in Hmax.
    rewrite Nat2Z.inj_mul in Hmax. lia. }
  destruct (diffPngs_ratio pixelmatch_ok decode_ok _ _ _ _ Hd) as (Hle & Hpos & -> & _).
  apply div_nonneg.
  - apply JsNumberFacts.of_Z_nonneg_finite. lia.
  - apply JsNumberFacts.of_Z_pos_finite. lia.
Qed.

End DifferProperties.

Section LoopProperties.
Context `{Platform}.
Variable cfg : config.

Lemma step_report (t : target) (s s' : state) (o : outcome) :
  target_step cfg t s (Ok o) s' ->
  seededBaselines s' = (seededBaselines s + (if is_seeded o then 1 else 0))%nat /\
  exists new,
    changes s' = changes s ++ new /\
    map change_url new = (if reported o then [url t] else []) /\
    map is_capture_failure new = (if reported o then [is_failed o] else []).
Proof.
  intros Hstep. remember (Ok o) as r eqn:Hr.
  destruct Hstep; try discriminate; injection Hr as <-; unfold captured_state;
    cbn [seededBaselines changes add_change add_seed is_seeded reported is_failed];
    rewrite ?written_seeded, ?written_changes;
    cbn [seededBaselines changes add_change add_seed];
    rewrite ?written_seeded, ?written_changes.
  - split; [lia|]. now eexists [_].
  - split; [reflexivity|]. exists []. now rewrite app_nil_r.
  - split; [lia|]. exists []. now rewrite app_nil_r.
  - split; [lia|]. now eexists [_].
Qed.

(** X8.  When the loop returns, it has produced one outcome per
    target; the seed counter has grown by the number of targets
    seeded; and the report has grown by one entry per target that
    failed to capture or changed, in the order of the targets, a
    capture-failure entry exactly for the failed ones.  Entries that
    were in the report before the loop are still there, in front. *)
Theorem loop_report (targets : list target) (s s' : state) (outs : list outcome) :
  process_targets cfg targets s = (Ok outs, s') ->
  length outs = length targets /\
  seededBaselines s' = (seededBaselines s + length (List.filter is_seeded outs))%nat /\
  exists new,
    changes s' = changes s ++ new /\
    map change_url new = reported_urls targets outs /\
    map is_capture_failure new = map is_failed (List.filter reported outs).
Proof.
  revert s outs. induction targets as [|t rest IH]; intros s outs Hloop.
  - injection Hloop as <- <-. split; [reflexivity|]. split; [cbn; lia|].
    exists []. now rewrite app_nil_r.
  - rewrite process_targets_cons in Hloop.
    pose proof (process_target_step cfg t s) as Hstep.
    destruct (process_target cfg t s) as [[o|e] s1]; [|discriminate].
    cbn [fst snd] in Hstep.
    destruct (process_targets cfg rest s1) as [[os|e] s2] eqn:Hrest; [|discriminate].
    injection Hloop as <- <-.
    destruct (step_report _ _ _ _ Hstep) as (Hseed1 & new1 & Hch1 & Hurl1 & Hkind1).
    destruct (IH s1 os Hrest) as (Hlen & Hseed & new & Hch & Hurl & Hkind).
    split; [cbn; lia|]. split.
    { rewrite Hseed, Hseed1. cbn [List.filter]. destruct (is_seeded o); cbn; lia. }
    exists (new1 ++ new). split; [now rewrite Hch, Hch1, app_assoc|].
    rewrite !map_app, Hurl, Hurl1, Hkind, Hkind1.
    unfold reported_urls. cbn [combine List.filter fst snd].
    now destruct (reported o).
Qed.

Hypothesis decode_ok : decodes_well_formed.
Hypothesis pixelmatch_ok : pixelmatch_counts_differing.

(** X9.  With a change threshold of zero or below, no comparison ends
    [Unchanged]: every target that has a baseline and whose capture
    and baseline can be compared is reported as changed, a capture
    equal to its baseline included. *)
Theorem nonpositive_threshold_always_changed (t : target) (s : state) (slug : string)
    (cur base : buffer) (d : DiffResult) :
  ge zero (changeThresholdRatio cfg) = true ->
  safeSlug (url t) = Ok slug ->
  captured t = inr cur ->
  baselines s !! (slug +:+ ".png") = Some base ->
  diffPngs base cur (pixelmatchThreshold cfg) = Ok d ->
  (process_target cfg t s).1 = Ok Changed.
Proof.
  intros HT Hs Hc Hb Hd.
  rewrite (process_target_compared cfg t s slug cur base d Hs Hc Hb Hd).
  now rewrite (nonneg_ge _ _ (diffPngs_ratio_nonneg decode_ok pixelmatch_ok _ _ _ _ Hd) HT).
Qed.

Lemma diffPngs_Ok_decodes (base cur : buffer) (thr : number) (d : DiffResult) :
  diffPngs base cur thr = Ok d -> is_Some (PNG_sync_read cur).
Proof.
  unfold diffPngs, pngFromBuffer.
  destruct (PNG_sync_read base); [|discriminate].
  destruct (PNG_sync_read cur); [eauto|discriminate].
Qed.

(** X10.  Processing a target a second time with the same capture is
    quiet: after a step that seeded or replaced the baseline, a step
    for the same URL whose capture holds the same bytes ends
    [Unchanged] and leaves baselines, diff images and report as they
    are, provided the threshold is above zero (and, for a seeded
    baseline, that the capture decodes). *)
Theorem second_pass_unchanged (t t' : target) (s : state) (cur : buffer) (o : outcome) :
  lt zero (changeThresholdRatio cfg) = true ->
  (process_target cfg t s).1 = Ok o ->
  o = Changed \/ (o = Seeded /\ is_Some (PNG_sync_read cur)) ->
  captured t = inr cur ->
  url t' = url t -> captured t' = inr cur ->
  let s1 := (process_target cfg t s).2 in
  (process_target cfg t' s1).1 = Ok Unchanged /\
  baselines (process_target cfg t' s1).2 = baselines s1 /\
  diff_files (process_target cfg t' s1).2 = diff_files s1 /\
  changes (process_target cfg t' s1).2 = changes s1.
Proof.
  intros HT Ho Hkind Hc Hu Hc'. cbv zeta.
  pose proof (process_target_step cfg t s) as Hstep. rewrite Ho in Hstep.
  set (s1 := (process_target cfg t s).2) in *. clearbody s1.
  assert (Hfacts : exists slug img,
             safeSlug (url t) = Ok slug /\ PNG_sync_read cur = Some img /\
             baselines s1 !! (slug +:+ ".png") = Some cur).
  { remember (Ok o) as r eqn:Hr.
    destruct Hstep as
      [e He|slug message Hs Hm|slug cur0 Hs Hc0 Hb|slug cur0 base e Hs Hc0 Hb Hd
      |slug cur0 base dr Hs Hc0 Hb Hd Hr0|slug cur0 base dr Hs Hc0 Hb Hd Hr0];
      try discriminate; injection Hr as <-;
      try (destruct Hkind as [?|[? ?]]; discriminate).
    - destruct Hkind as [?|[_ [img Himg]]]; [discriminate|].
      assert (cur0 = cur) as -> by congruence.
      exists slug, img. split; [exact Hs|]. split; [exact Himg|].
      change (files (baseline_path slug).1
                (add_seed (written (baseline_path slug) cur (now_baseline t)
                             (captured_state slug t cur s)))
              !! (baseline_path slug).2 = Some cur).
      rewrite files_add_seed. apply written_lookup.
    - assert (cur0 = cur) as -> by congruence.
      destruct (diffPngs_Ok_decodes _ _ _ _ Hd) as [img Himg].
      exists slug, img. split; [exact Hs|]. split; [exact Himg|].
      apply (written_lookup (baseline_path slug)). }
  destruct Hfacts as (slug & img & Hs & Himg & Hb).
  destruct (diffImages_same pixelmatch_ok img (pixelmatchThreshold cfg)
              (decode_ok _ _ Himg)) as (d & Hd & _ & _ & Hratio).
  assert (Hdiff : diffPngs cur cur (pixelmatchThreshold cfg) = Ok d).
  { unfold diffPngs, pngFromBuffer. now rewrite Himg. }
  rewrite <- Hu in Hs.
  rewrite (process_target_compared cfg t' s1 slug cur cur d Hs Hc' Hb Hdiff).
  rewrite Hratio, (JsNumberFacts.zero_ge_pos _ HT). cbn [fst snd].
  split; [reflexivity|]. unfold captured_state.
  split; [apply (written_files_ne _ _ _ _ BASELINES_DIR); discriminate|].
  split; [apply (written_files_ne _ _ _ _ DIFF_DIR); discriminate|].
  apply written_changes.
Qed.


End LoopProperties.

(** * The small platform meets the contracts *)

Lemma stub_decodes_well_formed : @decodes_well_formed Stub.platform.
Proof.
  intros buf img. cbn [PNG_sync_read Stub.platform]. unfold Stub.read.
  destruct buf as [|bw [|bh d]]; try discriminate.
  destruct (_ && _ && _)%bool eqn:Hok; [|discriminate]. intros [= <-].
  apply andb_true_iff in Hok as [Hok Hlen]. apply andb_true_iff in Hok as [Hw Hh].
  apply Nat.ltb_lt in Hw, Hh. apply Nat.eqb_eq in Hlen.
  pose proof (Byte.to_nat_bounded bw). pose proof (Byte.to_nat_bounded bh).
  constructor; cbn [width height data]; try assumption.
  unfold MAX_LENGTH. change (2 ^ 53 - 1) with 9007199254740991. nia.
Qed.

Lemma stub_counts_differing : @pixelmatch_counts_differing Stub.platform.
Proof. intros a b out w h thr _ _. cbn. lia. Qed.

Lemma stub_lists_files : @readdir_lists_files Stub.platform.
Proof.
  intros d f. cbn [readdir Stub.platform]. unfold Stub.listing.
  rewrite list_elem_of_fmap. split.
  - intros ([g buf] & -> & Hin). apply elem_of_map_to_list in Hin. cbn. eauto.
  - intros [buf Hbuf]. exists (f, buf). split; [reflexivity|].
    now apply elem_of_map_to_list.
Qed.

Lemma stub_mail_configured : mail_configured Stub.mail_env.
Proof. repeat split; vm_compute; eauto. Qed.

Lemma stub_collaborators_respond : collaborators_respond Stub.mail_env.
Proof.
  split; [|split; [reflexivity|exact stub_mail_configured]].
  intros c. destruct c; cbn; eauto.
Qed.

(** * After the loop: commit and notification *)

Section RunProperties.
Context `{Platform}.
Variable cfg : config.
Variable E : environment.

Lemma preserves_get {X : Type} (f : state -> X) : preserves f get.
Proof. now intros s. Qed.

Lemma preserves_readFile {X : Type} (f : state -> X) (p : path) :
  preserves f (readFile p).
Proof. intros s. unfold readFile. now destruct (files p.1 s !! p.2). Qed.

Lemma preserves_stat_size {X : Type} (f : state -> X) (p : path) :
  preserves f (stat_size p).
Proof.
  unfold stat_size. apply preserves_bind; [apply preserves_readFile|].
  intros buf. apply preserves_ret.
Qed.

Lemma preserves_mapM {A B X : Type} (f : state -> X) (g : A -> M B) (l : list A) :
  (forall a, preserves f (g a)) -> preserves f (mapM g l).
Proof.
  intros Hg. induction l as [|a l IH]; [apply preserves_ret|].
  cbn [mapM]. apply preserves_bind; [apply Hg|intros b].
  apply preserves_bind; [exact IH|intros bs; apply preserves_ret].
Qed.

Lemma preserves_mustEnv {X : Type} (f : state -> X) (name : string) :
  preserves f (mustEnv E name).
Proof.
  unfold mustEnv. destruct (env E !! name) as [v|]; [|apply preserves_throw].
  destruct (String.eqb v ""); [apply preserves_throw|apply preserves_ret].
Qed.

Lemma results_emit (e : event) : preserves loop_results (emit e).
Proof. now intros s. Qed.

Lemma results_exec_git (c : git_command) : preserves loop_results (exec_git E c).
Proof.
  unfold exec_git. apply preserves_bind; [apply results_emit|intros _].
  destruct (git E c); [apply preserves_ret|apply preserves_throw].
Qed.

Lemma results_gitCommitIfNeeded (message : string) :
  preserves loop_results (gitCommitIfNeeded E message).
Proof.
  unfold gitCommitIfNeeded. apply preserves_bind; [apply results_exec_git|intros status].
  destruct (blank status); [apply preserves_ret|].
  repeat (apply preserves_bind; [apply results_exec_git|intros _]).
  apply preserves_ret.
Qed.

Lemma results_commit_step : preserves loop_results (commit_step E).
Proof.
  unfold commit_step. apply preserves_bind; [apply preserves_get|intros s0].
  destruct (_ || _); [|apply preserves_ret].
  apply preserves_bind; [apply results_gitCommitIfNeeded|intros; apply preserves_ret].
Qed.

Lemma results_createZip (d : directory) :
  preserves loop_results (createZip E d zipPath).
Proof.
  unfold createZip. apply preserves_bind; [apply preserves_get|intros s0].
  destruct (zip_ok E); [now intros s|apply preserves_throw].
Qed.

Lemma results_attach_pngs (fs : list string) (B b : Z) (atts : list attachment) :
  preserves loop_results (attach_pngs fs B atts b).
Proof.
  revert atts b. induction fs as [|f fs IH]; intros atts b; cbn [attach_pngs];
    [apply preserves_ret|].
  apply preserves_bind; [apply preserves_stat_size|intros size].
  destruct (_ >? _); [apply preserves_ret|apply IH].
Qed.

Lemma results_build_attachments : preserves loop_results (build_attachments cfg E).
Proof.
  unfold build_attachments. apply preserves_bind; [apply preserves_get|intros s0].
  destruct (diffFilesAll s0); [apply preserves_ret|].
  apply preserves_bind; [apply results_createZip|intros _].
  apply preserves_bind; [apply preserves_stat_size|intros; apply results_attach_pngs].
Qed.

Lemma results_sendMailgunEmail (subject text : string) (atts : list attachment) :
  preserves loop_results (sendMailgunEmail E subject text atts).
Proof.
  unfold sendMailgunEmail.
  apply preserves_bind; [apply preserves_mustEnv|intros apiKey].
  apply preserves_bind; [apply preserves_mustEnv|intros domain].
  apply preserves_bind; [apply preserves_mustEnv|intros to].
  apply preserves_bind.
  { apply preserves_mapM. intros a.
    apply preserves_bind; [apply preserves_readFile|intros; apply preserves_ret]. }
  intros parts. apply preserves_bind; [apply results_emit|intros _].
  destruct (res_ok E); [apply preserves_ret|apply preserves_throw].
Qed.

Lemma results_notify_step : preserves loop_results (notify_step cfg E).
Proof.
  unfold notify_step. apply preserves_bind; [apply results_build_attachments|].
  intros [atts size]. apply preserves_bind; [apply preserves_get|intros s0].
  apply results_sendMailgunEmail.
Qed.

(** X12.  Once the loop is over, nothing touches its results: the
    baselines, the run directory, the diff images, the report and the
    seed counter at the end of [main] are those at the end of the
    loop, whatever git, zip and Mailgun do and however [main] ends. *)
Theorem results_fixed_after_loop (targets : list target) (s : state) :
  loop_results (main cfg E targets s).2
  = loop_results (process_targets cfg targets (session_opened s)).2.
Proof.
  rewrite main_eval.
  destruct (process_targets cfg targets (session_opened s)) as [[outs|e] s2];
    [|reflexivity].
  cbn [snd]. pose proof (results_commit_step (session_closed s2)) as Hc.
  destruct (commit_step E (session_closed s2)) as [[[]|e] s3]; cbn [snd] in *;
    [|exact Hc].
  destruct (length (changes s3) =? 0)%nat; [exact Hc|].
  now rewrite results_notify_step.
Qed.

Lemma process_targets_threw (before after : list target) (t : target)
    (s s1 s2 : state) (outs : list outcome) (e : error) :
  process_targets cfg before s = (Ok outs, s1) ->
  process_target cfg t s1 = (Threw e, s2) ->
  process_targets cfg (before ++ t :: after) s = (Threw e, s2).
Proof.
  revert s outs. induction before as [|b before IH]; intros s outs Hb Ht.
  - injection Hb as <- <-. cbn [app]. now rewrite process_targets_cons, Ht.
  - cbn [app]. rewrite process_targets_cons in Hb |- *.
    destruct (process_target cfg b s) as [[o|e0] s0]; [|discriminate].
    destruct (process_targets cfg before s0) as [[os|e0] s0'] eqn:Hrest; [|discriminate].
    injection Hb as <- <-. now rewrite (IH s0 os Hrest Ht).
Qed.

(** X13.  The first target whose step throws ends the run: [main]
    ends with that error in the state that step left, so the targets
    after it are not processed, the browser session is not closed,
    and neither git nor Mailgun is called. *)
Theorem run_stops_at_fatal_target (before after : list target) (t : target)
    (s s1 s2 : state) (outs : list outcome) (e : error) :
  process_targets cfg before (session_opened s) = (Ok outs, s1) ->
  process_target cfg t s1 = (Threw e, s2) ->
  main cfg E (before ++ t :: after) s = (Threw e, s2) /\
  log s2 = log s ++ [BrowserLaunch; NewContext; NewPage].
Proof.
  intros Hb Ht. rewrite main_eval, (process_targets_threw _ after _ _ _ _ _ _ Hb Ht).
  split; [reflexivity|].
  pose proof (target_step_log cfg t s1 _ _ (process_target_step cfg t s1)) as H2.
  rewrite Ht in H2. cbn [fst snd] in H2.
  pose proof (process_targets_log cfg before (session_opened s)) as H1.
  rewrite Hb in H1. cbn [snd] in H1. now rewrite H2, H1.
Qed.

Lemma loop_totals (targets : list target) (s s' : state) (outs : list outcome) :
  process_targets cfg targets s = (Ok outs, s') ->
  seededBaselines s' = (seededBaselines s + length (List.filter is_seeded outs))%nat /\
  length (changes s') = (length (changes s) + length (List.filter reported outs))%nat.
Proof.
  revert s outs. induction targets as [|t rest IH]; intros s outs Hloop.
  - injection Hloop as <- <-. cbn. lia.
  - rewrite process_targets_cons in Hloop.
    pose proof (process_target_step cfg t s) as Hstep.
    destruct (process_target cfg t s) as [[o|e] s1]; [|discriminate].
    cbn [fst snd] in Hstep.
    destruct (process_targets cfg rest s1) as [[os|e] s2] eqn:Hrest; [|discriminate].
    injection Hloop as <- <-.
    destruct (step_report cfg _ _ _ _ Hstep) as (Hseed1 & new1 & Hch1 & Hurl1 & _).
    destruct (IH s1 os Hrest) as (Hseed & Hlen).
    apply (f_equal (@length _)) in Hurl1. rewrite length_map in Hurl1.
    rewrite Hseed, Hlen, Hseed1, Hch1, length_app, Hurl1. cbn [List.filter].
    destruct o; cbn; lia.
Qed.

Lemma commit_step_nothing (s : state) :
  seededBaselines s = 0%nat -> changes s = [] -> commit_step E s = (Ok tt, s).
Proof.
  intros Hseed Hch. unfold commit_step, bind, get. now rewrite Hseed, Hch.
Qed.

(** X14.  A run in which every target is unchanged calls neither git
    nor Mailgun, whatever the environment: [main] returns, and the
    only calls of the run are those that open and close the browser
    session. *)
Theorem unchanged_run_is_silent (targets : list target) (s s2 : state)
    (outs : list outcome) :
  process_targets cfg targets (session_opened s) = (Ok outs, s2) ->
  Forall (fun o => o = Unchanged) outs ->
  main cfg E targets s = (Ok tt, session_closed s2) /\
  log (session_closed s2)
  = log s ++ [BrowserLaunch; NewContext; NewPage; PageClose; ContextClose; BrowserClose].
Proof.
  intros Hloop Hall.
  destruct (loop_totals _ _ _ _ Hloop) as [Hseed Hlen].
  assert (Hnone : List.filter is_seeded outs = [] /\ List.filter reported outs = []).
  { clear -Hall. induction Hall as [|o os -> _ [IH1 IH2]]; [now split|].
    cbn. now split. }
  destruct Hnone as [Hn1 Hn2]. rewrite Hn1 in Hseed. rewrite Hn2 in Hlen.
  cbn in Hseed, Hlen. apply length_zero_iff_nil in Hlen.
  rewrite main_eval, Hloop.
  rewrite commit_step_nothing by assumption.
  cbn [changes session_closed]. rewrite Hlen. cbn [length Nat.eqb].
  split; [reflexivity|].
  pose proof (process_targets_log cfg targets (session_opened s)) as Hlog.
  rewrite Hloop in Hlog. cbn [snd session_opened log] in Hlog.
  cbn [session_closed log]. rewrite Hlog. now rewrite <- app_assoc.
Qed.

(** X15.  A run that only seeds baselines (each target seeded or
    unchanged, at least one seeded) sends no e-mail; when git works
    it commits under the message [Seed baselines (k)], [k] the number
    of targets seeded, and [main] returns. *)
Theorem seeding_run_commits_without_mail (targets : list target) (s s2 : state)
    (outs : list outcome) :
  git_works E ->
  process_targets cfg targets (session_opened s) = (Ok outs, s2) ->
  Forall (fun o => o = Seeded \/ o = Unchanged) outs ->
  Exists (fun o => o = Seeded) outs ->
  (main cfg E targets s).1 = Ok tt /\
  log (main cfg E targets s).2
  = log s ++ [BrowserLaunch; NewContext; NewPage; PageClose; ContextClose; BrowserClose]
      ++ git_events E ("Seed baselines ("
                       +:+ pretty (length (List.filter is_seeded outs)) +:+ ")").
Proof.
  intros Hgit Hloop Hall Hex.
  destruct (loop_totals _ _ _ _ Hloop) as [Hseed Hlen].
  assert (Hnone : List.filter reported outs = []).
  { clear -Hall. induction Hall as [|o os [-> | ->] _ IH]; [reflexivity| |]; exact IH. }
  assert (Hsome : (0 < length (List.filter is_seeded outs))%nat).
  { clear -Hex. induction Hex as [o os ->|o os _ IH]; cbn; [lia|].
    destruct (is_seeded o); cbn; lia. }
  rewrite Hnone in Hlen. cbn in Hseed, Hlen. apply length_zero_iff_nil in Hlen.
  rewrite main_eval, Hloop, (commit_step_eval E Hgit).
  cbn [committed changes session_closed]. rewrite Hlen.
  cbn [length Nat.eqb fst snd log]. split; [reflexivity|].
  cbn [committed log]. unfold commit_events, commit_message.
  cbn [seededBaselines changes session_closed log].
  rewrite ?Hlen, Hseed. cbn [length Nat.eqb].
  rewrite (proj2 (Nat.ltb_lt _ _) Hsome). cbn [orb andb].
  pose proof (process_targets_log cfg targets (session_opened s)) as Hlog.
  rewrite Hloop in Hlog. cbn [snd session_opened log] in Hlog.
  rewrite Hlog. now rewrite <- !app_assoc.
Qed.

End RunProperties.

Section NotifierProperties.
Context `{Platform}.
Variable cfg : config.
Variable E : environment.

(** X16.  When zip fails, a run with a non-empty report and at least
    one diff image ends with the error of zip after the commit: the
    git commands have run, no archive is written and no e-mail is
    sent. *)
Theorem zip_failure_is_fatal (targets : list target) (s s2 : state)
    (outs : list outcome) :
  git_works E -> zip_ok E = false ->
  process_targets cfg targets (session_opened s) = (Ok outs, s2) ->
  changes s2 <> [] -> diffFilesAll s2 <> [] ->
  (main cfg E targets s).1 = Threw ZipFailed /\
  log (main cfg E targets s).2
  = log s ++ [BrowserLaunch; NewContext; NewPage; PageClose; ContextClose; BrowserClose]
      ++ commit_events E s2 /\
  tmp_files (main cfg E targets s).2 = tmp_files s2.
Proof.
  intros Hgit Hzip Hloop Hch Hdiff.
  rewrite main_eval, Hloop, (commit_step_eval E Hgit).
  cbn [committed changes session_closed].
  destruct (changes s2) as [|c cs] eqn:Hc; [contradiction|]. cbn [length Nat.eqb].
  unfold notify_step, build_attachments, bind, get.
  change (diffFilesAll _) with (diffFilesAll s2).
  destruct (diffFilesAll s2) as [|f fs]; [contradiction|].
  unfold createZip, bind, get. rewrite Hzip. cbn [throw fst snd log tmp_files].
  split; [reflexivity|]. split; [|reflexivity].
  pose proof (process_targets_log cfg targets (session_opened s)) as Hlog.
  rewrite Hloop in Hlog. cbn [snd session_opened log] in Hlog.
  cbn [committed session_closed log]. rewrite Hlog.
  change (commit_events E (session_closed s2)) with (commit_events E s2).
  now rewrite <- !app_assoc.
Qed.

Lemma mustEnv_missing (name : string) (s : state) :
  env_value E name = None -> mustEnv E name s = (Threw (MissingEnvVar name), s).
Proof.
  unfold env_value, mustEnv. destruct (env E !! name) as [v|]; [|reflexivity].
  now destruct (String.eqb v "").
Qed.

(** X17.  [sendMailgunEmail] reads its three required variables in the
    order key, domain, recipient, and throws at the first that is not
    set or is empty, naming it; it has then read no attachment and
    posted nothing. *)
Theorem missing_mail_setting (subject text : string) (atts : list attachment)
    (s : state) (name : string) (before after : list string) :
  required_settings = before ++ name :: after ->
  (forall n, n ∈ before -> is_Some (env_value E n)) ->
  env_value E name = None ->
  sendMailgunEmail E subject text atts s = (Threw (MissingEnvVar name), s).
Proof.
  intros Hsplit Hbefore Hmiss. unfold required_settings in Hsplit.
  unfold sendMailgunEmail.
  destruct before as [|b1 [|b2 [|b3 [|b4 before]]]]; cbn [app] in Hsplit;
    try discriminate; simplify_eq.
  - now rewrite (bind_Threw _ _ _ _ _ (mustEnv_missing _ s Hmiss)).
  - destruct (Hbefore "MAILGUN_API_KEY"%string ltac:(left)) as [k Hk].
    rewrite (bind_Ok _ _ _ _ _ (mustEnv_eval E _ _ s Hk)).
    now rewrite (bind_Threw _ _ _ _ _ (mustEnv_missing _ s Hmiss)).
  - destruct (Hbefore "MAILGUN_API_KEY"%string ltac:(left)) as [k Hk].
    destruct (Hbefore "MAILGUN_DOMAIN"%string ltac:(right; left)) as [d Hd].
    rewrite (bind_Ok _ _ _ _ _ (mustEnv_eval E _ _ s Hk)).
    rewrite (bind_Ok _ _ _ _ _ (mustEnv_eval E _ _ s Hd)).
    now rewrite (bind_Threw _ _ _ _ _ (mustEnv_missing _ s Hmiss)).
Qed.

(** X18.  The form [sendMailgunEmail] posts goes to the base URL with
    every trailing slash removed, followed by [/v3/<domain>/messages]:
    however many slashes end [MAILGUN_BASE_URL], one slash separates
    it from [v3]. *)
Theorem endpoint_has_no_double_slash (subject text : string) (atts : list attachment)
    (s : state) :
  mail_configured E ->
  (forall a, a ∈ atts -> is_Some (files (att_path a).1 s !! (att_path a).2)) ->
  exists (form : mailgun_form) (b : list Ascii.ascii) (k : nat),
    log (sendMailgunEmail E subject text atts s).2 = log s ++ [MailgunPost form] /\
    form_endpoint form
    = string_of_list_ascii b +:+ "/v3/"
        +:+ default ""%string (env_value E "MAILGUN_DOMAIN") +:+ "/messages" /\
    list_ascii_of_string (env_or E "MAILGUN_BASE_URL" "https://api.mailgun.net")
    = b ++ replicate k slash /\
    last b <> Some slash.
Proof.
  intros Hmail Hatts. rewrite (sendMailgunEmail_eval E Hmail _ _ _ _ Hatts).
  cbn [snd add_event log].
  destruct (replace_trailing_slashes_nil
              (list_ascii_of_string (env_or E "MAILGUN_BASE_URL" "https://api.mailgun.net")))
    as (Hlast & k & Hk).
  eexists _, _, k. split; [reflexivity|]. split; [|split; [exact Hk|exact Hlast]].
  cbn [posted_form form_endpoint]. now rewrite env_or_value.
Qed.

Lemma exec_git_Some (c : git_command) (out : string) (s : state) :
  git E c = Some out -> exec_git E c s = (Ok out, add_event (Git c) s).
Proof. intros Hc. unfold exec_git, bind, emit, modify. now rewrite Hc. Qed.

Lemma exec_git_None (c : git_command) (s : state) :
  git E c = None -> exec_git E c s = (Threw GitFailed, add_event (Git c) s).
Proof. intros Hc. unfold exec_git, bind, emit, modify. now rewrite Hc. Qed.

(** X19.  [gitCommitIfNeeded] runs a prefix of status, add, commit,
    push, and nothing else.  On a blank status it stops after the
    status and returns false; it returns true only after all four
    commands succeeded; a command that fails is the last one run, and
    its error ends the function: nothing is committed after a failed
    add, nothing pushed after a failed commit. *)
Theorem gitCommitIfNeeded_outcomes (message : string) (s : state) :
  exists cmds : list git_command,
    cmds `prefix_of` git_sequence message /\
    log (gitCommitIfNeeded E message s).2 = log s ++ map Git cmds /\
    loop_results (gitCommitIfNeeded E message s).2 = loop_results s /\
    match (gitCommitIfNeeded E message s).1 with
    | Ok false =>
        cmds = [GitStatus] /\
        exists status, git E GitStatus = Some status /\ blank status = true
    | Ok true =>
        cmds = git_sequence message /\
        (forall c, c ∈ cmds -> is_Some (git E c)) /\
        exists status, git E GitStatus = Some status /\ blank status = false
    | Threw e =>
        e = GitFailed /\ exists c, last cmds = Some c /\ git E c = None
    end.
Proof.
  unfold gitCommitIfNeeded, git_sequence.
  destruct (git E GitStatus) as [status|] eqn:H0.
  2:{ rewrite (bind_Threw _ _ _ _ _ (exec_git_None _ s H0)).
      exists [GitStatus]. split; [now eexists|]. repeat split. now exists GitStatus. }
  rewrite (bind_Ok _ _ _ _ _ (exec_git_Some _ _ s H0)).
  destruct (blank status) eqn:Hb.
  { exists [GitStatus]. split; [now eexists|]. repeat split. now exists status. }
  set (s1 := add_event (Git GitStatus) s).
  destruct (git E GitAdd) as [o1|] eqn:H1.
  2:{ rewrite (bind_Threw _ _ _ _ _ (exec_git_None _ s1 H1)).
      exists [GitStatus; GitAdd]. split; [now eexists|]. cbn [snd fst].
      split; [cbn; now rewrite <- app_assoc|]. repeat split. now exists GitAdd. }
  rewrite (bind_Ok _ _ _ _ _ (exec_git_Some _ _ s1 H1)).
  set (s2 := add_event (Git GitAdd) s1).
  destruct (git E (GitCommit message)) as [o2|] eqn:H2.
  2:{ rewrite (bind_Threw _ _ _ _ _ (exec_git_None _ s2 H2)).
      exists [GitStatus; GitAdd; GitCommit message]. split; [now eexists|]. cbn [snd fst].
      split; [cbn; now rewrite <- !app_assoc|]. repeat split.
      now exists (GitCommit message). }
  rewrite (bind_Ok _ _ _ _ _ (exec_git_Some _ _ s2 H2)).
  set (s3 := add_event (Git (GitCommit message)) s2).
  destruct (git E GitPush) as [o3|] eqn:H3.
  2:{ rewrite (bind_Threw _ _ _ _ _ (exec_git_None _ s3 H3)).
      exists [GitStatus; GitAdd; GitCommit message; GitPush].
      split; [reflexivity|]. cbn [snd fst].
      split; [cbn; now rewrite <- !app_assoc|]. repeat split. now exists GitPush. }
  rewrite (bind_Ok _ _ _ _ _ (exec_git_Some _ _ s3 H3)).
  exists [GitStatus; GitAdd; GitCommit message; GitPush].
  split; [reflexivity|]. cbn [snd fst ret].
  split; [cbn; now rewrite <- !app_assoc|]. split; [reflexivity|].
  split; [reflexivity|]. split; [|now exists status].
  intros c Hc. rewrite !elem_of_cons in Hc.
  destruct Hc as [->|[->|[->|[->|Hc]]]]; eauto. now apply elem_of_nil in Hc.
Qed.

Lemma escape_quotes_id (s : string) :
  dquote ∉ list_ascii_of_string s -> escape_quotes s = s.
Proof.
  intros Hno. unfold escape_quotes.
  rewrite <- (string_of_list_ascii_of_string s) at 2. f_equal.
  induction (list_ascii_of_string s) as [|c l IH]; [reflexivity|].
  cbn [map concat]. destruct (Ascii.eqb c dquote) eqn:Hc.
  - apply Ascii.eqb_eq in Hc. subst c. contradict Hno. left.
  - cbn [app]. f_equal. apply IH. intros Hin. apply Hno. now right.
Qed.

Lemma digits_no_dquote (s : string) : digits s -> dquote ∉ list_ascii_of_string s.
Proof.
  intros [_ Hall] Hin. rewrite Forall_forall in Hall. specialize (Hall _ Hin).
  discriminate.
Qed.

Lemma dquote_not_in_app (a b : string) :
  dquote ∉ list_ascii_of_string a -> dquote ∉ list_ascii_of_string b ->
  dquote ∉ list_ascii_of_string (a +:+ b).
Proof.
  intros Ha Hb. rewrite list_ascii_of_string_app, elem_of_app. tauto.
Qed.

(** X20.  The messages [main] passes to [gitCommitIfNeeded] hold no
    double quote, so the escaping of the message changes nothing and
    the command run is [git commit -m "<message>"] with the message as
    it is. *)
Theorem commit_message_unescaped (s : state) (message : string) :
  commit_message s = Some message ->
  escape_quotes message = message /\
  command_line (GitCommit message)
  = "git commit -m " +:+ String dquote (message +:+ String dquote "").
Proof.
  intros Hm.
  assert (Hq : escape_quotes message = message).
  { apply escape_quotes_id. unfold commit_message in Hm.
    destruct (_ || _); [|discriminate]. injection Hm as <-.
    assert (Hlit : forall l : string,
               forallb (fun c => negb (Ascii.eqb c dquote)) (list_ascii_of_string l) = true ->
               dquote ∉ list_ascii_of_string l).
    { intros l Hl Hin. rewrite forallb_forall in Hl.
      apply list_elem_of_In in Hin. specialize (Hl _ Hin).
      now rewrite Ascii.eqb_refl in Hl. }
    destruct (_ && _).
    - apply dquote_not_in_app; [now apply Hlit|].
      apply dquote_not_in_app; [|now apply Hlit].
      apply digits_no_dquote, pretty_nat_digits.
    - apply dquote_not_in_app; [now apply Hlit|].
      apply dquote_not_in_app; [|now apply Hlit].
      apply digits_no_dquote, pretty_nat_digits. }
  split; [exact Hq|]. cbn [command_line]. now rewrite Hq.
Qed.

(** X25.  When the diff directory lists no diff image (a report of
    capture failures only), the notification is built without calling
    zip: it carries no attachment, its body ends with the line that
    says so, and the only effect is the post itself.  This holds
    whether zip works or not. *)
Theorem no_diff_image_no_archive (s : state) :
  mail_configured E ->
  diffFilesAll s = [] ->
  exists form : mailgun_form,
    notify_step cfg E s
    = (if res_ok E then Ok tt else Threw MailgunSendFailed,
       add_event (MailgunPost form) s) /\
    form_attachments form = [] /\
    form_subject form
    = "Milltech visual change detected (" +:+ pretty (length (changes s)) +:+ ")" /\
    form_text form = String.concat newline (body_lines (changes s) [] 0) /\
    last (body_lines (changes s) [] 0)
    = Some "No diff images were generated (capture failures only)."%string.
Proof.
  intros Hmail Hdiff. unfold notify_step, build_attachments.
  unfold bind at 1. unfold bind at 1. unfold get at 1. rewrite Hdiff.
  cbn [ret]. unfold bind at 1, get at 1.
  rewrite (sendMailgunEmail_eval E Hmail).
  2:{ intros a Ha. now apply elem_of_nil in Ha. }
  eexists. split; [reflexivity|]. cbn [posted_form form_attachments form_subject form_text map].
  split; [reflexivity|]. split; [reflexivity|]. split; [reflexivity|].
  unfold body_lines. now rewrite !app_assoc, last_snoc.
Qed.

(** X26.  An e-mail that Mailgun rejects is fatal, and comes after the
    commit: with git, zip and the mail settings in order and a
    non-empty report, a response that is not a success makes [main]
    end with the error of the send, once the git commands have run
    and the one post has been made. *)
Theorem rejected_mail_follows_commit (targets : list target) (s s2 : state)
    (outs : list outcome) :
  readdir_lists_files -> collaborators_respond E -> res_ok E = false ->
  process_targets cfg targets (session_opened s) = (Ok outs, s2) ->
  changes s2 <> [] ->
  (main cfg E targets s).1 = Threw MailgunSendFailed /\
  exists form,
    log (main cfg E targets s).2
    = log s ++ [BrowserLaunch; NewContext; NewPage; PageClose; ContextClose; BrowserClose]
        ++ commit_events E s2 ++ [MailgunPost form].
Proof.
  intros Hdir (Hgit & Hzip & Hmail) Hres Hloop Hch.
  destruct (main_log cfg E Hdir Hzip Hmail Hgit targets s s2 outs Hloop) as [Hr Hlog].
  rewrite Hr, Hlog. unfold run_events.
  destruct (changes s2) as [|c cs]; [contradiction|]. rewrite Hres.
  split; [reflexivity|]. eexists. reflexivity.
Qed.

(** X27.  A change found while git does not answer is never e-mailed:
    when the loop seeded or reported something and [git status] fails,
    [main] ends with the error of git right after that command, and
    neither zip nor Mailgun is called. *)
Theorem git_failure_prevents_mail (targets : list target) (s s2 : state)
    (outs : list outcome) :
  process_targets cfg targets (session_opened s) = (Ok outs, s2) ->
  Exists (fun o => o <> Unchanged) outs ->
  git E GitStatus = None ->
  main cfg E targets s
  = (Threw GitFailed, add_event (Git GitStatus) (session_closed s2)) /\
  log (add_event (Git GitStatus) (session_closed s2))
  = log s ++ [BrowserLaunch; NewContext; NewPage; PageClose; ContextClose; BrowserClose;
              Git GitStatus].
Proof.
  intros Hloop Hex Hgit.
  destruct (loop_totals cfg _ _ _ _ Hloop) as [Hseed Hlen].
  cbn [session_opened seededBaselines changes length] in Hseed, Hlen.
  assert (Hsome : (0 <? seededBaselines s2)%nat || (0 <? length (changes s2))%nat = true).
  { rewrite Hseed, Hlen. clear -Hex.
    induction Hex as [o os Ho|o os _ IH]; cbn [List.filter].
    - destruct o; cbn; try reflexivity; try apply orb_true_r. now contradict Ho.
    - apply orb_true_iff in IH. apply orb_true_iff.
      destruct IH as [IH|IH]; [left|right]; apply Nat.ltb_lt in IH; apply Nat.ltb_lt;
        [destruct (is_seeded o)|destruct (reported o)]; cbn [length]; lia. }
  rewrite main_eval, Hloop.
  assert (Hcommit : commit_step E (session_closed s2)
                    = (Threw GitFailed, add_event (Git GitStatus) (session_closed s2))).
  { unfold commit_step. unfold bind at 1, get at 1.
    cbn [session_closed seededBaselines changes]. rewrite Hsome.
    unfold gitCommitIfNeeded.
    rewrite (bind_Threw _ _ _ _ _
               (bind_Threw _ _ _ _ _ (exec_git_None _ (session_closed s2) Hgit))).
    reflexivity. }
  rewrite Hcommit. split; [reflexivity|].
  pose proof (process_targets_log cfg targets (session_opened s)) as Hlog.
  rewrite Hloop in Hlog. cbn [snd session_opened log] in Hlog.
  cbn [add_event session_closed log]. rewrite Hlog. now rewrite <- !app_assoc.
Qed.



End NotifierProperties.

(** * The capture of a page: consent banner and screenshot *)

Section CaptureProperties.
Variable P : page.

Lemma accept_from_absent (selectors : list string) :
  (forall sel, sel ∈ selectors -> present P sel = false) ->
  accept_from P selectors = map Count selectors.
Proof.
  induction selectors as [|sel rest IH]; intros Hno; [reflexivity|].
  cbn [accept_from map]. f_equal.
  pose proof (Hno sel ltac:(left)) as Hsel. unfold present in Hsel.
  assert (Hrest : accept_from P rest = map Count rest)
    by (apply IH; intros x Hx; apply Hno; now right).
  destruct (count P sel) as [n|]; [|exact Hrest].
  now rewrite Hsel.
Qed.

(** X21.  [acceptCookieYesIfPresent] clicks the first selector of its
    list that matches an element, waits, and returns: when that wait
    returns, the selectors after it are not looked up, and the click
    is the only one.  The selectors before it are looked up and
    nothing else is done with them. *)
Theorem first_present_button_clicked (before after : list string) (sel : string) :
  (forall b, b ∈ before -> present P b = false) ->
  present P sel = true ->
  wait_after_click_ok P sel = true ->
  accept_from P (before ++ sel :: after)
  = map Count before ++ [Count sel; Click sel; WaitForTimeout 500].
Proof.
  intros Hbefore Hsel Hwait.
  induction before as [|b before IH]; cbn [app accept_from map].
  - unfold present in Hsel. destruct (count P sel) as [n|]; [|discriminate].
    now rewrite Hsel, Hwait.
  - f_equal. pose proof (Hbefore b ltac:(left)) as Hb. unfold present in Hb.
    assert (Hrest : accept_from P (before ++ sel :: after)
                    = map Count before ++ [Count sel; Click sel; WaitForTimeout 500])
      by (apply IH; intros x Hx; apply Hbefore; now right).
    destruct (count P b) as [n|]; [|exact Hrest].
    now rewrite Hb.
Qed.

(** X22.  [acceptCookieYesIfPresent] never clicks a selector that
    matches nothing: every click is on a selector of the list whose
    count is above zero, and when no selector matches the function
    only looks the six selectors up, in order, without click or wait. *)
Theorem clicks_only_present_buttons (selectors : list string) :
  (forall sel, Click sel ∈ accept_from P selectors ->
               sel ∈ selectors /\ exists n, count P sel = Some n /\ (0 < n)%nat) /\
  ((forall sel, sel ∈ selectors -> present P sel = false) ->
   accept_from P selectors = map Count selectors).
Proof.
  split; [|apply accept_from_absent].
  induction selectors as [|s rest IH]; intros sel Hin; cbn [accept_from] in Hin.
  { now apply elem_of_nil in Hin. }
  apply elem_of_cons in Hin as [Heq|Hin]; [discriminate|].
  assert (Hrest : Click sel ∈ accept_from P rest ->
                  sel ∈ s :: rest /\ exists n, count P sel = Some n /\ (0 < n)%nat).
  { intros Hr. destruct (IH sel Hr) as [Hm Hn]. split; [now right|exact Hn]. }
  destruct (count P s) as [n|] eqn:Hc; [|now apply Hrest].
  destruct (0 <? n)%nat eqn:Hn; [|now apply Hrest].
  apply elem_of_cons in Hin as [[= ->]|Hin].
  { split; [left|]. exists n. split; [exact Hc|now apply Nat.ltb_lt]. }
  apply elem_of_cons in Hin as [Heq|Hin]; [discriminate|].
  destruct (wait_after_click_ok P s); [now apply elem_of_nil in Hin|now apply Hrest].
Qed.

Lemma accept_from_no_screenshot (selectors : list string) :
  Screenshot ∉ accept_from P selectors.
Proof.
  induction selectors as [|s rest IH]; cbn [accept_from]; [apply not_elem_of_nil|].
  intros Hin. apply elem_of_cons in Hin as [Heq|Hin]; [discriminate|].
  destruct (count P s) as [n|]; [|now apply IH].
  destruct (0 <? n)%nat; [|now apply IH].
  apply elem_of_cons in Hin as [Heq|Hin]; [discriminate|].
  apply elem_of_cons in Hin as [Heq|Hin]; [discriminate|].
  destruct (wait_after_click_ok P s); [now apply elem_of_nil in Hin|now apply IH].
Qed.

(** X23.  [captureFullPage] ends with the error of the first of
    viewport, route, navigation, style injection and final wait that
    fails, and takes no screenshot then; when none of them fails it
    takes the screenshot as its last call and ends as the screenshot
    does.  Neither the consent banner nor the wait for the network can
    prevent or fail the capture. *)
Theorem capture_fails_with_first_error (url : string) (viewport : nat * nat) :
  match first_failure P url with
  | Some e =>
      (captureFullPage P url viewport).2 = inl e /\
      Screenshot ∉ (captureFullPage P url viewport).1
  | None =>
      (captureFullPage P url viewport).2 = screenshot P /\
      last (captureFullPage P url viewport).1 = Some Screenshot
  end.
Proof.
  unfold first_failure, captureFullPage, await, after.
  destruct (setViewportSize_throws P) as [m|].
  { split; [reflexivity|]. cbn. rewrite !elem_of_cons, elem_of_nil.
    intros [?|?]; try discriminate; assumption. }
  destruct (route_throws P) as [m|].
  { split; [reflexivity|]. cbn. rewrite !elem_of_cons, elem_of_nil.
    intros [?|[?|?]]; try discriminate; assumption. }
  destruct (goto_throws P url) as [m|].
  { split; [reflexivity|]. cbn. rewrite !elem_of_cons, elem_of_nil.
    intros [?|[?|[?|?]]]; try discriminate; assumption. }
  destruct (addStyleTag_throws P) as [m|].
  { split; [reflexivity|]. cbn. rewrite !elem_of_cons, elem_of_nil.
    intros [?|[?|[?|[?|?]]]]; try discriminate; assumption. }
  destruct (settle_throws P) as [m|]; cbn -[acceptCookieYesIfPresent].
  - split; [reflexivity|]. rewrite !elem_of_cons, elem_of_app, !elem_of_cons, elem_of_nil.
    intros [?|[?|[?|[?|[Hin|[?|[?|?]]]]]]]; try discriminate; try assumption.
    now apply accept_from_no_screenshot in Hin.
  - split; [reflexivity|].
    change (last ([SetViewportSize viewport.1 viewport.2; Route; Goto url; AddStyleTag]
                  ++ acceptCookieYesIfPresent P
                  ++ [WaitForLoadState; WaitForTimeout 1500] ++ [Screenshot])
            = Some Screenshot).
    now rewrite !app_assoc, last_snoc.
Qed.

End CaptureProperties.

Section CaptureInLoop.
Context `{Platform}.
Variable cfg : config.

Lemma capture_error_result (P : page) (url : string) (viewport : nat * nat) (e : thrown) :
  capture_error P url = Some e -> (captureFullPage P url viewport).2 = inl e.
Proof.
  unfold capture_error, first_failure, captureFullPage, await, after.
  destruct (setViewportSize_throws P); [now intros [= ->]|].
  destruct (route_throws P); [now intros [= ->]|].
  destruct (goto_throws P url); [now intros [= ->]|].
  destruct (addStyleTag_throws P); [now intros [= ->]|].
  destruct (settle_throws P); [now intros [= ->]|]. cbn [snd].
  destruct (screenshot P); [now intros [= ->]|discriminate].
Qed.

(** X24.  A capture that fails is recorded and is not fatal: when the
    result of [captureFullPage] on the page is the capture of a
    target whose URL parses, and the capture ends with an error (of
    one of the calls that can fail it, the screenshot included), the
    step returns [Failed] and adds to the report the entry of the URL
    with the note [CAPTURE FAILED: ] followed by
    [String(e?.message || e)]: the message of the error, or the error
    as a string when it has no message; no file is written. *)
Theorem failed_capture_is_reported (P : page) (viewport : nat * nat) (t : target)
    (s : state) (slug : string) (e : thrown) :
  safeSlug (url t) = Ok slug ->
  captured t = (captureFullPage P (url t) viewport).2 ->
  capture_error P (url t) = Some e ->
  process_target cfg t s
  = (Ok Failed,
     add_change
       (CaptureFailure (url t)
          ("CAPTURE FAILED: "
           +:+ match error_message e with
               | Some message => message
               | None => error_string e
               end)) s) /\
  forall d, files d (process_target cfg t s).2 = files d s.
Proof.
  intros Hs Hc Hf.
  assert (Hcap : captured t = inl e).
  { rewrite Hc. now apply capture_error_result. }
  rewrite (process_target_failed cfg t s slug e Hs Hcap).
  split; [reflexivity|]. intros d. now destruct d.
Qed.

End CaptureInLoop.

(** * The statements at work on concrete runs *)

Section Examples.
Import Stub.

(** A ratio equal to the threshold: one pixel of two against a
    threshold of one half. *)
Lemma threshold_decision_witness :
  is_nan half = false /\
  diffPngs png_red png_red_red (of_Z 0) = Ok diff_half /\
  eqb (ratio diff_half) half = true /\
  (process_target (cfg half) (target_of (inr png_red_red)) (with_baseline png_red)).1
  = Ok Changed.
Proof.
  split; [reflexivity|]. split; [vm_compute; reflexivity|]. split; [reflexivity|].
  apply (threshold_decision (cfg half) (target_of (inr png_red_red))
           (with_baseline png_red) slug png_red_red png_red diff_half
           stub_decodes_well_formed stub_counts_differing);
    vm_compute; reflexivity.
Defined.

Lemma changed_persists_and_replaces_witness :
  exists (slug : string) (cur base : buffer) (d : DiffResult),
    safeSlug "a.example" = Ok slug /\
    captured (target_of (inr png_red_red)) = inr cur /\
    baselines (with_baseline png_red) !! (slug +:+ ".png") = Some base /\
    diffPngs base cur (of_Z 0) = Ok d /\
    let s' := (process_target (cfg half) (target_of (inr png_red_red))
                 (with_baseline png_red)).2 in
    diff_files s' !! (slug +:+ ".diff.png") = Some (diffBuf d) /\
    changes s' = [] ++ [VisualChange "a.example" (ratio d) (diffPixels d) (totalPixels d)] /\
    baselines s' !! (slug +:+ ".png") = Some cur.
Proof.
  apply (changed_persists_and_replaces (cfg half) (target_of (inr png_red_red))
           (with_baseline png_red)).
  vm_compute. reflexivity.
Defined.

Lemma seeds_absent_baseline_witness :
  baselines empty_state !! (slug +:+ ".png") = None /\
  (process_target (cfg half) (target_of (inr png_red)) empty_state).1 = Ok Seeded.
Proof.
  split; [reflexivity|].
  apply (seeds_absent_baseline (cfg half) (target_of (inr png_red)) empty_state
           slug png_red); vm_compute; reflexivity.
Defined.

(** One pixel of two differs, below a threshold of one. *)
Lemma unchanged_mutates_nothing_witness :
  lt (ratio diff_half) (of_Z 1) = true /\
  process_target (cfg (of_Z 1)) (target_of (inr png_red_red)) (with_baseline png_red)
  = (Ok Unchanged,
     captured_state slug (target_of (inr png_red_red)) png_red_red (with_baseline png_red)).
Proof.
  split; [reflexivity|].
  apply (unchanged_mutates_nothing (cfg (of_Z 1)) (target_of (inr png_red_red))
           (with_baseline png_red) slug png_red_red png_red diff_half);
    vm_compute; reflexivity.
Defined.

Lemma identical_images_unchanged_witness :
  PNG_sync_read png_red = Some {| width := 1; height := 1; data := red |} /\
  exists d, diffPngs png_red png_red (of_Z 0) = Ok d /\
            diffPixels d = 0%nat /\ ratio d = zero.
Proof.
  split; [reflexivity|].
  apply (identical_images_unchanged (cfg half) (target_of (inr png_red))
           (with_baseline png_red) slug png_red
           {| width := 1; height := 1; data := red |}
           stub_decodes_well_formed stub_counts_differing).
  reflexivity.
Defined.

(** C4, the claim as stated fails.  The current image is the baseline
    with one row added, a transparent pixel, which is what the padding
    of the baseline holds there: the two canvases are equal, and no
    differ that counts unequal pixels only registers the added row.
    Shown on the small platform, whose differ counts every unequal
    pixel, and for every platform under the pixelmatch contract. *)
Lemma added_rows_can_go_unnoticed :
  let base := {| width := 1; height := 1; data := red |} in
  let cur := {| width := 1; height := 2; data := red ++ clear |} in
  (well_formed base /\ well_formed cur /\ width base = width cur /\
   (height base < height cur)%nat /\ data cur = data base ++ clear) /\
  (exists d, @diffPngs Stub.platform png_red png_red_clear (of_Z 0) = Ok d /\
             diffPixels d = 0%nat /\ totalPixels d = 2%nat /\ ratio d = zero) /\
  (forall (P : Platform) (thr : number),
     @pixelmatch_counts_differing P ->
     exists d, @diffImages P base cur thr = Ok d /\ diffPixels d = 0%nat).
Proof.
  cbv zeta. split; [|split].
  - repeat split; cbn; unfold MAX_LENGTH; lia.
  - eexists. split; [vm_compute; reflexivity|]. repeat split.
  - intros P thr Hpm.
    pose proof (Hpm (red ++ clear) (red ++ clear) (replicate 8 Byte.x00)
                  1%nat 2%nat thr eq_refl eq_refl) as Hle.
    rewrite PngFacts.differing_pixels_same in Hle.
    unfold diffImages. cbn [width height data Nat.max].
    change (padTo 1 2 {| width := 1; height := 1; data := red |})
      with (Ok {| width := 1; height := 2; data := red ++ clear |}).
    change (padTo 1 2 {| width := 1; height := 2; data := red ++ clear |})
      with (Ok {| width := 1; height := 2; data := red ++ clear |}).
    change (new_PNG 1 2)
      with (Ok {| width := 1; height := 2; data := replicate 8 Byte.x00 |}).
    cbn [data].
    destruct (pixelmatch _ _ _ _ _ _) as [out n]. cbn [snd] in Hle.
    eexists. split; [reflexivity|]. cbn [diffPixels]. lia.
Qed.

Lemma diff_pads_to_max_canvas_witness :
  exists d, diffPngs png_red png_red_red (of_Z 0) = Ok d /\
            (diffPixels d <= 1 * (2 - 1))%nat /\ totalPixels d = (1 * 2)%nat.
Proof.
  apply (diff_pads_to_max_canvas png_red png_red_red
           {| width := 1; height := 1; data := red |}
           {| width := 1; height := 2; data := red ++ red |} (of_Z 0)
           stub_decodes_well_formed stub_counts_differing eq_refl eq_refl);
    [vm_compute; reflexivity|reflexivity|cbn; lia|now exists red].
Defined.

(** C5, the claim as stated fails.  One target changes; the limit is
    ten bytes.  The archive of the one diff image is 32 bytes and is
    attached all the same: the attachments of the e-mail exceed the
    limit. *)
Lemma archive_exceeds_byte_limit :
  let final := (main cfg_ten_bytes mail_env [target_of (inr png_red_red)]
                  (with_baseline png_red)).2 in
  maxBytes cfg_ten_bytes = 10 /\
  notifications (log final) = 1%nat /\
  attached_bytes (log final) = 32.
Proof. vm_compute. repeat split. Qed.

(** The images are attached in the order of the directory listing,
    which need not be that of the report: two targets change,
    [b.example] first; the listing of the small platform names the diff
    image of [a.example] first. *)
Lemma attachments_follow_directory_listing :
  let final := (main (cfg half) mail_env
                  [target_at "b.example" (inr png_red_red);
                   target_at "a.example" (inr png_red_red)]
                  (two_baselines png_red)).2 in
  map change_url (changes final) = ["b.example"; "a.example"]%string /\
  attachment_names (log final)
  = ["diffs.zip"; "a-example__da39a3ee5e.diff.png"; "b-example__da39a3ee5e.diff.png"]%string.
Proof. vm_compute. split; reflexivity. Qed.

Lemma attachments_within_budget_witness :
  build_attachments (cfg half) mail_env (with_diff "a.diff.png" png_red)
  = (Ok (attachments_of (cfg half) (with_diff "a.diff.png" png_red),
         attachment_bytes (cfg half) (with_diff "a.diff.png" png_red)),
     after_zip (with_diff "a.diff.png" png_red)) /\
  attachments_of (cfg half) (with_diff "a.diff.png" png_red)
  = [zip_attachment; png_attachment "a.diff.png"].
Proof.
  split; [|vm_compute; reflexivity].
  apply (attachments_within_budget (cfg half) mail_env (with_diff "a.diff.png" png_red)
           stub_lists_files eq_refl).
Defined.

(** One target whose capture fails: one entry, one e-mail. *)
(** C6, the claim as stated fails.  Two targets, each with a
    baseline: the first changed and is entered in the report; the
    baseline of the second is not an image, decoding it throws inside
    the loop, and [main] ends with that error.  The report holds an
    entry and no notification is sent. *)
Lemma report_entry_without_notification :
  let run := main (cfg half) mail_env
               [target_at "a.example" (inr png_red_red);
                target_at "b.example" (inr png_red)]
               Cases.corrupt_second in
  run.1 = Threw InvalidPng /\
  length (changes run.2) = 1%nat /\
  notifications (log run.2) = 0%nat.
Proof. vm_compute. repeat split. Qed.

Lemma one_notification_per_run_witness :
  notifications
    (log (main (cfg half) mail_env [target_of (inl (failure "net::ERR_TIMED_OUT"))]
            empty_state).2)
  = (notifications (log empty_state) + 1)%nat.
Proof.
  refine (proj2 (proj2 (proj2 (one_notification_per_run (cfg half) mail_env
                   [target_of (inl (failure "net::ERR_TIMED_OUT"))] empty_state)))
            [Failed]
            (process_targets (cfg half) [target_of (inl (failure "net::ERR_TIMED_OUT"))]
               (session_opened empty_state)).2
            _ _ stub_lists_files stub_collaborators_respond).
  - vm_compute. reflexivity.
  - vm_compute. discriminate.
Defined.

(** C8, the claim as stated fails.  The stored baseline is not an
    image: decoding it throws inside the loop, [main] ends with that
    error, and the log stops after the session was opened: page,
    context and browser are never closed. *)
Lemma shutdown_skipped_on_fatal_error :
  let run := main (cfg half) mail_env [target_of (inr png_red)]
               (with_baseline [Byte.x00]) in
  run.1 = Threw InvalidPng /\
  log run.2 = [BrowserLaunch; NewContext; NewPage].
Proof. vm_compute. split; reflexivity. Qed.

(** A capture that fails is not fatal: the session is closed. *)
Lemma session_closed_after_loop_witness :
  exists rest,
    log (main (cfg half) mail_env [target_of (inl (failure "net::ERR_TIMED_OUT"))]
           empty_state).2
    = log empty_state ++ [BrowserLaunch; NewContext; NewPage]
        ++ [PageClose; ContextClose; BrowserClose] ++ rest.
Proof.
  apply (session_closed_after_loop (cfg half) mail_env
           [target_of (inl (failure "net::ERR_TIMED_OUT"))] empty_state
           (process_targets (cfg half) [target_of (inl (failure "net::ERR_TIMED_OUT"))]
              (session_opened empty_state)).2
           [Failed]).
  vm_compute. reflexivity.
Defined.

Lemma failures_counted_as_changes_witness :
  exists form,
    log (main (cfg half) mail_env [target_of (inl (failure "net::ERR_TIMED_OUT"))]
           empty_state).2
    = [BrowserLaunch; NewContext; NewPage; PageClose; ContextClose; BrowserClose;
       Git GitStatus; Git GitAdd; Git (GitCommit "Update baselines (1 change(s))");
       Git GitPush; MailgunPost form] /\
    form_subject form = "Milltech visual change detected (1)"%string.
Proof.
  destruct (failures_counted_as_changes (cfg half) mail_env
              [target_of (inl (failure "net::ERR_TIMED_OUT"))] empty_state
              (process_targets (cfg half) [target_of (inl (failure "net::ERR_TIMED_OUT"))]
                 (session_opened empty_state)).2
              [Failed] stub_lists_files stub_collaborators_respond)
    as (_ & _ & form & Hlog & Hsubject).
  - vm_compute. reflexivity.
  - vm_compute. discriminate.
  - vm_compute. repeat constructor.
  - vm_compute. reflexivity.
  - exists form. split; [exact Hlog|exact Hsubject].
Defined.

(** Two targets seen for the first time: two baselines are written,
    the report stays empty, the commit names two seeds and no e-mail is
    sent. *)
Example two_targets_seeded :
  let run := main (cfg half) mail_env
               [target_at "a.example" (inr png_red); target_at "b.example" (inr png_red_red)]
               empty_state in
  run.1 = Ok tt /\
  changes run.2 = [] /\
  seededBaselines run.2 = 2%nat /\
  baselines run.2 !! "a-example__da39a3ee5e.png"%string = Some png_red /\
  baselines run.2 !! "b-example__da39a3ee5e.png"%string = Some png_red_red /\
  log run.2 = [BrowserLaunch; NewContext; NewPage; PageClose; ContextClose; BrowserClose;
               Git GitStatus; Git GitAdd; Git (GitCommit "Seed baselines (2)"); Git GitPush].
Proof. vm_compute. repeat split. Qed.

(** A target whose navigation times out: one failure entry, the
    baseline untouched, one e-mail without attachments. *)
Example capture_failure_reported :
  let run := main (cfg half) mail_env
               [target_of (inl (failure "page.goto: Timeout 60000ms exceeded."))]
               (with_baseline png_red) in
  run.1 = Ok tt /\
  changes run.2
  = [CaptureFailure "a.example" "CAPTURE FAILED: page.goto: Timeout 60000ms exceeded."] /\
  baselines run.2 = baselines (with_baseline png_red) /\
  notifications (log run.2) = 1%nat /\
  attachment_names (log run.2) = [].
Proof. vm_compute. repeat split. Qed.

(** A capture one row taller than its baseline, at a threshold it
    reaches: the target changed, the baseline is the new capture, and
    the e-mail carries the archive and the diff image. *)
Example taller_capture_changed :
  let run := main (cfg half) mail_env [target_of (inr png_red_red)]
               (with_baseline png_red) in
  run.1 = Ok tt /\
  changes run.2 = [VisualChange "a.example" half 1 2] /\
  baselines run.2 !! (slug +:+ ".png") = Some png_red_red /\
  notifications (log run.2) = 1%nat /\
  attachment_names (log run.2) = ["diffs.zip"; "a-example__da39a3ee5e.diff.png"]%string.
Proof. vm_compute. repeat split. Qed.

End Examples.

(** * The further properties at work on concrete runs *)

Section MoreExamples.
Import Stub Cases.

Lemma safeSlug_two_replacements_redundant_witness :
  safeSlug "a.example" = Ok slug.
Proof.
  exact (safeSlug_two_replacements_redundant "a.example" "a.example" "/" eq_refl).
Defined.

(** Two URLs that differ in case only share the slug, so the hash
    prefixes are those of one and the same slug. *)
Lemma equal_slugs_equal_hashes_witness :
  safeSlug "a.example" = Ok slug /\ safeSlug capital_url = Ok slug /\
  String.substring 0 10 (sha1_hex "a.example")
  = String.substring 0 10 (sha1_hex capital_url).
Proof.
  split; [reflexivity|]. split; [reflexivity|].
  apply (equal_slugs_equal_hashes "a.example" capital_url slug); reflexivity.
Defined.

Lemma loop_keeps_other_images_witness :
  baselines (process_targets (cfg half) [target_of (inr png_red_red)]
               (two_baselines png_red)).2 !! other_baseline
  = Some png_red.
Proof.
  change (Some png_red) with (files BASELINES_DIR (two_baselines png_red) !! other_baseline).
  apply (loop_keeps_other_images (cfg half) [target_of (inr png_red_red)]
           (two_baselines png_red) BASELINES_DIR other_baseline).
  - reflexivity.
  - intros t sl Hin Hs. apply elem_of_cons in Hin as [->|Hin].
    + vm_compute in Hs. injection Hs as <-. split; discriminate.
    + now apply elem_of_nil in Hin.
Defined.

Lemma loop_deletes_no_image_witness :
  is_Some (baselines (process_targets (cfg half) [target_of (inr png_red_red)]
                        (with_baseline png_red)).2 !! (slug +:+ ".png")).
Proof.
  apply (loop_deletes_no_image (cfg half) [target_of (inr png_red_red)]
           (with_baseline png_red) BASELINES_DIR (slug +:+ ".png")).
  - reflexivity.
  - vm_compute. eauto.
Defined.

Lemma diffPngs_failures_witness :
  exists d, diffPngs png_red png_red_red (of_Z 0) = Ok d.
Proof.
  apply (proj1 (diffPngs_failures stub_decodes_well_formed png_red png_red_red (of_Z 0))).
  unfold canvas_small. vm_compute. reflexivity.
Defined.

Lemma loop_report_witness :
  process_targets (cfg half) [target_of (inr png_red)] empty_state
  = (Ok [Seeded], (process_targets (cfg half) [target_of (inr png_red)] empty_state).2) /\
  seededBaselines (process_targets (cfg half) [target_of (inr png_red)] empty_state).2
  = 1%nat.
Proof.
  split; [vm_compute; reflexivity|].
  refine (proj1 (proj2 (loop_report (cfg half) [target_of (inr png_red)] empty_state
                          _ [Seeded] _))).
  vm_compute. reflexivity.
Defined.

(** An unchanged page under a threshold of zero. *)
Lemma nonpositive_threshold_always_changed_witness :
  ge zero (of_Z 0) = true /\
  (process_target (cfg (of_Z 0)) (target_of (inr png_red)) (with_baseline png_red)).1
  = Ok Changed.
Proof.
  split; [reflexivity|].
  eapply (nonpositive_threshold_always_changed (cfg (of_Z 0))
            stub_decodes_well_formed stub_counts_differing
            (target_of (inr png_red)) (with_baseline png_red) slug png_red png_red);
    vm_compute; reflexivity.
Defined.

Lemma second_pass_unchanged_witness :
  (process_target (cfg half) (target_of (inr png_red)) empty_state).1 = Ok Seeded /\
  (process_target (cfg half) (target_of (inr png_red))
     (process_target (cfg half) (target_of (inr png_red)) empty_state).2).1
  = Ok Unchanged.
Proof.
  split; [vm_compute; reflexivity|].
  refine (proj1 (second_pass_unchanged (cfg half)
                   stub_decodes_well_formed stub_counts_differing
                   (target_of (inr png_red)) (target_of (inr png_red)) empty_state
                   png_red Seeded _ _ _ _ _ _)).
  - reflexivity.
  - vm_compute. reflexivity.
  - right. split; [reflexivity|]. vm_compute. eauto.
  - reflexivity.
  - reflexivity.
  - reflexivity.
Defined.


Lemma run_stops_at_fatal_target_witness :
  (main (cfg half) mail_env
     ([] ++ target_of (inr png_red) :: [target_at "b.example" (inr png_red)])
     (with_baseline not_an_image)).1
  = Threw InvalidPng.
Proof.
  refine (f_equal fst
            (proj1 (run_stops_at_fatal_target (cfg half) mail_env []
                      [target_at "b.example" (inr png_red)] (target_of (inr png_red))
                      (with_baseline not_an_image) _ _ [] InvalidPng _ _))).
  - reflexivity.
  - vm_compute. reflexivity.
Defined.

Lemma unchanged_run_is_silent_witness :
  log (main (cfg half) mail_env [target_of (inr png_red)] (with_baseline png_red)).2
  = [BrowserLaunch; NewContext; NewPage; PageClose; ContextClose; BrowserClose].
Proof.
  destruct (unchanged_run_is_silent (cfg half) mail_env [target_of (inr png_red)]
              (with_baseline png_red)
              (process_targets (cfg half) [target_of (inr png_red)]
                 (session_opened (with_baseline png_red))).2
              [Unchanged]) as [Hmain Hlog].
  - vm_compute. reflexivity.
  - constructor; [reflexivity|constructor].
  - rewrite Hmain. exact Hlog.
Defined.

Lemma seeding_run_commits_without_mail_witness :
  log (main (cfg half) mail_env [target_of (inr png_red)] empty_state).2
  = [BrowserLaunch; NewContext; NewPage; PageClose; ContextClose; BrowserClose;
     Git GitStatus; Git GitAdd; Git (GitCommit "Seed baselines (1)"); Git GitPush].
Proof.
  refine (proj2 (seeding_run_commits_without_mail (cfg half) mail_env
                   [target_of (inr png_red)] empty_state
                   (process_targets (cfg half) [target_of (inr png_red)]
                      (session_opened empty_state)).2
                   [Seeded] (proj1 stub_collaborators_respond) _ _ _)).
  - vm_compute. reflexivity.
  - constructor; [now left|constructor].
  - constructor. reflexivity.
Defined.

Lemma zip_failure_is_fatal_witness :
  (main (cfg half) no_zip_env [target_of (inr png_red_red)] (with_baseline png_red)).1
  = Threw ZipFailed.
Proof.
  refine (proj1 (zip_failure_is_fatal (cfg half) no_zip_env
                   [target_of (inr png_red_red)] (with_baseline png_red)
                   (process_targets (cfg half) [target_of (inr png_red_red)]
                      (session_opened (with_baseline png_red))).2
                   [Changed] _ _ _ _ _)).
  - intros c. destruct c; cbn; eauto.
  - reflexivity.
  - vm_compute. reflexivity.
  - vm_compute. discriminate.
  - vm_compute. discriminate.
Defined.

Lemma missing_mail_setting_witness :
  sendMailgunEmail no_domain_env "subject" "text" [] empty_state
  = (Threw (MissingEnvVar "MAILGUN_DOMAIN"), empty_state).
Proof.
  apply (missing_mail_setting no_domain_env "subject" "text" [] empty_state
           "MAILGUN_DOMAIN" ["MAILGUN_API_KEY"%string] ["ALERT_EMAIL_TO"%string]).
  - reflexivity.
  - intros n Hn. apply elem_of_cons in Hn as [->|Hn]; [vm_compute; eauto|].
    now apply elem_of_nil in Hn.
  - reflexivity.
Defined.

Lemma endpoint_has_no_double_slash_witness :
  exists (form : mailgun_form) (b : list Ascii.ascii) (k : nat),
    log (sendMailgunEmail eu_env "subject" "text" [] empty_state).2
    = log empty_state ++ [MailgunPost form] /\
    form_endpoint form
    = string_of_list_ascii b +:+ "/v3/"
        +:+ default ""%string (env_value eu_env "MAILGUN_DOMAIN") +:+ "/messages" /\
    list_ascii_of_string (env_or eu_env "MAILGUN_BASE_URL" "https://api.mailgun.net")
    = b ++ replicate k slash /\
    last b <> Some slash.
Proof.
  apply (endpoint_has_no_double_slash eu_env "subject" "text" [] empty_state).
  - repeat split; vm_compute; eauto.
  - intros a Ha. now apply elem_of_nil in Ha.
Defined.

Lemma commit_message_unescaped_witness :
  command_line (GitCommit "Seed baselines (2)")
  = "git commit -m " +:+ String dquote ("Seed baselines (2)" +:+ String dquote "").
Proof.
  refine (proj2 (commit_message_unescaped two_seeded "Seed baselines (2)" _)).
  vm_compute. reflexivity.
Defined.

Lemma no_diff_image_no_archive_witness :
  exists form : mailgun_form,
    notify_step (cfg half) no_zip_env one_failure
    = (if res_ok no_zip_env then Ok tt else Threw MailgunSendFailed,
       add_event (MailgunPost form) one_failure) /\
    form_attachments form = [] /\
    form_subject form
    = "Milltech visual change detected (" +:+ pretty (length (changes one_failure)) +:+ ")" /\
    form_text form = String.concat newline (body_lines (changes one_failure) [] 0) /\
    last (body_lines (changes one_failure) [] 0)
    = Some "No diff images were generated (capture failures only)."%string.
Proof.
  apply (no_diff_image_no_archive (cfg half) no_zip_env one_failure).
  - repeat split; vm_compute; eauto.
  - reflexivity.
Defined.

Lemma first_present_button_clicked_witness :
  acceptCookieYesIfPresent banner_page
  = [Count ".cky-btn-accept"; Count ".cky-btn-accept-all";
     Click ".cky-btn-accept-all"; WaitForTimeout 500].
Proof.
  apply (first_present_button_clicked banner_page [".cky-btn-accept"%string]
           ["button.cky-btn-accept"; "button:has-text('Accept')";
            "button:has-text('Accept All')"; "button:has-text('I Accept')"]%string
           ".cky-btn-accept-all").
  - intros b Hb. apply elem_of_cons in Hb as [->|Hb]; [reflexivity|].
    now apply elem_of_nil in Hb.
  - reflexivity.
  - reflexivity.
Defined.

(** The screenshot fails with an error that has no message: the note
    holds the error as a string. *)
Lemma failed_capture_is_reported_witness :
  process_target (cfg half)
    (target_of (captureFullPage no_screenshot_page "a.example" viewport).2)
    (with_baseline png_red)
  = (Ok Failed,
     add_change (CaptureFailure "a.example" "CAPTURE FAILED: Error")
       (with_baseline png_red)).
Proof.
  refine (proj1 (failed_capture_is_reported (cfg half) no_screenshot_page viewport
                   (target_of (captureFullPage no_screenshot_page "a.example" viewport).2)
                   (with_baseline png_red) slug
                   {| error_message := None; error_string := "Error" |} _ _ _));
    reflexivity.
Defined.

(** A navigation that times out: the note holds the message of the
    error. *)
Example navigation_timeout_reported :
  changes (process_target (cfg half)
             (target_of (captureFullPage unreachable_page "a.example" viewport).2)
             (with_baseline png_red)).2
  = [CaptureFailure "a.example" "CAPTURE FAILED: page.goto: Timeout 60000ms exceeded."].
Proof. vm_compute. reflexivity. Qed.

Lemma rejected_mail_follows_commit_witness :
  (main (cfg half) rejecting_env [target_of (inr png_red_red)] (with_baseline png_red)).1
  = Threw MailgunSendFailed.
Proof.
  refine (proj1 (rejected_mail_follows_commit (cfg half) rejecting_env
                   [target_of (inr png_red_red)] (with_baseline png_red)
                   (process_targets (cfg half) [target_of (inr png_red_red)]
                      (session_opened (with_baseline png_red))).2
                   [Changed] stub_lists_files _ _ _ _)).
  - split; [intros c; destruct c; cbn; eauto|].
    split; [reflexivity|exact stub_mail_configured].
  - reflexivity.
  - vm_compute. reflexivity.
  - vm_compute. discriminate.
Defined.

Lemma git_failure_prevents_mail_witness :
  (main (cfg half) no_git_env [target_of (inr png_red_red)] (with_baseline png_red)).1
  = Threw GitFailed.
Proof.
  refine (f_equal fst
            (proj1 (git_failure_prevents_mail (cfg half) no_git_env
                      [target_of (inr png_red_red)] (with_baseline png_red)
                      (process_targets (cfg half) [target_of (inr png_red_red)]
                         (session_opened (with_baseline png_red))).2
                      [Changed] _ _ _))).
  - vm_compute. reflexivity.
  - constructor. discriminate.
  - reflexivity.
Defined.

End MoreExamples.
